(** * lr7: a logging decorator, a currency-rate fetch and a quadratic solver

    A shallow embedding of [lr7.py] and the properties of it that the
    specification states.

    - Python values are an inductive type; [int] is [Z] (arbitrary precision),
      [float] is the kernel's binary64 [float], [str] is a byte string holding
      the UTF-8 encoding of the text, [dict] is an association list in
      insertion order.
    - A raised exception is a value of [exn] (class and arguments); code that
      may raise returns [res A].
    - The log destination is a shared mutable object: the decorators run in a
      state-and-exception monad [M] whose state is that object.
    - Arithmetic on [float] is the kernel's, which [SpecFloat] specifies:
      every operation rounds to nearest, ties to even. What the solver's
      roots satisfy is derived from that specification. The power of a
      [float], which the interpreter leaves to the C library, is a function
      the solver is given, and nothing is assumed of it.
    - [repr()] and [str()] can raise, and the decorators call them where the
      source does: before the [try], inside it, and in the handler. *)

From Stdlib Require Import ZArith List String Ascii Bool Floats Lia DecimalString.
Import ListNotations.

#[local] Set Warnings "-register-all".

Open Scope string_scope.
Open Scope list_scope.

Infix "+++" := String.append (right associativity, at level 60).

(* ================================================================= *)
(** ** Python values and exceptions *)

Inductive pyval : Type :=
| VNone
| VBool (b : bool)
| VInt (z : Z)
| VFloat (f : float)
| VStr (s : string)
| VTuple (xs : list pyval)
| VList (xs : list pyval)
| VDict (kvs : list (string * pyval)).

(** An exception class: the name [type(e).__name__] shows, and whether the
    class derives from [Exception] (what [except Exception] catches);
    [KeyboardInterrupt] and [SystemExit] do not. *)
Record exc_class : Type := ExcClass {
  cls_name : string;
  cls_is_Exception : bool
}.

Definition TypeError := ExcClass "TypeError" true.
Definition ValueError := ExcClass "ValueError" true.
Definition KeyError := ExcClass "KeyError" true.
Definition IndexError := ExcClass "IndexError" true.
Definition AttributeError := ExcClass "AttributeError" true.
Definition ConnectionError := ExcClass "ConnectionError" true.
Definition OverflowError := ExcClass "OverflowError" true.
Definition ZeroDivisionError := ExcClass "ZeroDivisionError" true.
Definition KeyboardInterrupt := ExcClass "KeyboardInterrupt" false.
Definition RecursionError := ExcClass "RecursionError" true.
Definition SystemExit := ExcClass "SystemExit" false.

(** A raised exception object: its class and its [args]. *)
Record exn : Type := Exn {
  exc_type : exc_class;
  exc_args : list pyval
}.

(** The outcome of code that may raise. *)
Inductive res (A : Type) : Type :=
| Ok (v : A)
| Raise (e : exn).
Arguments Ok {A} v.
Arguments Raise {A} e.

Definition res_bind {A B : Type} (r : res A) (k : A -> res B) : res B :=
  match r with
  | Ok v => k v
  | Raise e => Raise e
  end.

Declare Scope res_scope.
Delimit Scope res_scope with res.
Notation "x <- c ;; k" := (res_bind c (fun x => k))
  (at level 61, c at next level, right associativity) : res_scope.

(** [raise Cls(msg)] *)
Definition raise_msg {A : Type} (cls : exc_class) (msg : string) : res A :=
  Raise (Exn cls [VStr msg]).

(** [f] over the elements in their order; the first on which it raises ends it. *)
Fixpoint map_res {A B : Type} (f : A -> res B) (xs : list A) : res (list B) :=
  match xs with
  | [] => Ok []
  | x :: rest => (y <- f x ;; ys <- map_res f rest ;; Ok (y :: ys))%res
  end.

(* ================================================================= *)
(** ** Numbers: [int], [float] and their mixed arithmetic *)

(** [isinstance(v, (int, float))]: [bool] is a subclass of [int]. *)
Inductive num : Type :=
| NInt (z : Z)
| NFloat (f : float).

Definition as_num (v : pyval) : option num :=
  match v with
  | VBool b => Some (NInt (Z.b2z b))
  | VInt z => Some (NInt z)
  | VFloat f => Some (NFloat f)
  | _ => None
  end.

Definition isinstance_int_float (v : pyval) : bool :=
  match as_num v with Some _ => true | None => false end.

Definition of_num (x : num) : pyval :=
  match x with
  | NInt z => VInt z
  | NFloat f => VFloat f
  end.

(** [float(z)] for an [int]: the nearest binary64 value, ties to even;
    [OverflowError] when that is out of range. *)
Definition Z2SF (z : Z) : spec_float := binary_normalize prec emax z 0 false.

Definition int_to_float (z : Z) : res float :=
  let f := SF2Prim (Z2SF z) in
  if is_infinity f
  then raise_msg OverflowError "int too large to convert to float"
  else Ok f.

(** The conversion a [float] operation applies to its other operand. *)
Definition to_float (x : num) : res float :=
  match x with
  | NInt z => int_to_float z
  | NFloat f => Ok f
  end.

Definition num_neg (x : num) : num :=
  match x with
  | NInt z => NInt (- z)
  | NFloat f => NFloat (- f)
  end.

(** [+], [-], [*]: exact on two [int]s; otherwise both operands become
    [float] and the IEEE operation applies (it does not raise). *)
Definition num_arith (zop : Z -> Z -> Z) (fop : float -> float -> float)
    (x y : num) : res num :=
  match x, y with
  | NInt a, NInt b => Ok (NInt (zop a b))
  | _, _ =>
      (a <- to_float x ;;
       b <- to_float y ;;
       Ok (NFloat (fop a b)))%res
  end.

Definition num_add : num -> num -> res num := num_arith Z.add PrimFloat.add.
Definition num_sub : num -> num -> res num := num_arith Z.sub PrimFloat.sub.
Definition num_mul : num -> num -> res num := num_arith Z.mul PrimFloat.mul.

(** [x / y]. Two [int]s: the correctly rounded quotient of the integers
    ([long_true_divide]); otherwise [float] division. A zero divisor raises. *)
Definition SF_of_Z (z : Z) : spec_float :=
  match z with
  | Z0 => S754_zero false
  | Zpos p => S754_finite false p 0
  | Zneg p => S754_finite true p 0
  end.

Definition int_truediv (a b : Z) : res float :=
  if (b =? 0)%Z then raise_msg ZeroDivisionError "division by zero"
  else
    let q := SF2Prim (SFdiv prec emax (SF_of_Z a) (SF_of_Z b)) in
    if is_infinity q
    then raise_msg OverflowError "integer division result too large for a float"
    else Ok q.

Definition float_truediv (x y : float) : res float :=
  if (y =? 0)%float then raise_msg ZeroDivisionError "float division by zero"
  else Ok (x / y)%float.

Definition num_truediv (x y : num) : res float :=
  match x, y with
  | NInt a, NInt b => int_truediv a b
  | _, _ =>
      (a <- to_float x ;;
       b <- to_float y ;;
       float_truediv a b)%res
  end.

(** Comparison with the literal [0]. *)
Definition num_eq0 (x : num) : bool :=
  match x with
  | NInt z => (z =? 0)%Z
  | NFloat f => (f =? 0)%float
  end.

Definition num_lt0 (x : num) : bool :=
  match x with
  | NInt z => (z <? 0)%Z
  | NFloat f => (f <? 0)%float
  end.

Definition num_gt0 (x : num) : bool :=
  match x with
  | NInt z => (0 <? z)%Z
  | NFloat f => (0 <? f)%float
  end.

(** [math.sqrt(x)]: the argument becomes a [float]; a negative one is a
    domain error; NaN gives NaN. *)
Definition math_sqrt (x : num) : res float :=
  (f <- to_float x ;;
   if (f <? 0)%float then raise_msg ValueError "math domain error"
   else Ok (PrimFloat.sqrt f))%res.

(* ================================================================= *)
(** ** [solve_quadratic] (the function under the decorator) *)

Section Solver.

(** [x ** y] on two [float]s, as the interpreter computes it. It hands the
    operands to the [pow] of the platform's C library, which need not round
    correctly ([2.759 ** 2] is not the float nearest to the square of
    [2.759]), and raises when that reports a range error. It is taken as
    given, and nothing is assumed of it. *)
Variable float_pow : float -> float -> res float.

(** [x ** 2]: exact on an [int]; on a [float] the exponent becomes [2.0]. *)
Definition num_pow2 (x : num) : res num :=
  match x with
  | NInt z => Ok (NInt (z ^ 2))
  | NFloat f => (r <- float_pow f 2%float ;; Ok (NFloat r))%res
  end.

Definition discriminant_of (a b c : num) : res num :=
  (b2 <- num_pow2 b ;;
   a4 <- num_mul (NInt 4) a ;;
   ac4 <- num_mul a4 c ;;
   num_sub b2 ac4)%res.

Definition solve_num (a b c : num) : res pyval :=
  if num_eq0 a then
    if num_eq0 b then
      if num_eq0 c then
        raise_msg ValueError "Уравнение имеет бесконечно много решений"
      else Ok (VTuple [])
    else
      (x <- num_truediv (num_neg c) b ;;
       Ok (VTuple [VFloat x]))%res
  else
    (discriminant <- discriminant_of a b c ;;
     if num_lt0 discriminant then Ok (VTuple [])
     else if num_eq0 discriminant then
       (a2 <- num_mul (NInt 2) a ;;
        x <- num_truediv (num_neg b) a2 ;;
        Ok (VTuple [VFloat x]))
     else
       (sqrt_disc <- math_sqrt discriminant ;;
        n1 <- num_add (num_neg b) (NFloat sqrt_disc) ;;
        a2 <- num_mul (NInt 2) a ;;
        x1 <- num_truediv n1 a2 ;;
        n2 <- num_sub (num_neg b) (NFloat sqrt_disc) ;;
        a2' <- num_mul (NInt 2) a ;;
        x2 <- num_truediv n2 a2' ;;
        Ok (VTuple [VFloat x1; VFloat x2])))%res.

Definition solve_quadratic_func (a b c : pyval) : res pyval :=
  match as_num a, as_num b, as_num c with
  | Some a', Some b', Some c' => solve_num a' b' c'
  | _, _, _ => raise_msg TypeError "Коэффициенты должны быть числами"
  end.

End Solver.

(* ================================================================= *)
(** ** Text helpers *)

Definition newline : string := String (ascii_of_nat 10) EmptyString.

(** [sep.join(parts)] *)
Fixpoint join (sep : string) (parts : list string) : string :=
  match parts with
  | [] => ""
  | [p] => p
  | p :: rest => p +++ sep +++ join sep rest
  end.

Definition nonempty (s : string) : bool :=
  match s with
  | EmptyString => false
  | String _ _ => true
  end.

(** [needle in haystack] on [str]. *)
Fixpoint substringb (needle haystack : string) : bool :=
  String.prefix needle haystack ||
  match haystack with
  | EmptyString => false
  | String _ rest => substringb needle rest
  end.

(** [s] contains [sub] as a contiguous piece. *)
Definition contains (s sub : string) : Prop :=
  exists before after, s = before +++ sub +++ after.

(** An [int] in decimal, as [str(z)] prints it. *)
Definition Zdec (z : Z) : string := NilEmpty.string_of_int (Z.to_int z).

(** The UTF-8 code points of a [str]: a byte in [128, 192) continues the
    code point before it. *)
Definition is_continuation_byte (c : ascii) : bool :=
  let n := N_of_ascii c in (128 <=? n)%N && (n <? 192)%N.

Fixpoint code_points_from (cur : string) (s : string) : list string :=
  match s with
  | EmptyString => [cur]
  | String c rest =>
      if is_continuation_byte c
      then code_points_from (cur +++ String c EmptyString) rest
      else cur :: code_points_from (String c EmptyString) rest
  end.

Definition code_points (s : string) : list string :=
  match s with
  | EmptyString => []
  | String c rest => code_points_from (String c EmptyString) rest
  end.

(** [format(x, '.2f')] on a [float]: the exact binary value rounded to two
    decimals, ties to even. *)
Definition round_half_even_div (n d : Z) : Z :=
  let q := (n / d)%Z in
  let r := (n mod d)%Z in
  match (2 * r ?= d)%Z with
  | Lt => q
  | Gt => (q + 1)%Z
  | Eq => if Z.even q then q else (q + 1)%Z
  end.

Definition format_hundredths (negative : bool) (h : Z) : string :=
  (if negative then "-" else "") +++
  Zdec (h / 100) +++ "." +++ Zdec (h mod 100 / 10) +++ Zdec (h mod 10).

Definition format_float_2f (f : float) : string :=
  match Prim2SF f with
  | S754_nan => "nan"
  | S754_infinity s => if s then "-inf" else "inf"
  | S754_zero s => format_hundredths s 0
  | S754_finite s m e =>
      format_hundredths s
        match e with
        | Zneg p => round_half_even_div (Zpos m * 100) (2 ^ Zpos p)
        | _ => (Zpos m * 100 * 2 ^ e)%Z
        end
  end.

Definition type_name (v : pyval) : string :=
  match v with
  | VNone => "NoneType"
  | VBool _ => "bool"
  | VInt _ => "int"
  | VFloat _ => "float"
  | VStr _ => "str"
  | VTuple _ => "tuple"
  | VList _ => "list"
  | VDict _ => "dict"
  end.

(** [format(v, '.2f')]: an [int] is converted to [float] first. *)
Definition format_2f (v : pyval) : res string :=
  match v with
  | VFloat f => Ok (format_float_2f f)
  | VInt z => (f <- int_to_float z ;; Ok (format_float_2f f))%res
  | VBool b => (f <- int_to_float (Z.b2z b) ;; Ok (format_float_2f f))%res
  | VStr _ => raise_msg ValueError "Unknown format code 'f' for object of type 'str'"
  | _ => raise_msg TypeError
           ("unsupported format string passed to " +++ type_name v +++ ".__format__")
  end.

(* ================================================================= *)
(** ** Containers *)

Fixpoint dict_lookup (d : list (string * pyval)) (k : string) : option pyval :=
  match d with
  | [] => None
  | (k', v) :: rest => if String.eqb k' k then Some v else dict_lookup rest k
  end.

(** [d[k] = v]: a key already present keeps its place. *)
Fixpoint dict_set (d : list (string * pyval)) (k : string) (v : pyval)
    : list (string * pyval) :=
  match d with
  | [] => [(k, v)]
  | (k', v') :: rest =>
      if String.eqb k' k then (k', v) :: rest else (k', v') :: dict_set rest k v
  end.

Definition dict_keys (d : list (string * pyval)) : list string := map fst d.

Definition is_str (k : string) (v : pyval) : bool :=
  match v with
  | VStr s => String.eqb s k
  | _ => false
  end.

(** [key in container] for a [str] key. *)
Definition py_contains (container : pyval) (key : string) : res bool :=
  match container with
  | VDict kvs => Ok (match dict_lookup kvs key with Some _ => true | None => false end)
  | VList xs | VTuple xs => Ok (existsb (is_str key) xs)
  | VStr s => Ok (substringb key s)
  | _ => raise_msg TypeError
           ("argument of type '" +++ type_name container +++ "' is not iterable")
  end.

(** [container[key]] for a [str] key. *)
Definition py_getitem_str (container : pyval) (key : string) : res pyval :=
  match container with
  | VDict kvs =>
      match dict_lookup kvs key with
      | Some v => Ok v
      | None => Raise (Exn KeyError [VStr key])
      end
  | VList _ => raise_msg TypeError "list indices must be integers or slices, not str"
  | VTuple _ => raise_msg TypeError "tuple indices must be integers or slices, not str"
  | VStr _ => raise_msg TypeError "string indices must be integers, not 'str'"
  | _ => raise_msg TypeError ("'" +++ type_name container +++ "' object is not subscriptable")
  end.

(** [obj.get(key)]: only a [dict] has the method. *)
Definition py_get (obj : pyval) (key : string) : res pyval :=
  match obj with
  | VDict kvs =>
      match dict_lookup kvs key with
      | Some v => Ok v
      | None => Ok VNone
      end
  | _ => raise_msg AttributeError
           ("'" +++ type_name obj +++ "' object has no attribute 'get'")
  end.

(** [len(v)] *)
Definition py_len (v : pyval) : res nat :=
  match v with
  | VTuple xs | VList xs => Ok (List.length xs)
  | VDict kvs => Ok (List.length kvs)
  | VStr s => Ok (List.length (code_points s))
  | _ => raise_msg TypeError ("object of type '" +++ type_name v +++ "' has no len()")
  end.

(** [v[i]] for a literal index [i >= 0]. *)
Definition py_getitem_nat (v : pyval) (i : nat) : res pyval :=
  match v with
  | VTuple xs =>
      match nth_error xs i with
      | Some x => Ok x
      | None => raise_msg IndexError "tuple index out of range"
      end
  | VList xs =>
      match nth_error xs i with
      | Some x => Ok x
      | None => raise_msg IndexError "list index out of range"
      end
  | VStr s =>
      match nth_error (code_points s) i with
      | Some c => Ok (VStr c)
      | None => raise_msg IndexError "string index out of range"
      end
  | VDict _ => Raise (Exn KeyError [VInt (Z.of_nat i)])
  | _ => raise_msg TypeError ("'" +++ type_name v +++ "' object is not subscriptable")
  end.

Definition is_None (v : pyval) : bool :=
  match v with
  | VNone => true
  | _ => false
  end.

(** [result == ()] *)
Definition eq_empty_tuple (v : pyval) : bool :=
  match v with
  | VTuple [] => true
  | _ => false
  end.

(* ================================================================= *)
(** ** [get_currencies] *)

(** What [requests.get(url, timeout=5)], [raise_for_status()] and
    [response.json()] come to: the external HTTP service. *)
Inductive http_outcome : Type :=
| RequestFailed (cause : string)   (* a [RequestException] [e]; [cause] is [str(e)] *)
| BadJSON                          (* [response.json()] raised [JSONDecodeError] *)
| Payload (data : pyval).          (* the decoded body *)

Definition default_url : string := "https://www.cbr-xml-daily.ru/daily_json.js".

(** The [for code in currency_codes] loop, [result] being the dictionary
    built so far. *)
Fixpoint get_currencies_loop (valute_data : pyval) (currency_codes : list string)
    (result : list (string * pyval)) : res (list (string * pyval)) :=
  match currency_codes with
  | [] => Ok result
  | code :: rest =>
      (present <- py_contains valute_data code ;;
       if negb present then
         raise_msg KeyError ("Валюта '" +++ code +++ "' отсутствует в данных API")
       else
         (currency_info <- py_getitem_str valute_data code ;;
          value <- py_get currency_info "Value" ;;
          if is_None value || negb (isinstance_int_float value) then
            raise_msg TypeError
              ("Курс валюты '" +++ code +++ "' имеет неверный тип или отсутствует")
          else get_currencies_loop valute_data rest (dict_set result code value)))%res
  end.

Definition get_currencies (http : string -> http_outcome)
    (currency_codes : list string) (url : string) : res pyval :=
  match http url with
  | RequestFailed cause => raise_msg ConnectionError ("API недоступен: " +++ cause)
  | BadJSON => raise_msg ValueError "Ответ API содержит некорректный JSON"
  | Payload data =>
      (present <- py_contains data "Valute" ;;
       if negb present then
         raise_msg KeyError "В ответе API отсутствует ключ 'Valute'"
       else
         (valute_data <- py_getitem_str data "Valute" ;;
          result <- get_currencies_loop valute_data currency_codes [] ;;
          Ok (VDict result)))%res
  end.

(* ================================================================= *)
(** ** Log destinations *)

Inductive level : Type := INFO | WARNING | ERROR.

Definition level_name (lv : level) : string :=
  match lv with
  | INFO => "INFO"
  | WARNING => "WARNING"
  | ERROR => "ERROR"
  end.

(** The object passed as [handle], fixed when the decorator is applied: a
    text stream ([sys.stdout], [io.StringIO]) or a [logging.Logger]. *)
Inductive handle_obj : Type :=
| TextStream
| LoggingLogger.

Definition hasattr (handle : handle_obj) (name : string) : bool :=
  match handle with
  | TextStream => String.eqb name "write"
  | LoggingLogger =>
      String.eqb name "info" || String.eqb name "warning" || String.eqb name "error"
  end.

(** What the handle has received, call by call: a text written to a stream,
    or a message handed to the logger method of some level. *)
Inductive entry : Type :=
| Written (text : string)
| Record_ (lv : level) (msg : string).

Definition log := list entry.

(** State (what the handle holds) and exceptions. *)
Definition M (A : Type) : Type := log -> res A * log.

Definition ret {A : Type} (v : A) : M A := fun l => (Ok v, l).

Definition bind {A B : Type} (c : M A) (k : A -> M B) : M B :=
  fun l =>
    match c l with
    | (Ok v, l') => k v l'
    | (Raise e, l') => (Raise e, l')
    end.

Definition raise {A : Type} (e : exn) : M A := fun l => (Raise e, l).

Definition lift {A : Type} (r : res A) : M A := fun l => (r, l).

(** [try: body  except Exception as e: handler e] *)
Definition try_except_Exception {A : Type} (body : M A) (handler : exn -> M A) : M A :=
  fun l =>
    match body l with
    | (Ok v, l') => (Ok v, l')
    | (Raise e, l') =>
        if cls_is_Exception (exc_type e) then handler e l' else (Raise e, l')
    end.

Declare Scope M_scope.
Delimit Scope M_scope with M.
Notation "x <- c ;; k" := (bind c (fun x => k))
  (at level 61, c at next level, right associativity) : M_scope.
Notation "c ;;; k" := (bind c (fun _ => k))
  (at level 61, right associativity) : M_scope.

Definition no_attribute {A : Type} (name : string) : M A :=
  lift (raise_msg AttributeError ("object has no attribute '" +++ name +++ "'")).

(** [handle.write(text)] *)
Definition handle_write (handle : handle_obj) (text : string) : M unit :=
  match handle with
  | TextStream => fun l => (Ok tt, l ++ [Written text])
  | LoggingLogger => no_attribute "write"
  end.

(** [handle.info(msg)], [handle.warning(msg)], [handle.error(msg)] *)
Definition handle_method (lv : level) (name : string) (handle : handle_obj)
    (msg : string) : M unit :=
  match handle with
  | LoggingLogger => fun l => (Ok tt, l ++ [Record_ lv msg])
  | TextStream => no_attribute name
  end.

Definition handle_info : handle_obj -> string -> M unit := handle_method INFO "info".
Definition handle_warning : handle_obj -> string -> M unit := handle_method WARNING "warning".
Definition handle_error : handle_obj -> string -> M unit := handle_method ERROR "error".

(** Sink dispatch as the specification words it: a leveled sink gets the raw
    message through the operation of that severity; a stream gets one string,
    the level, a colon, the message and a newline. *)
Definition event_entry (handle : handle_obj) (lv : level) (msg : string) : entry :=
  match handle with
  | LoggingLogger => Record_ lv msg
  | TextStream => Written (level_name lv +++ ": " +++ msg +++ newline)
  end.

Definition emit (handle : handle_obj) (lv : level) (msg : string) (l : log) : log :=
  l ++ [event_entry handle lv msg].

(* ================================================================= *)
(** ** The decorators *)

(** A callable: its [__name__] and what calling it with positional and
    keyword arguments does (it may itself write to the handle). *)
Record pyfunc : Type := PyFunc {
  fname : string;
  fcall : list pyval -> list (string * pyval) -> M pyval
}.

(** A function that leaves the handle alone. *)
Definition pure_func (name : string)
    (f : list pyval -> list (string * pyval) -> res pyval) : pyfunc :=
  PyFunc name (fun args kwargs => lift (f args kwargs)).

(** What a decorator called with or without its function gives back. *)
Inductive decorated (F : Type) : Type :=
| Wrapped (w : F)
| Decorator (d : F -> F).
Arguments Wrapped {F} w.
Arguments Decorator {F} d.

Section Decorators.

(** The interpreter's [repr()] and [str()] on values and [str()] on an
    exception object. Each can raise: on an [int] of more digits than the
    interpreter converts, on a value nested deeper than its recursion limit
    allows. *)
Variable repr : pyval -> res string.
Variable str : pyval -> res string.
Variable str_exc : exn -> res string.

(** [f"{k}={v!r}"] *)
Definition render_kwarg (kv : string * pyval) : res string :=
  (r <- repr (snd kv) ;; Ok (fst kv +++ "=" +++ r))%res.

(** [all_args_str], from [args_str] and [kwargs_str]; [repr] is applied to
    the arguments in their order, and the first that raises ends it. *)
Definition render_args (args : list pyval) (kwargs : list (string * pyval))
    : res string :=
  (arg_reprs <- map_res repr args ;;
   let args_str := join ", " arg_reprs in
   kwarg_texts <- map_res render_kwarg kwargs ;;
   let kwargs_str := join ", " kwarg_texts in
   Ok (join ", " (filter nonempty [args_str; kwargs_str])))%res.

(** [logger.<locals>.inner]. The argument text is built before anything is
    emitted; [repr(result)] is evaluated inside the [try], once for
    [success_msg] and once more for a logger; [str(e)] is evaluated in the
    handler, once for [error_msg] and once more for a logger. *)
Definition logger_inner (func : pyfunc) (handle : handle_obj) (args : list pyval)
    (kwargs : list (string * pyval)) : M pyval :=
  (let is_logging_obj := hasattr handle "info" && hasattr handle "error" in
   all_args_str <- lift (render_args args kwargs) ;;
   let start_msg :=
     "INFO: Calling " +++ fname func +++ "(" +++ all_args_str +++ ")" +++ newline in
   (if is_logging_obj
    then handle_info handle ("Calling " +++ fname func +++ "(" +++ all_args_str +++ ")")
    else handle_write handle start_msg) ;;;
   try_except_Exception
     (result <- fcall func args kwargs ;;
      result_repr <- lift (repr result) ;;
      let success_msg :=
        "INFO: " +++ fname func +++ " returned " +++ result_repr +++ newline in
      (if is_logging_obj
       then (result_repr' <- lift (repr result) ;;
             handle_info handle (fname func +++ " returned " +++ result_repr'))
       else handle_write handle success_msg) ;;;
      ret result)
     (fun e =>
      e_str <- lift (str_exc e) ;;
      let error_msg :=
        "ERROR: " +++ fname func +++ " raised " +++ cls_name (exc_type e) +++ ": "
        +++ e_str +++ newline in
      (if is_logging_obj
       then (e_str' <- lift (str_exc e) ;;
             handle_error handle
               (fname func +++ " raised " +++ cls_name (exc_type e) +++ ": " +++ e_str'))
       else handle_write handle error_msg) ;;;
      raise e))%M.

(** [logger(func, handle=...)] gives the wrapped function, which keeps the
    name of [func] ([functools.wraps]); [logger(handle=...)] gives the
    decorator that does so. *)
Definition logger_wrap (func : pyfunc) (handle : handle_obj) : pyfunc :=
  PyFunc (fname func) (logger_inner func handle).

Definition logger (func : option pyfunc) (handle : handle_obj) : decorated pyfunc :=
  match func with
  | None => Decorator (fun f => logger_wrap f handle)
  | Some f => Wrapped (logger_wrap f handle)
  end.

(** The positional-only callable [solve_quadratic_logger] wraps. *)
Definition func3 : Type := pyval -> pyval -> pyval -> M pyval.

(** The formatted strings of [solve_quadratic_logger.<locals>.inner], each
    without the level and the newline a stream gets around it. The
    replacement fields are evaluated from left to right: [{a}] is [str(a)],
    [{result[0]:.2f}] is [format(result[0], '.2f')]. *)
Definition quadratic_calling_text (a b c : pyval) : res string :=
  (sa <- str a ;; sb <- str b ;; sc <- str c ;;
   Ok ("Calling solve_quadratic(a=" +++ sa +++ ", b=" +++ sb +++ ", c=" +++ sc +++ ")"))%res.

Definition no_solutions_text (a b c : pyval) : res string :=
  (sa <- str a ;; sb <- str b ;; sc <- str c ;;
   Ok ("solve_quadratic(" +++ sa +++ ", " +++ sb +++ ", " +++ sc
       +++ ") has no real solutions."))%res.

Definition one_solution_text (a b c result : pyval) : res string :=
  (sa <- str a ;; sb <- str b ;; sc <- str c ;;
   r0 <- py_getitem_nat result 0 ;;
   x <- format_2f r0 ;;
   Ok ("solve_quadratic(" +++ sa +++ ", " +++ sb +++ ", " +++ sc
       +++ ") has one solution: x = " +++ x))%res.

Definition two_solutions_text (a b c result : pyval) : res string :=
  (sa <- str a ;; sb <- str b ;; sc <- str c ;;
   r0 <- py_getitem_nat result 0 ;;
   x1 <- format_2f r0 ;;
   r1 <- py_getitem_nat result 1 ;;
   x2 <- format_2f r1 ;;
   Ok ("solve_quadratic(" +++ sa +++ ", " +++ sb +++ ", " +++ sc
       +++ ") has two solutions: x1 = " +++ x1 +++ ", x2 = " +++ x2))%res.

Definition quadratic_returned_text (result : pyval) : res string :=
  (sr <- str result ;; Ok ("solve_quadratic returned " +++ sr))%res.

Definition quadratic_raised_text (e : exn) : res string :=
  (e_str <- str_exc e ;;
   Ok ("solve_quadratic raised " +++ cls_name (exc_type e) +++ ": " +++ e_str))%res.

(** [solve_quadratic_logger.<locals>.inner]. Every message is formatted
    once for the stream and, for a logger, once more for the call of its
    method; the first is formatted before the [try]. *)
Definition solve_quadratic_logger_inner (func : func3) (handle : handle_obj)
    (a b c : pyval) : M pyval :=
  (let is_logging_obj := hasattr handle "info" && hasattr handle "error" in
   calling <- lift (quadratic_calling_text a b c) ;;
   let start_msg := "INFO: " +++ calling +++ newline in
   (if is_logging_obj
    then (calling' <- lift (quadratic_calling_text a b c) ;; handle_info handle calling')
    else handle_write handle start_msg) ;;;
   try_except_Exception
     (result <- func a b c ;;
      (if eq_empty_tuple result then
         text <- lift (no_solutions_text a b c) ;;
         let msg := "WARNING: " +++ text +++ newline in
         if is_logging_obj
         then (text' <- lift (no_solutions_text a b c) ;; handle_warning handle text')
         else handle_write handle msg
       else
         n <- lift (py_len result) ;;
         if Nat.eqb n 1 then
           text <- lift (one_solution_text a b c result) ;;
           let msg := "INFO: " +++ text +++ newline in
           if is_logging_obj
           then (text' <- lift (one_solution_text a b c result) ;;
                 handle_info handle text')
           else handle_write handle msg
         else
           text <- lift (two_solutions_text a b c result) ;;
           let msg := "INFO: " +++ text +++ newline in
           if is_logging_obj
           then (text' <- lift (two_solutions_text a b c result) ;;
                 handle_info handle text')
           else handle_write handle msg) ;;;
      returned <- lift (quadratic_returned_text result) ;;
      let success_msg := "INFO: " +++ returned +++ newline in
      (if is_logging_obj
       then (returned' <- lift (quadratic_returned_text result) ;;
             handle_info handle returned')
       else handle_write handle success_msg) ;;;
      ret result)
     (fun e =>
      raised <- lift (quadratic_raised_text e) ;;
      let error_msg := "ERROR: " +++ raised +++ newline in
      (if is_logging_obj
       then (raised' <- lift (quadratic_raised_text e) ;; handle_error handle raised')
       else handle_write handle error_msg) ;;;
      raise e))%M.

Definition solve_quadratic_logger (func : option func3) (handle : handle_obj)
    : decorated func3 :=
  match func with
  | None => Decorator (fun f => solve_quadratic_logger_inner f handle)
  | Some f => Wrapped (solve_quadratic_logger_inner f handle)
  end.

(** [solve_quadratic] as the module binds it: the function above under a
    bare [@solve_quadratic_logger], so the handle is [sys.stdout]. *)
Definition solve_quadratic (float_pow : float -> float -> res float) : func3 :=
  solve_quadratic_logger_inner
    (fun a b c => lift (solve_quadratic_func float_pow a b c)) TextStream.

End Decorators.

(* ================================================================= *)
(** ** The interpreter's display functions

    [repr()], [str()] and [str()] of an exception, for the values of the
    model. The theorems hold for any such functions; these are the ones the
    examples run with. Non-ASCII characters of a [str] are taken to be
    printable. *)

Definition scale2 (e : Z) : Z := (2 ^ Z.max e 0)%Z.
Definition scale10 (p : Z) : Z := (10 ^ Z.max p 0)%Z.

(** [m * 2^e] compared with [d * 10^p], exactly. *)
Definition cmp_bin_dec (m e d p : Z) : comparison :=
  (m * scale2 e * scale10 (- p) ?= d * scale10 p * scale2 (- e))%Z.

(** The largest [k] with [10^k <= m * 2^e], searched upwards from an
    estimate below it. *)
Fixpoint log10_up (fuel : nat) (m e k : Z) : Z :=
  match fuel with
  | O => k
  | S fuel' =>
      match cmp_bin_dec m e 1 (k + 1) with
      | Lt => k
      | _ => log10_up fuel' m e (k + 1)
      end
  end.

Definition log10_floor (m e : Z) : Z :=
  log10_up 4 m e ((Z.log2 m + e) * 30103 / 100000 - 1)%Z.

(** [floor (m * 2^e / 10^p)] *)
Definition floor_dec (m e p : Z) : Z :=
  ((m * scale2 e * scale10 (- p)) / (scale10 p * scale2 (- e)))%Z.

(** Whether the decimal [d * 10^p] reads back as the float [m * 2^e]: it
    lies between the midpoints to the neighbouring floats, the midpoints
    included when [m] is even. *)
Definition reads_back (m e d p : Z) : bool :=
  let below := if (m =? 2 ^ 52)%Z && (-1074 <? e)%Z then 1%Z else 2%Z in
  let lo := cmp_bin_dec (4 * m - below) (e - 2) d p in
  let hi := cmp_bin_dec (4 * m + 2) (e - 2) d p in
  match lo, hi with
  | Lt, Gt => true
  | Eq, Gt | Lt, Eq => Z.even m
  | _, _ => false
  end.

(** The shortest decimal that reads back, the nearest one of that length:
    its digits and the exponent of its last digit. *)
Fixpoint shortest_from (fuel : nat) (m e k n : Z) : Z * Z :=
  let p := (k - n + 1)%Z in
  let d := floor_dec m e p in
  match fuel with
  | O => (d, p)
  | S fuel' =>
      let lo_ok := reads_back m e d p in
      let hi_ok := reads_back m e (d + 1) p in
      if lo_ok && hi_ok then
        match cmp_bin_dec (2 * m) e (2 * d + 1) p with
        | Lt => (d, p)
        | Gt => ((d + 1)%Z, p)
        | Eq => if Z.even d then (d, p) else ((d + 1)%Z, p)
        end
      else if lo_ok then (d, p)
      else if hi_ok then ((d + 1)%Z, p)
      else shortest_from fuel' m e k (n + 1)%Z
  end.

Fixpoint strip_zeros (fuel : nat) (d p : Z) : Z * Z :=
  match fuel with
  | O => (d, p)
  | S fuel' =>
      if (d mod 10 =? 0)%Z && negb (d =? 0)%Z
      then strip_zeros fuel' (d / 10)%Z (p + 1)%Z
      else (d, p)
  end.

Fixpoint zeros (n : nat) : string :=
  match n with
  | O => ""
  | S n' => "0" +++ zeros n'
  end.

Definition repr_finite (m e : Z) : string :=
  let k := log10_floor m e in
  let '(d0, p0) := shortest_from 17 m e k 1 in
  let '(d, p) := strip_zeros 20 d0 p0 in
  let digits := Zdec d in
  let nd := Z.of_nat (String.length digits) in
  let decpt := (nd + p)%Z in
  if (decpt <=? -4)%Z || (16 <? decpt)%Z then
    let ex := (decpt - 1)%Z in
    let mant :=
      match digits with
      | String c (String c' rest) => String c ("." +++ String c' rest)
      | _ => digits
      end in
    mant +++ "e" +++ (if (ex <? 0)%Z then "-" else "+") +++
    (if (Z.abs ex <? 10)%Z then "0" else "") +++ Zdec (Z.abs ex)
  else if (decpt <=? 0)%Z then "0." +++ zeros (Z.to_nat (- decpt)) +++ digits
  else if (nd <=? decpt)%Z then digits +++ zeros (Z.to_nat (decpt - nd)) +++ ".0"
  else substring 0 (Z.to_nat decpt) digits +++ "." +++
       substring (Z.to_nat decpt) (Z.to_nat (nd - decpt)) digits.

Definition repr_float (f : float) : string :=
  match Prim2SF f with
  | S754_nan => "nan"
  | S754_infinity s => if s then "-inf" else "inf"
  | S754_zero s => if s then "-0.0" else "0.0"
  | S754_finite s m e => (if s then "-" else "") +++ repr_finite (Zpos m) e
  end.

Definition char (n : nat) : string := String (ascii_of_nat n) EmptyString.
Definition double_quote : string := char 34.
Definition single_quote : string := char 39.
Definition backslash : string := char 92.

Definition hex_digit (n : N) : string :=
  match n with
  | 10%N => "a" | 11%N => "b" | 12%N => "c" | 13%N => "d" | 14%N => "e" | 15%N => "f"
  | _ => Zdec (Z.of_N n)
  end.

Fixpoint repr_chars (quote : ascii) (s : string) : string :=
  match s with
  | EmptyString => ""
  | String c rest =>
      let n := N_of_ascii c in
      (if Ascii.eqb c quote || (n =? 92)%N then backslash +++ String c ""
       else if (n =? 10)%N then backslash +++ "n"
       else if (n =? 13)%N then backslash +++ "r"
       else if (n =? 9)%N then backslash +++ "t"
       else if (n <? 32)%N || (n =? 127)%N
            then backslash +++ "x" +++ hex_digit (n / 16) +++ hex_digit (n mod 16)
       else String c "")
      +++ repr_chars quote rest
  end.

Definition repr_str (s : string) : string :=
  let q := if substringb single_quote s && negb (substringb double_quote s)
           then double_quote else single_quote in
  match q with
  | String qc _ => q +++ repr_chars qc s +++ q
  | EmptyString => s
  end.

(** An [int] in decimal; the interpreter refuses more than 4300 digits. As
    in the interpreter, an [int] so long that it must have more (here, one
    of [2**14400] or more in absolute value, and [2**14400 > 10**4300]) is
    refused before its digits are produced; otherwise they are counted. *)
Definition int_str (z : Z) : res string :=
  if (14400 <=? Z.log2 (Z.abs z))%Z
     || (4300 <? Z.of_nat (String.length (Zdec (Z.abs z))))%Z
  then raise_msg ValueError
         ("Exceeds the limit (4300 digits) for integer string conversion; "
          +++ "use sys.set_int_max_str_digits() to increase the limit")
  else Ok (Zdec z).

(** [repr(v)], [depth] being how deep a value may still nest before the
    interpreter's recursion limit is met. *)
Fixpoint py_repr (depth : nat) (v : pyval) {struct v} : res string :=
  match depth with
  | O => raise_msg RecursionError
           "maximum recursion depth exceeded while getting the repr of an object"
  | S depth' =>
      match v with
      | VNone => Ok "None"
      | VBool b => Ok (if b then "True" else "False")
      | VInt z => int_str z
      | VFloat f => Ok (repr_float f)
      | VStr s => Ok (repr_str s)
      | VTuple xs =>
          (parts <- map_res (py_repr depth') xs ;;
           match parts with
           | [x] => Ok ("(" +++ x +++ ",)")
           | _ => Ok ("(" +++ join ", " parts +++ ")")
           end)%res
      | VList xs =>
          (parts <- map_res (py_repr depth') xs ;;
           Ok ("[" +++ join ", " parts +++ "]"))%res
      | VDict kvs =>
          (parts <- map_res (fun kv => (x <- py_repr depth' (snd kv) ;;
                                        Ok (repr_str (fst kv) +++ ": " +++ x))%res) kvs ;;
           Ok ("{" +++ join ", " parts +++ "}"))%res
      end
  end.

(** [str(v)]: a [str] is itself, anything else its [repr]. *)
Definition py_str (depth : nat) (v : pyval) : res string :=
  match v with
  | VStr s => Ok s
  | _ => py_repr depth v
  end.

(** The classes whose [str()] is that of [OSError]. *)
Definition OSError_family : list string :=
  ["OSError"; "BlockingIOError"; "ChildProcessError"; "ConnectionError";
   "BrokenPipeError"; "ConnectionAbortedError"; "ConnectionRefusedError";
   "ConnectionResetError"; "FileExistsError"; "FileNotFoundError";
   "InterruptedError"; "IsADirectoryError"; "NotADirectoryError";
   "PermissionError"; "ProcessLookupError"; "TimeoutError"].

(** [str(e)] of an exception with the [str()] of [BaseException]: nothing
    for no argument, the argument for one, the tuple of them otherwise. *)
Definition base_exception_str (depth : nat) (args : list pyval) : res string :=
  match args with
  | [] => Ok ""
  | [x] => py_str depth x
  | xs => py_repr depth (VTuple xs)
  end.

(** A file name argument of an [OSError]: [None] is none, and a number
    given to a [BlockingIOError] is a count, not a name. *)
Definition file_name (blocking : bool) (v : pyval) : option pyval :=
  match v with
  | VNone => None
  | VBool _ | VInt _ | VFloat _ => if blocking then None else Some v
  | _ => Some v
  end.

Definition os_error_text (depth : nat) (errno strerror : pyval)
    (filename filename2 : option pyval) : res string :=
  (e <- py_str depth errno ;;
   s <- py_str depth strerror ;;
   match filename, filename2 with
   | None, _ => Ok ("[Errno " +++ e +++ "] " +++ s)
   | Some f, None =>
       (fr <- py_repr depth f ;; Ok ("[Errno " +++ e +++ "] " +++ s +++ ": " +++ fr))
   | Some f, Some g =>
       (fr <- py_repr depth f ;;
        gr <- py_repr depth g ;;
        Ok ("[Errno " +++ e +++ "] " +++ s +++ ": " +++ fr +++ " -> " +++ gr))
   end)%res.

(** [str(e)] of an [OSError]: made of two to five arguments it shows the
    error number and its text, then the file names (the fourth argument is
    not read on POSIX); otherwise it is the [str()] of [BaseException]. *)
Definition os_error_str (depth : nat) (blocking : bool) (args : list pyval)
    : res string :=
  match args with
  | [errno; strerror] => os_error_text depth errno strerror None None
  | [errno; strerror; filename] | [errno; strerror; filename; _] =>
      os_error_text depth errno strerror (file_name blocking filename) None
  | [errno; strerror; filename; _; filename2] =>
      os_error_text depth errno strerror (file_name blocking filename)
        (file_name false filename2)
  | _ => base_exception_str depth args
  end.

(** [str(e)] for the built-in classes this file names: a [KeyError] of one
    argument shows its [repr], the [OSError] family its error number and
    text, the others the [str()] of [BaseException]. *)
Definition py_str_exc (depth : nat) (e : exn) : res string :=
  let name := cls_name (exc_type e) in
  if String.eqb name "KeyError" then
    match exc_args e with
    | [x] => py_repr depth x
    | args => base_exception_str depth args
    end
  else if existsb (String.eqb name) OSError_family
       then os_error_str depth (String.eqb name "BlockingIOError") (exc_args e)
  else base_exception_str depth (exc_args e).

(** What is left of the recursion limit in the examples below. *)
Definition room : nat := 100.

(* ================================================================= *)
(** ** Names for what the properties speak of *)

(** The two functions of the module's test class. *)
Definition test_func : pyfunc :=
  pure_func "test_func"
    (fun args _ =>
       match args with
       | [VInt x] => Ok (VInt (x * 2))
       | _ => raise_msg TypeError "test_func() takes one int here"
       end).

Definition test_func_error : pyfunc :=
  pure_func "test_func_error" (fun _ _ => raise_msg ValueError "Test error").

(** What one turn of the loop of [get_currencies] does with [code]: the rate
    it stores, or the exception it raises. *)
Definition check_code (valute_data : pyval) (code : string) : res pyval :=
  (present <- py_contains valute_data code ;;
   if negb present then
     raise_msg KeyError ("Валюта '" +++ code +++ "' отсутствует в данных API")
   else
     (currency_info <- py_getitem_str valute_data code ;;
      value <- py_get currency_info "Value" ;;
      if is_None value || negb (isinstance_int_float value) then
        raise_msg TypeError
          ("Курс валюты '" +++ code +++ "' имеет неверный тип или отсутствует")
      else Ok value))%res.

(** The keys of a dictionary filled in the order of [codes]: each code at its
    first occurrence. *)
Definition add_key (keys : list string) (k : string) : list string :=
  if existsb (String.eqb k) keys then keys else keys ++ [k].

Definition first_occurrences (codes : list string) : list string :=
  fold_left add_key codes [].

(** The roots branch of [solve_num], step by step. *)
Definition two_roots (a b : num) (discriminant : num) : res pyval :=
  (sqrt_disc <- math_sqrt discriminant ;;
   n1 <- num_add (num_neg b) (NFloat sqrt_disc) ;;
   a2 <- num_mul (NInt 2) a ;;
   x1 <- num_truediv n1 a2 ;;
   n2 <- num_sub (num_neg b) (NFloat sqrt_disc) ;;
   a2' <- num_mul (NInt 2) a ;;
   x2 <- num_truediv n2 a2' ;;
   Ok (VTuple [VFloat x1; VFloat x2]))%res.

(** The three failures of the rate fetch the specification names
    [MissingField], [UnknownCurrency(code)] and [InvalidValue(code)]. *)
Definition missing_valute_error : exn :=
  Exn KeyError [VStr "В ответе API отсутствует ключ 'Valute'"].

Definition unknown_currency_error (code : string) : exn :=
  Exn KeyError [VStr ("Валюта '" +++ code +++ "' отсутствует в данных API")].

Definition invalid_value_error (code : string) : exn :=
  Exn TypeError [VStr ("Курс валюты '" +++ code +++ "' имеет неверный тип или отсутствует")].

(** The closed examples take [int] coefficients, on which the solver never
    takes the power of a [float]: they are run with a power that answers
    nothing. *)
Definition no_float_pow (x y : float) : res float :=
  Raise (Exn (ExcClass "NotImplementedError" true) []).

(** The messages, as the specification names them, from the name of the
    function and the texts [repr] and [str] gave. *)
Definition calling_msg (name all_args_str : string) : string :=
  "Calling " +++ name +++ "(" +++ all_args_str +++ ")".

Definition returned_msg (name result_repr : string) : string :=
  name +++ " returned " +++ result_repr.

Definition raised_msg (name : string) (e : exn) (e_str : string) : string :=
  name +++ " raised " +++ cls_name (exc_type e) +++ ": " +++ e_str.

Section Reporting.

Variable str_exc : exn -> res string.

(** What the [except Exception] clause of either decorator comes to for an
    exception [e] met inside the [try], [l] being what the handle then
    holds: an [Exception] whose [str()] can be had is reported and raised
    again; when its [str()] raises, that exception leaves instead and
    nothing is reported; what is no [Exception] is not caught. *)
Definition reported (name : string) (handle : handle_obj) (e : exn) (l : log)
    : res pyval * log :=
  if cls_is_Exception (exc_type e) then
    match str_exc e with
    | Ok e_str => (Raise e, emit handle ERROR (raised_msg name e e_str) l)
    | Raise e' => (Raise e', l)
    end
  else (Raise e, l).

End Reporting.

Section QuadraticMessages.

Variable str : pyval -> res string.

(** The outcome classification: the level and the message of the extra
    event, by the length of the result. *)
Definition classification (a b c result : pyval) : res (level * string) :=
  if eq_empty_tuple result then
    (text <- no_solutions_text str a b c ;; Ok (WARNING, text))%res
  else
    (n <- py_len result ;;
     if Nat.eqb n 1 then
       (text <- one_solution_text str a b c result ;; Ok (INFO, text))
     else
       (text <- two_solutions_text str a b c result ;; Ok (INFO, text)))%res.

End QuadraticMessages.

(** The digit [d] as a character. *)
Definition digit_char (d : Z) : ascii := ascii_of_nat (48 + Z.to_nat d).

(** A number [h] of hundredths written with two decimals: the whole part,
    a point, the digit of the tenths and the digit of the hundredths. *)
Definition two_decimals (negative : bool) (h : Z) : string :=
  (if negative then "-" else "") +++ Zdec (h / 100) +++ "."
  +++ String (digit_char (h mod 100 / 10)) (String (digit_char (h mod 10)) "").

(* ================================================================= *)
(** ** Floats on an integer scale

    What the order of the two roots is stated and proved with. *)

Section FloatOrderDefinitions.
Local Open Scope Z_scope.

(** The rational [P / Q] has floor [m], and [l] tells where it lies between
    [m] and [m + 1]. *)
Definition located (P Q m : Z) (l : location) : Prop :=
  match l with
  | loc_Exact => P = m * Q
  | loc_Inexact Lt => m * Q < P /\ 2 * P < (2 * m + 1) * Q
  | loc_Inexact Eq => 2 * P = (2 * m + 1) * Q
  | loc_Inexact Gt => (2 * m + 1) * Q < 2 * P /\ P < (m + 1) * Q
  end.

Definition INF : Z := 2 ^ 2098.

(** A float on an integer scale that keeps the order: the value in units of
    [2^-1074], the infinities beyond every finite value. *)
Definition SFord (x : spec_float) : Z :=
  match x with
  | S754_zero _ => 0
  | S754_nan => 0
  | S754_infinity s => cond_Zopp s INF
  | S754_finite s m e => cond_Zopp s (Zpos m * 2 ^ (e + 1074))
  end.

Definition SFsign_is (s : bool) (x : spec_float) : Prop :=
  match x with
  | S754_zero s' | S754_infinity s' | S754_finite s' _ _ => s' = s
  | S754_nan => False
  end.

(** The value, in units of [2^-1074], of [P/Q * 2^e] rounded to the format,
    the range set aside. *)
Definition round_scaled (P Q e : Z) : Z :=
  let c := fexp prec emax (Zdigits2 (P / Q) + e) in
  round_half_even_div P (Q * 2 ^ (c - e)) * 2 ^ (c + 1074).

(** A float that is zero or positive. *)
Definition SFnonneg (y : spec_float) : Prop :=
  match y with
  | S754_zero _ => True
  | S754_infinity s | S754_finite s _ _ => s = false
  | S754_nan => False
  end.

(** A float that is positive. *)
Definition SFpositive (d : spec_float) : Prop :=
  match d with
  | S754_infinity s | S754_finite s _ _ => s = false
  | _ => False
  end.

End FloatOrderDefinitions.

(** A payload with one currency. *)
Definition usd_only : list (string * pyval) :=
  [("Valute", VDict [("USD", VDict [("Value", VFloat 90.5)])])].

(** A payload with two currencies. *)
Definition usd_and_eur : list (string * pyval) :=
  [("Valute", VDict [("USD", VDict [("Value", VFloat 90.5)]);
                     ("EUR", VDict [("Value", VFloat 98.25)])])].

(** ** What the further properties speak of *)




(* ================================================================= *)
(** * Properties *)

(** ** Text *)

Lemma append_assoc_r (a b c : string) : (a +++ b) +++ c = a +++ (b +++ c).
Proof. induction a as [| x a IH]; simpl; [reflexivity | now rewrite IH]. Qed.

Lemma append_empty_r (a : string) : a +++ "" = a.
Proof. induction a as [| x a IH]; simpl; [reflexivity | now rewrite IH]. Qed.

(** Brings both sides of an equation between concatenations to the same
    right-nested shape. *)
Ltac str_norm := repeat (rewrite !append_assoc_r || simpl String.append).

Lemma contains_intro (before sub after : string) :
  contains (before +++ sub +++ after) sub.
Proof. exists before, after. reflexivity. Qed.

(** ** The format [.2f] *)

Lemma Zdec_digit (d : Z) :
  (0 <= d <= 9)%Z -> Zdec d = String (digit_char d) "".
Proof.
  intros H.
  assert (E : (d = 0 \/ d = 1 \/ d = 2 \/ d = 3 \/ d = 4 \/ d = 5 \/ d = 6 \/ d = 7
               \/ d = 8 \/ d = 9)%Z) by lia.
  repeat (destruct E as [-> | E]; [reflexivity |]). subst d. reflexivity.
Qed.

Lemma format_hundredths_two_decimals (negative : bool) (h : Z) :
  format_hundredths negative h = two_decimals negative h.
Proof.
  unfold format_hundredths, two_decimals.
  rewrite (Zdec_digit (h mod 100 / 10)), (Zdec_digit (h mod 10)).
  - reflexivity.
  - pose proof (Z.mod_pos_bound h 10). lia.
  - pose proof (Z.mod_pos_bound h 100 ltac:(lia)) as Hm.
    split; [apply Z.div_pos; lia |].
    assert (h mod 100 / 10 < 10)%Z by (apply Z.div_lt_upper_bound; lia). lia.
Qed.

(** Rounding to the nearest integer: the result is within a half. *)
Lemma round_half_even_div_nearest (P Q : Z) :
  (0 < Q)%Z ->
  (Z.abs (2 * P - 2 * round_half_even_div P Q * Q) <= Q)%Z.
Proof.
  intros HQ. unfold round_half_even_div.
  pose proof (Z.div_mod P Q ltac:(lia)) as Hdm.
  pose proof (Z.mod_pos_bound P Q HQ) as Hr.
  destruct (Z.compare_spec (2 * (P mod Q)) Q) as [E | L | G];
    [destruct (Z.even (P / Q)) | |]; nia.
Qed.

(** A finite float under [.2f] is shown with exactly two decimals, as the
    number of hundredths nearest to its exact value; a zero is [0.00] with
    its sign. *)
Lemma format_float_2f_two_decimals (x : float) :
  (forall s m e, Prim2SF x = S754_finite s m e ->
     exists h,
       format_float_2f x = two_decimals s h
       /\ (0 <= h)%Z
       /\ (Z.abs (2 * (100 * Zpos m * 2 ^ Z.max e 0) - 2 * h * 2 ^ Z.max (- e) 0)
           <= 2 ^ Z.max (- e) 0)%Z)
  /\ (forall s, Prim2SF x = S754_zero s -> format_float_2f x = two_decimals s 0).
Proof.
  unfold format_float_2f. split.
  - intros s m e ->. rewrite format_hundredths_two_decimals.
    destruct e as [| p | p].
    + exists (Zpos m * 100 * 2 ^ 0)%Z. split; [reflexivity |]. cbn [Z.max Z.opp]. lia.
    + exists (Zpos m * 100 * 2 ^ Zpos p)%Z. split; [reflexivity |].
      assert (0 < 2 ^ Zpos p)%Z by (apply Z.pow_pos_nonneg; lia).
      replace (Z.max (Zpos p) 0) with (Zpos p) by lia.
      replace (Z.max (- Zpos p) 0) with 0%Z by lia.
      change (2 ^ 0)%Z with 1%Z. split; [nia |].
      replace (2 * (100 * Zpos m * 2 ^ Zpos p) - 2 * (Zpos m * 100 * 2 ^ Zpos p) * 1)%Z
        with 0%Z by ring. cbn. lia.
    + exists (round_half_even_div (Zpos m * 100) (2 ^ Zpos p)). split; [reflexivity |].
      assert (HQ : (0 < 2 ^ Zpos p)%Z) by (apply Z.pow_pos_nonneg; lia).
      replace (Z.max (Zneg p) 0) with 0%Z by lia.
      replace (Z.max (- Zneg p) 0) with (Zpos p) by lia.
      change (2 ^ 0)%Z with 1%Z. split.
      * pose proof (round_half_even_div_nearest (Zpos m * 100) (2 ^ Zpos p) HQ). nia.
      * pose proof (round_half_even_div_nearest (Zpos m * 100) (2 ^ Zpos p) HQ) as H.
        replace (2 * (100 * Zpos m * 1))%Z with (2 * (Zpos m * 100))%Z by ring. exact H.
  - intros s ->. apply format_hundredths_two_decimals.
Qed.

(** ** The generic decorator *)

Section LoggerFacts.

Variable repr : pyval -> res string.
Variable str_exc : exn -> res string.

(** [inner], step by step: the argument text, the call-start event, the
    call, the [repr] of the result and the returned event, or the handler.
    The inlined [if is_logging_obj ... else ...] is the sink dispatch
    [emit]. *)
Lemma logger_inner_emit (func : pyfunc) (handle : handle_obj) (args : list pyval)
    (kwargs : list (string * pyval)) (l : log) :
  logger_inner repr str_exc func handle args kwargs l =
  match render_args repr args kwargs with
  | Raise e => (Raise e, l)
  | Ok all_args_str =>
      match fcall func args kwargs
              (emit handle INFO (calling_msg (fname func) all_args_str) l) with
      | (Ok v, l') =>
          match repr v with
          | Ok r => (Ok v, emit handle INFO (returned_msg (fname func) r) l')
          | Raise e => reported str_exc (fname func) handle e l'
          end
      | (Raise e, l') => reported str_exc (fname func) handle e l'
      end
  end.
Proof.
  unfold logger_inner, reported, calling_msg, returned_msg, raised_msg, emit, event_entry,
    bind, try_except_Exception, ret, raise, lift.
  destruct (render_args repr args kwargs) as [text | e0]; [| reflexivity].
  destruct handle; cbn [hasattr String.eqb Ascii.eqb Bool.eqb andb orb level_name
    handle_info handle_error handle_write handle_method]; str_norm.
  - destruct (fcall func args kwargs _) as [[v | e] l'].
    + destruct (repr v) as [r | e1]; str_norm; [reflexivity |].
      destruct (cls_is_Exception (exc_type e1)); [| reflexivity].
      destruct (str_exc e1); str_norm; reflexivity.
    + destruct (cls_is_Exception (exc_type e)); [| reflexivity].
      destruct (str_exc e); str_norm; reflexivity.
  - destruct (fcall func args kwargs _) as [[v | e] l'].
    + destruct (repr v) as [r | e1]; [reflexivity |].
      destruct (cls_is_Exception (exc_type e1)); [| reflexivity].
      destruct (str_exc e1); reflexivity.
    + destruct (cls_is_Exception (exc_type e)); [| reflexivity].
      destruct (str_exc e); reflexivity.
Qed.

(** The handler always raises. *)
Lemma reported_raises (name : string) (handle : handle_obj) (e : exn) (l : log) :
  exists e' l', reported str_exc name handle e l = (Raise e', l').
Proof.
  unfold reported. destruct (cls_is_Exception (exc_type e)); [| now eexists _, _].
  destruct (str_exc e); now eexists _, _.
Qed.

End LoggerFacts.

Section LoggerProperties.

Variable repr : pyval -> res string.
Variable str_exc : exn -> res string.

Lemma logger_with_func (func : pyfunc) (handle : handle_obj) :
  logger repr str_exc (Some func) handle = Wrapped (logger_wrap repr str_exc func handle).
Proof. reflexivity. Qed.

Lemma logger_without_func (handle : handle_obj) :
  logger repr str_exc None handle
  = Decorator (fun f => logger_wrap repr str_exc f handle).
Proof. reflexivity. Qed.

Lemma logger_wrap_name (func : pyfunc) (handle : handle_obj) :
  fname (logger_wrap repr str_exc func handle) = fname func.
Proof. reflexivity. Qed.

(** C1, as the code has it. When the [repr] of every argument can be had
    and the wrapped function returns [v] (run, as the decorator runs it,
    after the call-start event), the decorated function returns the same [v]
    provided the [repr] of [v] can be had, and all it adds is the returned
    event. When [repr(v)] raises, the decorated function raises although the
    function returned: the exception of [repr] is handled as one of the
    function is, reported by an error event when it is an [Exception] whose
    [str()] can be had. And when the [repr] of an argument raises, the
    decorated function raises that exception, the function is not called
    and nothing is emitted. *)
Theorem logger_returns_the_value (func : pyfunc) (handle : handle_obj)
    (args : list pyval) (kwargs : list (string * pyval)) (l : log) :
  (forall all_args_str l' v,
      render_args repr args kwargs = Ok all_args_str ->
      fcall func args kwargs
        (l ++ [event_entry handle INFO
                 ("Calling " +++ fname func +++ "(" +++ all_args_str +++ ")")])
        = (Ok v, l') ->
      (forall r, repr v = Ok r ->
         fcall (logger_wrap repr str_exc func handle) args kwargs l
         = (Ok v, l' ++ [event_entry handle INFO (fname func +++ " returned " +++ r)]))
      /\ (forall e, repr v = Raise e ->
            fcall (logger_wrap repr str_exc func handle) args kwargs l
            = reported str_exc (fname func) handle e l'
            /\ (exists e', fst (fcall (logger_wrap repr str_exc func handle) args kwargs l)
                           = Raise e')
            /\ (cls_is_Exception (exc_type e) = true ->
                forall e_str, str_exc e = Ok e_str ->
                fcall (logger_wrap repr str_exc func handle) args kwargs l
                = (Raise e,
                   l' ++ [event_entry handle ERROR
                            (fname func +++ " raised " +++ cls_name (exc_type e) +++ ": "
                             +++ e_str)]))))
  /\ (forall e, render_args repr args kwargs = Raise e ->
        fcall (logger_wrap repr str_exc func handle) args kwargs l = (Raise e, l)).
Proof.
  cbn [logger_wrap fcall]. rewrite logger_inner_emit.
  unfold calling_msg, returned_msg, emit. split.
  - intros text l' v Htext Hcall. rewrite Htext, Hcall. split.
    + intros r Hr. now rewrite Hr.
    + intros e He. rewrite He. split; [reflexivity | split].
      * destruct (reported_raises str_exc (fname func) handle e l') as (e' & l'' & ->).
        now exists e'.
      * intros Hexc s Hs. unfold reported. now rewrite Hexc, Hs.
  - intros e He. now rewrite He.
Qed.

(** C2, as the code has it. When the [repr] of every argument can be had
    and the wrapped function raises an error [e] (an instance of
    [Exception]) and writes nothing itself, the decorated function raises
    the same [e], class and arguments, provided [str(e)] can be had, and the
    handle has received exactly two events, the call-start event and then
    the error event. When [str(e)] raises, that exception is raised instead
    and the handle has received the call-start event only; and when the
    [repr] of an argument raises, that exception is raised, the function is
    not called and the handle has received nothing. *)
Theorem logger_reraises_the_error (func : pyfunc) (handle : handle_obj)
    (args : list pyval) (kwargs : list (string * pyval)) (l : log) :
  (forall all_args_str e,
      render_args repr args kwargs = Ok all_args_str ->
      fcall func args kwargs
        (l ++ [event_entry handle INFO
                 ("Calling " +++ fname func +++ "(" +++ all_args_str +++ ")")])
        = (Raise e,
           l ++ [event_entry handle INFO
                   ("Calling " +++ fname func +++ "(" +++ all_args_str +++ ")")]) ->
      cls_is_Exception (exc_type e) = true ->
      (forall e_str, str_exc e = Ok e_str ->
         fcall (logger_wrap repr str_exc func handle) args kwargs l
         = (Raise e,
            l ++ [event_entry handle INFO
                    ("Calling " +++ fname func +++ "(" +++ all_args_str +++ ")");
                  event_entry handle ERROR
                    (fname func +++ " raised " +++ cls_name (exc_type e) +++ ": "
                     +++ e_str)]))
      /\ (forall e', str_exc e = Raise e' ->
            fcall (logger_wrap repr str_exc func handle) args kwargs l
            = (Raise e',
               l ++ [event_entry handle INFO
                       ("Calling " +++ fname func +++ "(" +++ all_args_str +++ ")")])))
  /\ (forall e, render_args repr args kwargs = Raise e ->
        fcall (logger_wrap repr str_exc func handle) args kwargs l = (Raise e, l)).
Proof.
  cbn [logger_wrap fcall]. rewrite logger_inner_emit. unfold calling_msg, emit.
  split.
  - intros text e Htext Hcall Hexc. rewrite Htext, Hcall.
    unfold reported, raised_msg, emit. rewrite Hexc. split.
    + intros s ->. now rewrite <- app_assoc.
    + now intros e' ->.
  - intros e He. now rewrite He.
Qed.

(** C9, as the code has it. Every emission of the decorator is dispatched
    on what the handle can do: a logger gets the message as it is through
    the method of the level, a stream gets one string, the level, a colon
    and a space, the message and a line feed. On a stream a call that
    returns leaves two lines, Calling and then returned, when the [repr] of
    the result can be had; a call that raises an [Exception] leaves two
    lines, Calling and then ERROR with the name of the class of the error,
    when the [str()] of the error can be had. When the [repr] of the result
    raises, the second line is an ERROR line instead; when the [repr] of an
    argument raises, nothing is emitted. *)
Theorem emissions_are_dispatched_by_capability :
  (forall lv msg,
      event_entry LoggingLogger lv msg = Record_ lv msg
      /\ event_entry TextStream lv msg
         = Written (level_name lv +++ ": " +++ msg +++ String "010"%char "")
      /\ level_name INFO = "INFO" /\ level_name WARNING = "WARNING"
      /\ level_name ERROR = "ERROR")
  /\ (forall func handle args kwargs l,
        logger_inner repr str_exc func handle args kwargs l =
        match render_args repr args kwargs with
        | Raise e => (Raise e, l)
        | Ok all_args_str =>
            match fcall func args kwargs
                    (l ++ [event_entry handle INFO
                             ("Calling " +++ fname func +++ "(" +++ all_args_str +++ ")")])
            with
            | (Ok v, l') =>
                match repr v with
                | Ok r =>
                    (Ok v,
                     l' ++ [event_entry handle INFO (fname func +++ " returned " +++ r)])
                | Raise e => reported str_exc (fname func) handle e l'
                end
            | (Raise e, l') => reported str_exc (fname func) handle e l'
            end
        end)
  /\ (forall name handle e l,
        reported str_exc name handle e l =
        if cls_is_Exception (exc_type e) then
          match str_exc e with
          | Ok e_str =>
              (Raise e,
               l ++ [event_entry handle ERROR
                       (name +++ " raised " +++ cls_name (exc_type e) +++ ": " +++ e_str)])
          | Raise e' => (Raise e', l)
          end
        else (Raise e, l))
  /\ (forall name f args kwargs l v all_args_str r,
        render_args repr args kwargs = Ok all_args_str ->
        f args kwargs = Ok v ->
        repr v = Ok r ->
        logger_inner repr str_exc (pure_func name f) TextStream args kwargs l
        = (Ok v,
           l ++ [Written ("INFO: Calling " +++ name +++ "(" +++ all_args_str +++ ")"
                          +++ String "010"%char "");
                 Written ("INFO: " +++ name +++ " returned " +++ r
                          +++ String "010"%char "")])
        /\ logger_inner repr str_exc (pure_func name f) LoggingLogger args kwargs l
           = (Ok v,
              l ++ [Record_ INFO ("Calling " +++ name +++ "(" +++ all_args_str +++ ")");
                    Record_ INFO (name +++ " returned " +++ r)]))
  /\ (forall name f args kwargs l e all_args_str e_str,
        render_args repr args kwargs = Ok all_args_str ->
        f args kwargs = Raise e ->
        cls_is_Exception (exc_type e) = true ->
        str_exc e = Ok e_str ->
        logger_inner repr str_exc (pure_func name f) TextStream args kwargs l
        = (Raise e,
           l ++ [Written ("INFO: Calling " +++ name +++ "(" +++ all_args_str +++ ")"
                          +++ String "010"%char "");
                 Written ("ERROR: " +++ name +++ " raised " +++ cls_name (exc_type e)
                          +++ ": " +++ e_str +++ String "010"%char "")])
        /\ logger_inner repr str_exc (pure_func name f) LoggingLogger args kwargs l
           = (Raise e,
              l ++ [Record_ INFO ("Calling " +++ name +++ "(" +++ all_args_str +++ ")");
                    Record_ ERROR (name +++ " raised " +++ cls_name (exc_type e)
                                   +++ ": " +++ e_str)]))
  /\ (forall name f args kwargs l v all_args_str e e_str,
        render_args repr args kwargs = Ok all_args_str ->
        f args kwargs = Ok v ->
        repr v = Raise e ->
        cls_is_Exception (exc_type e) = true ->
        str_exc e = Ok e_str ->
        logger_inner repr str_exc (pure_func name f) TextStream args kwargs l
        = (Raise e,
           l ++ [Written ("INFO: Calling " +++ name +++ "(" +++ all_args_str +++ ")"
                          +++ String "010"%char "");
                 Written ("ERROR: " +++ name +++ " raised " +++ cls_name (exc_type e)
                          +++ ": " +++ e_str +++ String "010"%char "")])).
Proof.
  split; [| split; [| split; [| split; [| split]]]].
  - intros lv msg. repeat split.
  - intros. apply logger_inner_emit.
  - reflexivity.
  - intros name f args kwargs l v text r Htext Hf Hr.
    split; rewrite logger_inner_emit, Htext; cbn [pure_func fcall lift fname];
      unfold lift; rewrite Hf, Hr; unfold emit, calling_msg, returned_msg;
      rewrite <- app_assoc; cbn [app event_entry level_name]; str_norm; reflexivity.
  - intros name f args kwargs l e text s Htext Hf Hexc Hs.
    split; rewrite logger_inner_emit, Htext; cbn [pure_func fcall lift fname];
      unfold lift, reported; rewrite Hf, Hexc, Hs; unfold emit, calling_msg, raised_msg;
      rewrite <- app_assoc; cbn [app event_entry level_name]; str_norm; reflexivity.
  - intros name f args kwargs l v text e s Htext Hf Hr Hexc Hs.
    rewrite logger_inner_emit, Htext; cbn [pure_func fcall lift fname];
      unfold lift, reported; rewrite Hf, Hr, Hexc, Hs; unfold emit, calling_msg, raised_msg;
      rewrite <- app_assoc; cbn [app event_entry level_name]; str_norm; reflexivity.
Qed.

End LoggerProperties.

(** ** The quadratic decorator *)

Section QuadraticLoggerProperties.

Variable str : pyval -> res string.
Variable str_exc : exn -> res string.

(** The three messages of the classification open with the same three
    [str()]s as the call-start message: they can be had when it can. *)
Lemma quadratic_calling_text_Ok (a b c : pyval) (calling : string) :
  quadratic_calling_text str a b c = Ok calling ->
  exists sa sb sc,
    str a = Ok sa /\ str b = Ok sb /\ str c = Ok sc
    /\ calling = "Calling solve_quadratic(a=" +++ sa +++ ", b=" +++ sb +++ ", c=" +++ sc
                 +++ ")".
Proof.
  unfold quadratic_calling_text, res_bind.
  destruct (str a) as [sa | e]; [| discriminate].
  destruct (str b) as [sb | e]; [| discriminate].
  destruct (str c) as [sc | e]; [| discriminate].
  intros [= <-]. now exists sa, sb, sc.
Qed.

(** [inner] of [solve_quadratic_logger], step by step: the call-start
    message and event, the call, the classification event, the returned
    message and event; or the handler. An exception met while classifying
    (a result with no length, say) or while formatting the result is raised
    inside the [try] and reported like one of the function. *)
Lemma solve_quadratic_logger_inner_emit (func : func3) (handle : handle_obj)
    (a b c : pyval) (l : log) :
  solve_quadratic_logger_inner str str_exc func handle a b c l =
  match quadratic_calling_text str a b c with
  | Raise e => (Raise e, l)
  | Ok calling =>
      match func a b c (emit handle INFO calling l) with
      | (Ok result, l') =>
          match classification str a b c result with
          | Ok (lv, msg) =>
              match quadratic_returned_text str result with
              | Ok returned =>
                  (Ok result, emit handle INFO returned (emit handle lv msg l'))
              | Raise e =>
                  reported str_exc "solve_quadratic" handle e (emit handle lv msg l')
              end
          | Raise e => reported str_exc "solve_quadratic" handle e l'
          end
      | (Raise e, l') => reported str_exc "solve_quadratic" handle e l'
      end
  end.
Proof.
  unfold solve_quadratic_logger_inner, classification, reported, raised_msg,
    quadratic_raised_text, emit, event_entry, bind, try_except_Exception, ret, raise, lift,
    res_bind.
  destruct (quadratic_calling_text str a b c) as [calling | e0]; [| reflexivity].
  destruct handle;
    cbn [hasattr String.eqb Ascii.eqb Bool.eqb andb orb level_name
         handle_info handle_warning handle_error handle_write handle_method];
    destruct (func a b c _) as [[result | e] l'];
    repeat (cbv beta iota;
            match goal with
            | |- context [eq_empty_tuple ?r] => destruct (eq_empty_tuple r)
            | |- context [no_solutions_text ?s ?x ?y ?z] =>
                destruct (no_solutions_text s x y z)
            | |- context [py_len ?r] => destruct (py_len r)
            | |- context [Nat.eqb ?n 1] => destruct (Nat.eqb n 1)
            | |- context [one_solution_text ?s ?x ?y ?z ?r] =>
                destruct (one_solution_text s x y z r)
            | |- context [two_solutions_text ?s ?x ?y ?z ?r] =>
                destruct (two_solutions_text s x y z r)
            | |- context [quadratic_returned_text ?s ?r] =>
                destruct (quadratic_returned_text s r)
            | |- context [cls_is_Exception (exc_type ?x)] =>
                destruct (cls_is_Exception (exc_type x))
            | |- context [str_exc ?x] => destruct (str_exc x)
            end);
    str_norm; reflexivity.
Qed.

(** C8, as the code has it. When [str(a)], [str(b)] and [str(c)] can be
    had, the function returns and the [str()] of its result can be had, the
    decorator classifies the result by its length and emits, before the
    generic returned event: for the empty sequence a warning that there are
    no real solutions; for one root an info event with the root under the
    format [.2f]; for two roots an info event with both under [.2f]. Under
    [.2f] a finite root is shown with exactly two decimals, as the number
    of hundredths nearest to it; an infinite root is shown as [inf] or
    [-inf] and a NaN as [nan], with no decimals. When [str(a)], [str(b)]
    or [str(c)] raises, the decorated call raises that exception before the
    function is called, and nothing is emitted. An event is, on a logger,
    the message as it is under its level and, on a stream, one string: the
    level, a colon and a space, the message and a line feed. *)
Theorem quadratic_logger_classifies_by_length (func : func3) (handle : handle_obj)
    (a b c : pyval) (l : log) :
  (forall sa sb sc l' result sr,
      str a = Ok sa -> str b = Ok sb -> str c = Ok sc ->
      func a b c
        (l ++ [event_entry handle INFO
                 ("Calling solve_quadratic(a=" +++ sa +++ ", b=" +++ sb +++ ", c=" +++ sc
                  +++ ")")])
        = (Ok result, l') ->
      str result = Ok sr ->
      (result = VTuple [] ->
       solve_quadratic_logger_inner str str_exc func handle a b c l =
       (Ok result,
        l' ++ [event_entry handle WARNING
                 ("solve_quadratic(" +++ sa +++ ", " +++ sb +++ ", " +++ sc
                  +++ ") has no real solutions.");
               event_entry handle INFO ("solve_quadratic returned " +++ sr)]))
      /\ (forall x, result = VTuple [VFloat x] ->
          solve_quadratic_logger_inner str str_exc func handle a b c l =
          (Ok result,
           l' ++ [event_entry handle INFO
                    ("solve_quadratic(" +++ sa +++ ", " +++ sb +++ ", " +++ sc
                     +++ ") has one solution: x = " +++ format_float_2f x);
                  event_entry handle INFO ("solve_quadratic returned " +++ sr)]))
      /\ (forall x1 x2, result = VTuple [VFloat x1; VFloat x2] ->
          solve_quadratic_logger_inner str str_exc func handle a b c l =
          (Ok result,
           l' ++ [event_entry handle INFO
                    ("solve_quadratic(" +++ sa +++ ", " +++ sb +++ ", " +++ sc
                     +++ ") has two solutions: x1 = " +++ format_float_2f x1
                     +++ ", x2 = " +++ format_float_2f x2);
                  event_entry handle INFO ("solve_quadratic returned " +++ sr)])))
  /\ (forall e, quadratic_calling_text str a b c = Raise e ->
        solve_quadratic_logger_inner str str_exc func handle a b c l = (Raise e, l))
  /\ (forall x,
        (forall s m e, Prim2SF x = S754_finite s m e ->
           exists h,
             format_float_2f x = two_decimals s h
             /\ (0 <= h)%Z
             /\ (Z.abs (2 * (100 * Zpos m * 2 ^ Z.max e 0) - 2 * h * 2 ^ Z.max (- e) 0)
                 <= 2 ^ Z.max (- e) 0)%Z)
        /\ (forall s, Prim2SF x = S754_zero s -> format_float_2f x = two_decimals s 0)
        /\ (forall s, Prim2SF x = S754_infinity s ->
             format_float_2f x = if s then "-inf" else "inf")
        /\ (Prim2SF x = S754_nan -> format_float_2f x = "nan"))
  /\ (forall lv msg,
        event_entry LoggingLogger lv msg = Record_ lv msg
        /\ event_entry TextStream lv msg
           = Written (level_name lv +++ ": " +++ msg +++ String "010"%char "")
        /\ level_name INFO = "INFO" /\ level_name WARNING = "WARNING").
Proof.
  split; [| split; [| split]].
  - intros sa sb sc l' result sr Ha Hb Hc Hcall Hr.
    assert (Hcalling : quadratic_calling_text str a b c
                       = Ok ("Calling solve_quadratic(a=" +++ sa +++ ", b=" +++ sb
                             +++ ", c=" +++ sc +++ ")"))
      by (unfold quadratic_calling_text; now rewrite Ha, Hb, Hc).
    assert (Hreturned : quadratic_returned_text str result
                        = Ok ("solve_quadratic returned " +++ sr))
      by (unfold quadratic_returned_text; now rewrite Hr).
    split; [| split]; intros; subst result;
      rewrite solve_quadratic_logger_inner_emit, Hcalling; unfold emit at 1;
      rewrite Hcall, Hreturned;
      unfold classification, no_solutions_text, one_solution_text, two_solutions_text;
      cbn [eq_empty_tuple py_len List.length Nat.eqb];
      rewrite Ha, Hb, Hc;
      cbn [res_bind py_getitem_nat nth_error format_2f py_len List.length Nat.eqb];
      unfold emit; rewrite <- app_assoc; reflexivity.
  - intros e He. now rewrite solve_quadratic_logger_inner_emit, He.
  - intros x. destruct (format_float_2f_two_decimals x) as [Hfinite Hzero].
    split; [exact Hfinite | split; [exact Hzero |]].
    unfold format_float_2f. split; [intros s -> | intros ->]; reflexivity.
  - intros lv msg. repeat split.
Qed.

End QuadraticLoggerProperties.

(** ** Dictionaries *)

Lemma dict_lookup_set_same (d : list (string * pyval)) (k : string) (v : pyval) :
  dict_lookup (dict_set d k v) k = Some v.
Proof.
  induction d as [| [k' v'] d IH]; simpl.
  - now rewrite String.eqb_refl.
  - destruct (String.eqb k' k) eqn:E; simpl; rewrite E; [reflexivity | exact IH].
Qed.

Lemma dict_lookup_set_other (d : list (string * pyval)) (k k' : string) (v : pyval) :
  k' <> k -> dict_lookup (dict_set d k v) k' = dict_lookup d k'.
Proof.
  intros Hne. induction d as [| [k0 v0] d IH]; simpl.
  - destruct (String.eqb k k') eqn:E; [| reflexivity].
    apply String.eqb_eq in E. congruence.
  - destruct (String.eqb k0 k) eqn:E; simpl.
    + apply String.eqb_eq in E. subst k0.
      destruct (String.eqb k k') eqn:E'; [| reflexivity].
      apply String.eqb_eq in E'. congruence.
    + destruct (String.eqb k0 k'); [reflexivity | exact IH].
Qed.

Lemma dict_keys_set (d : list (string * pyval)) (k : string) (v : pyval) :
  dict_keys (dict_set d k v) = add_key (dict_keys d) k.
Proof.
  unfold add_key, dict_keys. induction d as [| [k' v'] d IH]; simpl.
  - reflexivity.
  - rewrite (String.eqb_sym k k'). destruct (String.eqb k' k); simpl.
    + reflexivity.
    + rewrite IH. destruct (existsb (String.eqb k) (map fst d)); reflexivity.
Qed.

Lemma existsb_eqb_In (k : string) (keys : list string) :
  existsb (String.eqb k) keys = true <-> In k keys.
Proof.
  rewrite existsb_exists. split.
  - intros [x [Hin Heq]]. apply String.eqb_eq in Heq. now subst.
  - intros Hin. exists k. split; [exact Hin | apply String.eqb_refl].
Qed.

Lemma In_add_key (keys : list string) (k x : string) :
  In x (add_key keys k) <-> In x keys \/ x = k.
Proof.
  unfold add_key. destruct (existsb (String.eqb k) keys) eqn:E.
  - apply existsb_eqb_In in E. split; [now left |].
    intros [H | ->]; assumption.
  - rewrite in_app_iff. simpl. intuition congruence.
Qed.

Lemma In_fold_add_key (codes acc : list string) (x : string) :
  In x (fold_left add_key codes acc) <-> In x acc \/ In x codes.
Proof.
  revert acc. induction codes as [| c codes IH]; intros acc; simpl.
  - tauto.
  - rewrite IH, In_add_key. intuition congruence.
Qed.

Lemma fold_add_key_NoDup (codes acc : list string) :
  NoDup (acc ++ codes) -> fold_left add_key codes acc = acc ++ codes.
Proof.
  revert acc. induction codes as [| c codes IH]; intros acc Hnd; simpl.
  - now rewrite app_nil_r.
  - assert (Hnot : existsb (String.eqb c) acc = false).
    { destruct (existsb (String.eqb c) acc) eqn:E; [| reflexivity].
      apply existsb_eqb_In in E. apply NoDup_remove_2 in Hnd.
      exfalso. apply Hnd. apply in_or_app. now left. }
    unfold add_key at 2. rewrite Hnot.
    rewrite IH; rewrite <- app_assoc; [reflexivity | exact Hnd].
Qed.

Lemma first_occurrences_NoDup (codes : list string) :
  NoDup codes -> first_occurrences codes = codes.
Proof. intros H. unfold first_occurrences. now rewrite fold_add_key_NoDup. Qed.

(** ** The rate fetch *)

Lemma get_currencies_loop_step (valute_data : pyval) (code : string)
    (rest : list string) (result : list (string * pyval)) :
  get_currencies_loop valute_data (code :: rest) result =
  (value <- check_code valute_data code ;;
   get_currencies_loop valute_data rest (dict_set result code value))%res.
Proof.
  cbn [get_currencies_loop]. unfold check_code, res_bind.
  destruct (py_contains valute_data code) as [[|] | e]; cbn [negb]; try reflexivity.
  destruct (py_getitem_str valute_data code) as [info | e]; try reflexivity.
  destruct (py_get info "Value") as [value | e]; try reflexivity.
  destruct (is_None value || negb (isinstance_int_float value)); reflexivity.
Qed.

(** A code the loop accepts is a key of the [Valute] dictionary, bound to a
    record whose [Value] is the number stored. *)
Lemma check_code_Ok (valute_data : pyval) (code : string) (v : pyval) :
  check_code valute_data code = Ok v ->
  exists valute info,
    valute_data = VDict valute
    /\ dict_lookup valute code = Some (VDict info)
    /\ dict_lookup info "Value" = Some v
    /\ isinstance_int_float v = true.
Proof.
  unfold check_code, res_bind, py_contains, py_getitem_str, py_get, raise_msg.
  destruct valute_data as [ | b | z | f | s | xs | xs | valute]; try discriminate.
  - destruct (substringb code s); discriminate.
  - destruct (existsb (is_str code) xs); discriminate.
  - destruct (existsb (is_str code) xs); discriminate.
  - destruct (dict_lookup valute code) as [info |] eqn:Hinfo; cbn [negb]; [| discriminate].
    destruct info as [ | b | z | f | s | xs | xs | info]; try discriminate.
    destruct (dict_lookup info "Value") as [value |] eqn:Hvalue.
    + destruct (is_None value || negb (isinstance_int_float value)) eqn:Hbad;
        [discriminate |].
      intros [= ->]. apply orb_false_elim in Hbad. destruct Hbad as [_ Hnum].
      apply negb_false_iff in Hnum. now exists valute, info.
    + cbn. discriminate.
Qed.

(** The loop over codes that all pass: the dictionary it returns. *)
Lemma get_currencies_loop_Ok (valute_data : pyval) (codes : list string) :
  (forall code, In code codes -> exists v, check_code valute_data code = Ok v) ->
  forall result, exists d,
    get_currencies_loop valute_data codes result = Ok d
    /\ dict_keys d = fold_left add_key codes (dict_keys result)
    /\ (forall code v, In code codes -> check_code valute_data code = Ok v ->
        dict_lookup d code = Some v)
    /\ (forall k, ~ In k codes -> dict_lookup d k = dict_lookup result k).
Proof.
  induction codes as [| c codes IH]; intros Hall result.
  - exists result. cbn. repeat split; try reflexivity. intros ? ? [].
  - destruct (Hall c (or_introl eq_refl)) as [vc Hc].
    destruct (IH (fun x Hx => Hall x (or_intror Hx)) (dict_set result c vc))
      as [d [Hd [Hkeys [Hvals Hframe]]]].
    exists d. rewrite get_currencies_loop_step, Hc. cbn [res_bind].
    split; [exact Hd | split; [| split]].
    + cbn [fold_left]. now rewrite <- (dict_keys_set result c vc).
    + intros code v [-> | Hin] Hv.
      * destruct (in_dec string_dec code codes) as [Hin | Hnin].
        -- now apply Hvals.
        -- rewrite Hframe by exact Hnin. rewrite dict_lookup_set_same. congruence.
      * now apply Hvals.
    + intros k Hk. rewrite Hframe by (intros H; apply Hk; now right).
      apply dict_lookup_set_other. intros ->. apply Hk. now left.
Qed.

(** The loop stops at the first code that does not pass, whatever follows. *)
Lemma get_currencies_loop_Raise (valute_data : pyval) (pre : list string) (c : string)
    (post : list string) (e : exn) :
  (forall code, In code pre -> exists v, check_code valute_data code = Ok v) ->
  check_code valute_data c = Raise e ->
  forall result, get_currencies_loop valute_data (pre ++ c :: post) result = Raise e.
Proof.
  induction pre as [| p pre IH]; intros Hpre Hc result; cbn [app].
  - now rewrite get_currencies_loop_step, Hc.
  - destruct (Hpre p (or_introl eq_refl)) as [vp Hp].
    rewrite get_currencies_loop_step, Hp. cbn [res_bind].
    apply IH; [| exact Hc]. intros x Hx. apply Hpre. now right.
Qed.

(** A returned loop means every code passed. *)
Lemma get_currencies_loop_Ok_inv (valute_data : pyval) (codes : list string) :
  forall result d,
    get_currencies_loop valute_data codes result = Ok d ->
    forall code, In code codes -> exists v, check_code valute_data code = Ok v.
Proof.
  induction codes as [| c codes IH]; intros result d Hd code Hin; [destruct Hin |].
  rewrite get_currencies_loop_step in Hd.
  destruct (check_code valute_data c) as [vc | e] eqn:Hc; [| discriminate].
  cbn [res_bind] in Hd. destruct Hin as [<- | Hin].
  - now exists vc.
  - exact (IH _ _ Hd code Hin).
Qed.

Lemma length_append (a b : string) :
  String.length (a +++ b) = String.length a + String.length b.
Proof. induction a as [| x a IH]; simpl; [reflexivity | now rewrite IH]. Qed.

Lemma append_cancel_r (a b s : string) : a +++ s = b +++ s -> a = b.
Proof.
  revert b. induction a as [| x a IH]; intros [| y b] H; simpl in H.
  - reflexivity.
  - apply (f_equal String.length) in H. simpl in H. rewrite length_append in H. lia.
  - apply (f_equal String.length) in H. simpl in H. rewrite length_append in H. lia.
  - injection H as -> H. f_equal. now apply IH.
Qed.

(** C6. A fetch that returns gives a dictionary whose keys are the requested
    codes, in the order given (each at its first occurrence), every code bound
    to the numeric [Value] of its record in [Valute]. A fetch fails as a
    whole, with the exception of the first code, in the order given, that does
    not pass; and it does return when every code passes. *)
Theorem get_currencies_all_or_first_failure (http : string -> http_outcome)
    (codes : list string) (url : string) :
  (forall r, get_currencies http codes url = Ok r ->
     exists d,
       r = VDict d
       /\ dict_keys d = first_occurrences codes
       /\ (NoDup codes -> dict_keys d = codes)
       /\ (forall k, In k (dict_keys d) <-> In k codes)
       /\ (forall code, In code codes ->
           exists data valute info v,
             http url = Payload data
             /\ py_getitem_str data "Valute" = Ok (VDict valute)
             /\ dict_lookup valute code = Some (VDict info)
             /\ dict_lookup info "Value" = Some v
             /\ isinstance_int_float v = true
             /\ dict_lookup d code = Some v))
  /\ (forall data valute_data pre c post e,
        http url = Payload data ->
        py_contains data "Valute" = Ok true ->
        py_getitem_str data "Valute" = Ok valute_data ->
        codes = pre ++ c :: post ->
        (forall x, In x pre -> exists v, check_code valute_data x = Ok v) ->
        check_code valute_data c = Raise e ->
        get_currencies http codes url = Raise e)
  /\ (forall data valute_data,
        http url = Payload data ->
        py_contains data "Valute" = Ok true ->
        py_getitem_str data "Valute" = Ok valute_data ->
        (forall x, In x codes -> exists v, check_code valute_data x = Ok v) ->
        exists d, get_currencies http codes url = Ok (VDict d)).
Proof.
  unfold get_currencies. split; [| split].
  - intros r Hr.
    destruct (http url) as [cause | | data] eqn:Hhttp; try discriminate.
    destruct (py_contains data "Valute") as [[|] | e]; try discriminate.
    cbn [res_bind negb] in Hr.
    destruct (py_getitem_str data "Valute") as [valute_data | e] eqn:Hget;
      try discriminate.
    cbn [res_bind] in Hr.
    destruct (get_currencies_loop valute_data codes []) as [d | e] eqn:Hloop;
      try discriminate.
    injection Hr as <-.
    pose proof (get_currencies_loop_Ok_inv _ _ _ _ Hloop) as Hall.
    destruct (get_currencies_loop_Ok valute_data codes Hall [])
      as [d' [Hd' [Hkeys [Hvals _]]]].
    rewrite Hloop in Hd'. injection Hd' as <-.
    exists d. split; [reflexivity | split; [exact Hkeys | split; [| split]]].
    + intros Hnd. rewrite Hkeys. now apply first_occurrences_NoDup.
    + intros k. rewrite Hkeys, In_fold_add_key. cbn. tauto.
    + intros code Hin. destruct (Hall code Hin) as [v Hv].
      destruct (check_code_Ok _ _ _ Hv) as [valute [info [-> [H1 [H2 H3]]]]].
      exists data, valute, info, v. repeat split; try assumption; try reflexivity.
      exact (Hvals code v Hin Hv).
  - intros data valute_data pre c post e -> Hin Hget -> Hpre Hc.
    rewrite Hin. cbn [res_bind negb]. rewrite Hget. cbn [res_bind].
    now rewrite (get_currencies_loop_Raise valute_data pre c post e Hpre Hc).
  - intros data valute_data -> Hin Hget Hall.
    rewrite Hin. cbn [res_bind negb]. rewrite Hget. cbn [res_bind].
    destruct (get_currencies_loop_Ok valute_data codes Hall []) as [d [Hd _]].
    exists d. now rewrite Hd.
Qed.

(** C7, as the code has it. A payload with no [Valute] key fails with a
    [KeyError]; the first requested code that is no key of [Valute] fails with
    a [KeyError] whose message names the code; the first code whose record has
    no [Value], or a [Value] that is no [int] or [float], fails with a
    [TypeError] whose message names the code. The first two share the class
    [KeyError] and differ by their message only; the third differs from both
    by its class. *)
Theorem get_currencies_failures (http : string -> http_outcome) (url : string)
    (top : list (string * pyval)) :
  http url = Payload (VDict top) ->
  (dict_lookup top "Valute" = None ->
   forall codes, get_currencies http codes url = Raise missing_valute_error)
  /\ (forall valute pre c post,
        dict_lookup top "Valute" = Some (VDict valute) ->
        (forall x, In x pre -> exists v, check_code (VDict valute) x = Ok v) ->
        dict_lookup valute c = None ->
        get_currencies http (pre ++ c :: post) url = Raise (unknown_currency_error c))
  /\ (forall valute pre c post info,
        dict_lookup top "Valute" = Some (VDict valute) ->
        (forall x, In x pre -> exists v, check_code (VDict valute) x = Ok v) ->
        dict_lookup valute c = Some (VDict info) ->
        (dict_lookup info "Value" = None
         \/ exists v, dict_lookup info "Value" = Some v
                      /\ isinstance_int_float v = false) ->
        get_currencies http (pre ++ c :: post) url = Raise (invalid_value_error c))
  /\ (exc_type missing_valute_error = KeyError
      /\ (forall c, exc_type (unknown_currency_error c) = KeyError)
      /\ (forall c, exc_type (invalid_value_error c) = TypeError)
      /\ KeyError <> TypeError)
  /\ ((forall c, missing_valute_error <> unknown_currency_error c)
      /\ (forall c c', unknown_currency_error c = unknown_currency_error c' -> c = c')
      /\ (forall c c', invalid_value_error c = invalid_value_error c' -> c = c')).
Proof.
  intros Hhttp. unfold get_currencies. rewrite Hhttp. cbn [py_contains py_getitem_str].
  split; [| split; [| split; [| split]]].
  - intros Hnone codes. now rewrite Hnone.
  - intros valute pre c post Htop Hpre Hc. rewrite Htop. cbn [res_bind negb].
    rewrite (get_currencies_loop_Raise (VDict valute) pre c post
               (unknown_currency_error c) Hpre); [reflexivity |].
    unfold check_code. cbn [py_contains]. now rewrite Hc.
  - intros valute pre c post info Htop Hpre Hc Hbad. rewrite Htop. cbn [res_bind negb].
    rewrite (get_currencies_loop_Raise (VDict valute) pre c post
               (invalid_value_error c) Hpre); [reflexivity |].
    unfold check_code. cbn [py_contains py_getitem_str]. rewrite Hc.
    cbn [res_bind negb py_get].
    destruct Hbad as [Hnone | [v [Hv Hnum]]].
    + now rewrite Hnone.
    + rewrite Hv. cbn [res_bind]. rewrite Hnum. cbn [negb]. now rewrite orb_true_r.
  - repeat split. discriminate.
  - repeat split.
    + intros c. unfold missing_valute_error, unknown_currency_error. cbn. intros [=].
    + intros c c' [= H]. now apply append_cancel_r in H.
    + intros c c' [= H]. now apply append_cancel_r in H.
Qed.

(** ** Comparisons of a [float] with zero *)

Lemma Prim2SF_zero : Prim2SF 0%float = S754_zero false.
Proof. reflexivity. Qed.

Lemma float_gt0_not_lt0 (f : float) : (0 <? f)%float = true -> (f <? 0)%float = false.
Proof.
  rewrite !ltb_spec, Prim2SF_zero. unfold SFltb, SFcompare.
  destruct (Prim2SF f) as [s | s | | s m e]; try destruct s; easy.
Qed.

Lemma float_gt0_not_eq0 (f : float) : (0 <? f)%float = true -> (f =? 0)%float = false.
Proof.
  rewrite ltb_spec, eqb_spec, Prim2SF_zero. unfold SFltb, SFeqb, SFcompare.
  destruct (Prim2SF f) as [s | s | | s m e]; try destruct s; easy.
Qed.

Lemma float_eq0_not_lt0 (f : float) : (f =? 0)%float = true -> (f <? 0)%float = false.
Proof.
  rewrite ltb_spec, eqb_spec, Prim2SF_zero. unfold SFltb, SFeqb, SFcompare.
  destruct (Prim2SF f) as [s | s | | s m e]; try destruct s; easy.
Qed.

Lemma num_gt0_not_lt0 (d : num) : num_gt0 d = true -> num_lt0 d = false.
Proof.
  destruct d as [z | f]; cbn.
  - intros H. apply Z.ltb_lt in H. apply Z.ltb_ge. lia.
  - apply float_gt0_not_lt0.
Qed.

Lemma num_gt0_not_eq0 (d : num) : num_gt0 d = true -> num_eq0 d = false.
Proof.
  destruct d as [z | f]; cbn.
  - intros H. apply Z.ltb_lt in H. apply Z.eqb_neq. lia.
  - apply float_gt0_not_eq0.
Qed.

Lemma num_eq0_not_lt0 (d : num) : num_eq0 d = true -> num_lt0 d = false.
Proof.
  destruct d as [z | f]; cbn.
  - intros H. apply Z.eqb_eq in H. apply Z.ltb_ge. lia.
  - apply float_eq0_not_lt0.
Qed.

(** ** The solver *)

Section SolverProperties.

Variable float_pow : float -> float -> res float.

Lemma solve_quadratic_func_num (a b c : pyval) (a' b' c' : num) :
  as_num a = Some a' -> as_num b = Some b' -> as_num c = Some c' ->
  solve_quadratic_func float_pow a b c = solve_num float_pow a' b' c'.
Proof. intros Ha Hb Hc. unfold solve_quadratic_func. now rewrite Ha, Hb, Hc. Qed.

Lemma solve_quadratic_func_not_numeric (a b c : pyval) :
  forallb isinstance_int_float [a; b; c] = false ->
  solve_quadratic_func float_pow a b c = raise_msg TypeError "Коэффициенты должны быть числами".
Proof.
  unfold solve_quadratic_func, isinstance_int_float. cbn [forallb].
  destruct (as_num a); destruct (as_num b); destruct (as_num c);
    cbn; solve [discriminate | reflexivity].
Qed.

Lemma solve_num_positive_discriminant (a b c d : num) :
  num_eq0 a = false ->
  discriminant_of float_pow a b c = Ok d ->
  num_gt0 d = true ->
  solve_num float_pow a b c = two_roots a b d.
Proof.
  intros Ha Hd Hpos. unfold solve_num, two_roots. rewrite Ha, Hd. cbn [res_bind].
  now rewrite (num_gt0_not_lt0 d Hpos), (num_gt0_not_eq0 d Hpos).
Qed.

Lemma as_num_numeric (a b c : pyval) :
  forallb isinstance_int_float [a; b; c] = true ->
  exists a' b' c', as_num a = Some a' /\ as_num b = Some b' /\ as_num c = Some c'.
Proof.
  unfold isinstance_int_float. cbn [forallb].
  destruct (as_num a) as [a' |]; [| discriminate].
  destruct (as_num b) as [b' |]; [| discriminate].
  destruct (as_num c) as [c' |]; [| discriminate].
  intros _. now exists a', b', c'.
Qed.

(** Whatever [solve_num] returns is a tuple of no, one or two floats. *)
Lemma solve_num_shape (a b c : num) (r : pyval) :
  solve_num float_pow a b c = Ok r ->
  r = VTuple []
  \/ (exists x, r = VTuple [VFloat x])
  \/ (exists x1 x2, r = VTuple [VFloat x1; VFloat x2]).
Proof.
  unfold solve_num, res_bind.
  destruct (num_eq0 a).
  - destruct (num_eq0 b).
    + destruct (num_eq0 c); [discriminate | intros [= <-]; now left].
    + destruct (num_truediv (num_neg c) b) as [x | e]; [| discriminate].
      intros [= <-]. right. left. now exists x.
  - destruct (discriminant_of float_pow a b c) as [d | e]; [| discriminate].
    destruct (num_lt0 d); [intros [= <-]; now left |].
    destruct (num_eq0 d).
    + destruct (num_mul (NInt 2) a) as [a2 | e]; [| discriminate].
      destruct (num_truediv (num_neg b) a2) as [x | e]; [| discriminate].
      intros [= <-]. right. left. now exists x.
    + destruct (math_sqrt d) as [s | e]; [| discriminate].
      destruct (num_add (num_neg b) (NFloat s)) as [n1 | e]; [| discriminate].
      destruct (num_mul (NInt 2) a) as [a2 | e]; [| discriminate].
      destruct (num_truediv n1 a2) as [x1 | e]; [| discriminate].
      destruct (num_sub (num_neg b) (NFloat s)) as [n2 | e]; [| discriminate].
      destruct (num_truediv n2 a2) as [x2 | e]; [| discriminate].
      intros [= <-]. right. right. now exists x1, x2.
Qed.

Lemma two_roots_Ok (a b d : num) (sqrt_disc : float) (n1 n2 a2 : num) (x1 x2 : float) :
  math_sqrt d = Ok sqrt_disc ->
  num_add (num_neg b) (NFloat sqrt_disc) = Ok n1 ->
  num_sub (num_neg b) (NFloat sqrt_disc) = Ok n2 ->
  num_mul (NInt 2) a = Ok a2 ->
  num_truediv n1 a2 = Ok x1 ->
  num_truediv n2 a2 = Ok x2 ->
  two_roots a b d = Ok (VTuple [VFloat x1; VFloat x2]).
Proof.
  intros Hs H1 H2 Ha Hx1 Hx2. unfold two_roots.
  rewrite Hs. cbn [res_bind]. rewrite H1. cbn [res_bind]. rewrite Ha. cbn [res_bind].
  rewrite Hx1. cbn [res_bind]. rewrite H2. cbn [res_bind]. rewrite Hx2. reflexivity.
Qed.

Lemma two_roots_Ok_inv (a b d : num) (r : pyval) :
  two_roots a b d = Ok r ->
  exists sqrt_disc n1 n2 a2 x1 x2,
    math_sqrt d = Ok sqrt_disc
    /\ num_add (num_neg b) (NFloat sqrt_disc) = Ok n1
    /\ num_sub (num_neg b) (NFloat sqrt_disc) = Ok n2
    /\ num_mul (NInt 2) a = Ok a2
    /\ num_truediv n1 a2 = Ok x1
    /\ num_truediv n2 a2 = Ok x2
    /\ r = VTuple [VFloat x1; VFloat x2].
Proof.
  unfold two_roots, res_bind.
  destruct (math_sqrt d) as [s | e] eqn:Hs; [| discriminate].
  destruct (num_add (num_neg b) (NFloat s)) as [n1 | e] eqn:Hn1; [| discriminate].
  destruct (num_mul (NInt 2) a) as [a2 | e] eqn:Ha2; [| discriminate].
  destruct (num_truediv n1 a2) as [x1 | e] eqn:Hx1; [| discriminate].
  destruct (num_sub (num_neg b) (NFloat s)) as [n2 | e] eqn:Hn2; [| discriminate].
  destruct (num_truediv n2 a2) as [x2 | e] eqn:Hx2; [| discriminate].
  intros [= <-]. exists s, n1, n2, a2, x1, x2. repeat split; assumption.
Qed.

(* ================================================================= *)
(** ** Rounding keeps the order

    The operations of [SpecFloat], which the kernel's float operations are
    specified by, round to nearest, and rounding is monotone. *)

Section FloatOrder.
Local Open Scope Z_scope.

Lemma fexp_eq (x : Z) : fexp prec emax x = Z.max (x - 53) (-1074).
Proof. reflexivity. Qed.

Lemma digits2_pos_size (p : positive) : digits2_pos p = Pos.size p.
Proof. induction p; simpl; congruence. Qed.

Lemma Zdigits2_bounds (m : Z) :
  0 < m -> 2 ^ (Zdigits2 m - 1) <= m < 2 ^ Zdigits2 m.
Proof.
  destruct m as [| p | p]; try lia. intros _. cbn [Zdigits2].
  rewrite digits2_pos_size.
  pose proof (Pos.size_gt p) as Hgt. pose proof (Pos.size_le p) as Hle.
  assert (H2 : Zpos (2 ^ Pos.size p) = 2 ^ Zpos (Pos.size p)).
  { rewrite Pos2Z.inj_pow. reflexivity. }
  split.
  - assert (2 ^ Z.pos (Pos.size p) <= 2 * Z.pos p) by (rewrite <- H2; lia).
    replace (Z.pos (Pos.size p)) with (Z.succ (Z.pos (Pos.size p) - 1)) in H by lia.
    rewrite Z.pow_succ_r in H by lia. lia.
  - rewrite <- H2. lia.
Qed.

Lemma Zdigits2_nonneg (m : Z) : 0 <= Zdigits2 m.
Proof. destruct m; cbn; lia. Qed.

Lemma Zdigits2_pos (m : Z) : 0 < m -> 0 < Zdigits2 m.
Proof. destruct m; cbn; lia. Qed.

(** [m < 2^d] bounds the digits of [m]. *)
Lemma Zdigits2_le (m d : Z) : 0 <= m -> 0 <= d -> m < 2 ^ d -> Zdigits2 m <= d.
Proof.
  intros Hm Hd Hlt. destruct (Z.eq_dec m 0) as [-> | Hne]; [cbn; lia |].
  destruct (Zdigits2_bounds m ltac:(lia)) as [Hlo _].
  destruct (Z_le_gt_dec (Zdigits2 m) d) as [H | H]; [exact H |].
  exfalso. assert (2 ^ d <= 2 ^ (Zdigits2 m - 1)) by (apply Z.pow_le_mono_r; lia). lia.
Qed.

Lemma Zdigits2_ge (m d : Z) : 0 <= d -> 2 ^ d <= m -> d < Zdigits2 m.
Proof.
  intros Hd Hle. assert (0 < m) by (pose proof (Z.pow_pos_nonneg 2 d); lia).
  destruct (Zdigits2_bounds m H) as [_ Hhi].
  destruct (Z_lt_le_dec d (Zdigits2 m)) as [Hlt | Hge]; [exact Hlt |].
  exfalso. assert (2 ^ Zdigits2 m <= 2 ^ d) by (apply Z.pow_le_mono_r; lia). lia.
Qed.

(** ** Location *)
Lemma located_floor (P Q m : Z) (l : location) :
  0 < Q -> located P Q m l -> m * Q <= P < (m + 1) * Q.
Proof. destruct l as [| []]; cbn [located]; nia. Qed.

Lemma loc_of_record_of_loc (m : Z) (l : location) :
  loc_of_shr_record (shr_record_of_loc m l) = l /\ shr_m (shr_record_of_loc m l) = m.
Proof. destruct l as [| []]; split; reflexivity. Qed.

Lemma shr_1_spec (m : Z) (r s : bool) :
  0 <= m ->
  shr_1 (Build_shr_record m r s) = Build_shr_record (m / 2) (Z.odd m) (r || s).
Proof.
  intros Hm. destruct m as [| [p | p |] |]; try lia; cbn [shr_1 Z.odd];
    try reflexivity; f_equal.
  - rewrite Pos2Z.inj_xI. apply (Z.div_unique _ 2 _ 1); lia.
  - rewrite Pos2Z.inj_xO. apply (Z.div_unique _ 2 _ 0); lia.
Qed.

Lemma shr_1_located (P Q : Z) (mrs : shr_record) :
  0 < Q -> 0 <= shr_m mrs ->
  located P Q (shr_m mrs) (loc_of_shr_record mrs) ->
  located P (2 * Q) (shr_m (shr_1 mrs)) (loc_of_shr_record (shr_1 mrs))
  /\ shr_m (shr_1 mrs) = shr_m mrs / 2.
Proof.
  destruct mrs as [m r s]. cbn [shr_m]. intros HQ Hm.
  rewrite (shr_1_spec m r s Hm). cbn [shr_m]. intros H. split; [| reflexivity].
  pose proof (Z.div_mod m 2 ltac:(lia)) as Hdm.
  rewrite Zmod_odd in Hdm.
  set (h := m / 2) in *.
  destruct (Z.odd m); destruct r, s;
    cbn [orb loc_of_shr_record located] in *; nia.
Qed.

Section Iter.
Variable A : Type.
Variable f : A -> A.
Variable I : Z -> A -> Prop.
Hypothesis step : forall k x, 0 <= k -> I k x -> I (k + 1) (f x).

Lemma iter_pos_invariant (n : positive) :
  forall k x, 0 <= k -> I k x -> I (k + Zpos n) (iter_pos f n x).
Proof.
  induction n as [n IH | n IH |]; intros k x Hk Hx; cbn [iter_pos].
  - replace (k + Z.pos n~1) with (k + 1 + Z.pos n + Z.pos n) by lia.
    apply IH; [lia |]. apply IH; [lia |]. now apply step.
  - replace (k + Z.pos n~0) with (k + Z.pos n + Z.pos n) by lia.
    apply IH; [lia |]. now apply IH.
  - now apply step.
Qed.
End Iter.

(** Shifting right by [n] bits: the floor and the location of the same
    rational over a denominator [2^n] times larger. *)
Lemma shr_located (P Q m : Z) (l : location) (e n : Z) :
  0 < Q -> 0 <= m -> located P Q m l ->
  let '(mrs, e') := shr (shr_record_of_loc m l) e n in
  located P (Q * 2 ^ Z.max n 0) (shr_m mrs) (loc_of_shr_record mrs)
  /\ shr_m mrs = m / 2 ^ Z.max n 0
  /\ e' = e + Z.max n 0.
Proof.
  intros HQ Hm Hloc.
  destruct (loc_of_record_of_loc m l) as [Hl Hsm].
  unfold shr. destruct n as [| p | p].
  - cbn [Z.max Z.compare]. rewrite Hl, Hsm, Z.mul_1_r, Z.div_1_r. repeat split; [assumption | lia].
  - replace (Z.max (Z.pos p) 0) with (Z.pos p) by lia.
    pose (I := fun (k : Z) (mrs : shr_record) =>
                 located P (Q * 2 ^ k) (shr_m mrs) (loc_of_shr_record mrs)
                 /\ shr_m mrs = m / 2 ^ k).
    assert (Hstep : forall k x, 0 <= k -> I k x -> I (k + 1) (shr_1 x)).
    { intros k x Hk [H1 H2]. unfold I.
      assert (Hpow : 0 < 2 ^ k) by (apply Z.pow_pos_nonneg; lia).
      assert (Hx : 0 <= shr_m x) by (rewrite H2; apply Z.div_pos; lia).
      destruct (shr_1_located P (Q * 2 ^ k) x ltac:(nia) Hx H1) as [H3 H4].
      rewrite Z.pow_add_r by lia. rewrite Z.pow_1_r.
      split.
      - replace (Q * (2 ^ k * 2)) with (2 * (Q * 2 ^ k)) by ring. exact H3.
      - rewrite H4, H2. rewrite Z.div_div by lia. reflexivity. }
    assert (H0 : I 0 (shr_record_of_loc m l)).
    { unfold I. rewrite Hl, Hsm, Z.pow_0_r, Z.mul_1_r, Z.div_1_r. now split. }
    pose proof (iter_pos_invariant _ shr_1 I Hstep p 0 _ ltac:(lia) H0) as [H1 H2].
    cbn [Z.add] in H1, H2. repeat split; assumption.
  - cbn [Z.max Z.compare]. rewrite Hl, Hsm, Z.mul_1_r, Z.div_1_r. repeat split; [assumption | lia].
Qed.

(** ** Rounding a rational to the nearest integer, ties to even *)
Lemma RNE_bounds (P Q : Z) :
  P / Q <= round_half_even_div P Q <= P / Q + 1.
Proof.
  unfold round_half_even_div.
  destruct (2 * (P mod Q) ?= Q); [destruct (Z.even (P / Q)) | |]; lia.
Qed.

Lemma located_div (P Q m : Z) (l : location) :
  0 < Q -> located P Q m l -> P / Q = m /\ P mod Q = P - m * Q.
Proof.
  intros HQ Hloc. pose proof (located_floor P Q m l HQ Hloc) as Hfl.
  assert (Hq : P / Q = m).
  { symmetry. apply (Z.div_unique P Q m (P - m * Q)); lia. }
  split; [exact Hq |].
  pose proof (Z.div_mod P Q ltac:(lia)) as Hdm. rewrite Hq in Hdm. lia.
Qed.

Lemma located_RNE (P Q m : Z) (l : location) :
  0 < Q -> located P Q m l -> round_nearest_even m l = round_half_even_div P Q.
Proof.
  intros HQ Hloc. destruct (located_div P Q m l HQ Hloc) as [Hq Hr].
  unfold round_half_even_div. rewrite Hq, Hr.
  destruct l as [| []]; cbn [located round_nearest_even] in *.
  - replace (2 * (P - m * Q) ?= Q) with Lt; [reflexivity |].
    symmetry. apply Z.compare_lt_iff. lia.
  - replace (2 * (P - m * Q) ?= Q) with Eq; [reflexivity |].
    symmetry. apply Z.compare_eq_iff. lia.
  - replace (2 * (P - m * Q) ?= Q) with Lt; [reflexivity |].
    symmetry. apply Z.compare_lt_iff. lia.
  - replace (2 * (P - m * Q) ?= Q) with Gt; [reflexivity |].
    symmetry. apply Z.compare_gt_iff. lia.
Qed.

Lemma RNE_monotone (P1 P2 Q : Z) :
  0 < Q -> P1 <= P2 -> round_half_even_div P1 Q <= round_half_even_div P2 Q.
Proof.
  intros HQ Hle.
  assert (Hq : P1 / Q <= P2 / Q) by (apply Z.div_le_mono; lia).
  destruct (Z.eq_dec (P1 / Q) (P2 / Q)) as [Heq | Hne].
  - assert (Hr : P1 mod Q <= P2 mod Q).
    { pose proof (Z.div_mod P1 Q ltac:(lia)). pose proof (Z.div_mod P2 Q ltac:(lia)).
      rewrite Heq in *. nia. }
    unfold round_half_even_div. rewrite Heq.
    destruct (Z.compare_spec (2 * (P1 mod Q)) Q) as [E1 | E1 | E1];
      destruct (Z.compare_spec (2 * (P2 mod Q)) Q) as [E2 | E2 | E2];
      try destruct (Z.even (P2 / Q)); lia.
  - pose proof (RNE_bounds P1 Q). pose proof (RNE_bounds P2 Q). lia.
Qed.

Lemma RNE_exact (n Q : Z) : 0 < Q -> round_half_even_div (n * Q) Q = n.
Proof.
  intros HQ. unfold round_half_even_div.
  rewrite Z.div_mul by lia. rewrite Z.mod_mul by lia. rewrite Z.mul_0_r.
  destruct (Z.compare_spec 0 Q); try lia; reflexivity.
Qed.

Lemma RNE_scale (k P Q : Z) :
  0 < k -> 0 < Q -> round_half_even_div (k * P) (k * Q) = round_half_even_div P Q.
Proof.
  intros Hk HQ. unfold round_half_even_div.
  rewrite Z.div_mul_cancel_l by lia. rewrite Z.mul_mod_distr_l by lia.
  destruct (Z.compare_spec (2 * (k * (P mod Q))) (k * Q));
    destruct (Z.compare_spec (2 * (P mod Q)) Q); try reflexivity; nia.
Qed.

Lemma RNE_nonneg (P Q : Z) : 0 <= P -> 0 < Q -> 0 <= round_half_even_div P Q.
Proof.
  intros HP HQ. pose proof (RNE_bounds P Q). pose proof (Z.div_pos P Q HP HQ). lia.
Qed.

(** [RNE (P/Q) <= n] and [n <= RNE (P/Q)] from the same bound on [P/Q]. *)
Lemma RNE_le (P Q n : Z) : 0 < Q -> P <= n * Q -> round_half_even_div P Q <= n.
Proof.
  intros HQ H. rewrite <- (RNE_exact n Q HQ). now apply RNE_monotone.
Qed.

Lemma RNE_ge (P Q n : Z) : 0 < Q -> n * Q <= P -> n <= round_half_even_div P Q.
Proof.
  intros HQ H. rewrite <- (RNE_exact n Q HQ). now apply RNE_monotone.
Qed.

Lemma pow2_pos (k : Z) : 0 <= k -> 0 < 2 ^ k.
Proof. intros. apply Z.pow_pos_nonneg; lia. Qed.

Lemma pow2_add (a b : Z) : 0 <= a -> 0 <= b -> 2 ^ (a + b) = 2 ^ a * 2 ^ b.
Proof. intros. apply Z.pow_add_r; lia. Qed.

Lemma pow2_le (a b : Z) : 0 <= a <= b -> 2 ^ a <= 2 ^ b.
Proof. intros. apply Z.pow_le_mono_r; lia. Qed.

Lemma pow2_lt (a b : Z) : 0 <= a < b -> 2 ^ a < 2 ^ b.
Proof. intros. apply Z.pow_lt_mono_r; lia. Qed.

Lemma INF_pos : 0 < INF.
Proof. unfold INF. apply pow2_pos. lia. Qed.

Lemma valid_finite (s : bool) (m : positive) (e : Z) :
  valid_binary (S754_finite s m e) = true
  <-> Z.max (Zdigits2 (Zpos m) + e - 53) (-1074) = e /\ e <= 971.
Proof.
  cbn [SpecFloat.valid_binary]. unfold bounded, canonical_mantissa.
  rewrite fexp_eq. change (emax - prec) with 971. cbn [Zdigits2].
  rewrite andb_true_iff, Z.eqb_eq, Z.leb_le. tauto.
Qed.

(** The first shift of [binary_round_aux]. *)
Lemma shr_fexp_located (P Q m e : Z) (l : location) :
  0 < Q -> 0 <= m -> located P Q m l ->
  e <= fexp prec emax (Zdigits2 m + e) ->
  let c := fexp prec emax (Zdigits2 m + e) in
  let '(mrs, e') := shr_fexp prec emax m e l in
  located P (Q * 2 ^ (c - e)) (shr_m mrs) (loc_of_shr_record mrs)
  /\ shr_m mrs = m / 2 ^ (c - e)
  /\ e' = c.
Proof.
  intros HQ Hm Hloc Hle c. unfold shr_fexp. fold c.
  pose proof (shr_located P Q m l e (c - e) HQ Hm Hloc) as H.
  destruct (shr (shr_record_of_loc m l) e (c - e)) as [mrs e'].
  replace (Z.max (c - e) 0) with (c - e) in H by lia.
  destruct H as [H1 [H2 H3]]. repeat split; [assumption | assumption | lia].
Qed.

Lemma div_pow2_lt (m a b : Z) :
  0 <= m -> 0 <= a -> 0 <= b -> m < 2 ^ (a + b) -> m / 2 ^ a < 2 ^ b.
Proof.
  intros Hm Ha Hb Hlt. apply Z.div_lt_upper_bound; [now apply pow2_pos |].
  now rewrite <- pow2_add.
Qed.

Lemma div_pow2_ge (m a b : Z) :
  0 <= a -> 0 <= b -> 2 ^ (a + b) <= m -> 2 ^ b <= m / 2 ^ a.
Proof.
  intros Ha Hb Hle. apply Z.div_le_lower_bound; [now apply pow2_pos |].
  now rewrite <- pow2_add.
Qed.

(** What [binary_round_aux] computes from a truncated mantissa [m] at
    exponent [e] standing for the rational [P/Q * 2^e], when [e] is fine
    enough: a valid float of the given sign whose value is [P/Q] rounded to
    an integer at the exponent of its binade, infinite beyond the range. *)
Lemma binary_round_aux_spec (s : bool) (P Q m e : Z) (l : location) :
  0 < Q -> 0 <= m -> located P Q m l ->
  e <= fexp prec emax (Zdigits2 m + e) ->
  let c := fexp prec emax (Zdigits2 m + e) in
  let N := round_half_even_div P (Q * 2 ^ (c - e)) in
  let r := binary_round_aux prec emax s m e l in
  SFsign_is s r
  /\ valid_binary r = true
  /\ SFord r = cond_Zopp s (Z.min (N * 2 ^ (c + 1074)) INF).
Proof.
  intros HQ Hm Hloc Hle c N r.
  pose proof (shr_fexp_located P Q m e l HQ Hm Hloc Hle) as H1. cbv zeta in H1. fold c in H1.
  unfold r, binary_round_aux.
  destruct (shr_fexp prec emax m e l) as [mrs' e'].
  destruct H1 as [Hloc' [Hm' He']]. subst e'.
  assert (Hc : c = Z.max (Zdigits2 m + e - 53) (-1074)) by (unfold c; apply fexp_eq).
  assert (HQ' : 0 < Q * 2 ^ (c - e)).
  { apply Z.mul_pos_pos; [exact HQ | apply pow2_pos; lia]. }
  rewrite (located_RNE _ _ _ _ HQ' Hloc'). fold N.
  (* bounds on the truncated mantissa *)
  assert (Hm'hi : shr_m mrs' < 2 ^ 53).
  { rewrite Hm'. destruct (Z.eq_dec m 0) as [-> | Hne].
    - rewrite Z.div_0_l; [lia | pose proof (pow2_pos (c - e)); lia].
    - apply div_pow2_lt; try lia.
      destruct (Zdigits2_bounds m ltac:(lia)) as [_ Hhi].
      eapply Z.lt_le_trans; [exact Hhi |]. apply pow2_le.
      pose proof (Zdigits2_nonneg m). lia. }
  assert (Hm'lo : -1074 < c -> 2 ^ 52 <= shr_m mrs').
  { intros Hnorm. rewrite Hm'.
    assert (Hd : c - e = Zdigits2 m - 53) by lia.
    assert (Hmpos : 0 < m).
    { destruct (Z.eq_dec m 0) as [-> | Hne]; [cbn in Hd; lia | lia]. }
    destruct (Zdigits2_bounds m Hmpos) as [Hlo _].
    apply div_pow2_ge; try lia.
    replace (c - e + 52) with (Zdigits2 m - 1) by lia. exact Hlo. }
  assert (Hm'0 : 0 <= shr_m mrs').
  { rewrite Hm'. apply Z.div_pos; [lia | apply pow2_pos; lia]. }
  pose proof (RNE_bounds P (Q * 2 ^ (c - e))) as HNb. fold N in HNb.
  destruct (located_div _ _ _ _ HQ' Hloc') as [Hdiv _]. rewrite Hdiv in HNb.
  assert (HNhi : N <= 2 ^ 53) by lia.
  assert (HN0 : 0 <= N) by lia.
  assert (HNlo : -1074 < c -> 2 ^ 52 <= N) by (intros; specialize (Hm'lo H); lia).
  assert (Hcpow : 0 < 2 ^ (c + 1074)) by (apply pow2_pos; lia).
  (* the second shift *)
  unfold shr_fexp. rewrite fexp_eq.
  destruct (Z.eq_dec N (2 ^ 53)) as [HN | HN].
  - (* the rounding carried into a new bit *)
    assert (Hd54 : Zdigits2 N = 54) by (rewrite HN; reflexivity).
    rewrite Hd54. replace (Z.max (54 + c - 53) (-1074) - c) with 1 by lia.
    pose proof (shr_located N 1 N loc_Exact c 1 ltac:(lia) HN0 ltac:(cbn; lia)) as H2.
    destruct (shr (shr_record_of_loc N loc_Exact) c 1) as [mrs'' e''].
    destruct H2 as [_ [Hm'' He'']].
    assert (Hm52 : shr_m mrs'' = 2 ^ 52) by (rewrite Hm'', HN; reflexivity).
    replace e'' with (c + 1) by lia. clear He''.
    change (emax - prec) with 971.
    destruct (shr_m mrs'') as [| n | n] eqn:En; try (exfalso; pose proof (pow2_pos 52); lia).
    destruct (Z.leb_spec (c + 1) 971) as [Hfin | Hinf].
    + split; [reflexivity | split].
      * apply valid_finite. rewrite Hm52. change (Zdigits2 (2 ^ 52)) with 53. lia.
      * cbn [SFord]. f_equal. rewrite Hm52, HN.
        rewrite <- !pow2_add by lia.
        rewrite Z.min_l; [f_equal; lia |].
        unfold INF. apply pow2_le. lia.
    + split; [reflexivity | split; [reflexivity |]].
      cbn [SFord]. f_equal. rewrite HN. rewrite Z.min_r; [reflexivity |].
      unfold INF. rewrite <- pow2_add by lia. apply pow2_le. lia.
  - assert (HNlt : N < 2 ^ 53) by lia.
    assert (Hdig : Zdigits2 N <= 53) by (apply Zdigits2_le; lia).
    assert (Hnoshift : Z.max (Zdigits2 N + c - 53) (-1074) - c <= 0) by lia.
    assert (Hshr : shr (shr_record_of_loc N loc_Exact) c
                     (Z.max (Zdigits2 N + c - 53) (-1074) - c)
                   = (shr_record_of_loc N loc_Exact, c)).
    { unfold shr. destruct (Z.max (Zdigits2 N + c - 53) (-1074) - c); try reflexivity. lia. }
    rewrite Hshr. cbn [shr_record_of_loc shr_m].
    change (emax - prec) with 971.
    destruct N as [| n | n] eqn:EN; try lia.
    + split; [reflexivity | split; [reflexivity |]].
      cbn [SFord]. rewrite Z.mul_0_l. rewrite Z.min_l by (pose proof INF_pos; lia).
      now destruct s.
    + destruct (Z.leb_spec c 971) as [Hfin | Hinf].
      * split; [reflexivity | split].
        -- apply valid_finite. split; [| lia].
           destruct (Z_le_gt_dec c (-1074)) as [Hsub | Hnorm]; [lia |].
           specialize (HNlo ltac:(lia)).
           pose proof (Zdigits2_ge (Z.pos n) 52 ltac:(lia) HNlo). lia.
        -- cbn [SFord]. f_equal. rewrite Z.min_l; [reflexivity |].
           unfold INF. replace 2098 with (53 + (971 + 1074)) by lia.
           rewrite (pow2_add 53) by lia.
           assert (2 ^ (c + 1074) <= 2 ^ (971 + 1074)) by (apply pow2_le; lia).
           nia.
      * split; [reflexivity | split; [reflexivity |]].
        cbn [SFord]. f_equal. rewrite Z.min_r; [reflexivity |].
        specialize (HNlo ltac:(lia)).
        unfold INF. replace 2098 with (52 + (972 + 1074)) by lia.
        rewrite (pow2_add 52) by lia.
        assert (2 ^ (972 + 1074) <= 2 ^ (c + 1074)) by (apply pow2_le; lia).
        nia.
Qed.

(** Where [P/Q * 2^e] lies, given the exponent [c] of its binade; both
    sides in units of [2^e0]. *)
Lemma binade_bounds (P Q e e0 : Z) :
  0 <= P -> 0 < Q -> e0 <= e ->
  let c := fexp prec emax (Zdigits2 (P / Q) + e) in
  e <= c ->
  P * 2 ^ (e - e0) < Q * 2 ^ (c + 53 - e0)
  /\ (-1074 < c -> Q * 2 ^ (c + 52 - e0) <= P * 2 ^ (e - e0)).
Proof.
  intros HP HQ He0 c Hec.
  assert (Hc : c = Z.max (Zdigits2 (P / Q) + e - 53) (-1074)) by (unfold c; apply fexp_eq).
  set (m := P / Q) in *.
  assert (Hm0 : 0 <= m) by (apply Z.div_pos; lia).
  pose proof (Z.div_mod P Q ltac:(lia)) as Hdm. fold m in Hdm.
  pose proof (Z.mod_pos_bound P Q HQ) as Hmod.
  pose proof (Zdigits2_nonneg m) as Hd0.
  assert (Hk : 0 < 2 ^ (e - e0)) by (apply pow2_pos; lia).
  split.
  - assert (Hm1 : m + 1 <= 2 ^ Zdigits2 m).
    { destruct (Z.eq_dec m 0) as [E | E]; [rewrite E; cbn; lia |].
      destruct (Zdigits2_bounds m ltac:(lia)). lia. }
    assert (Hpw : 2 ^ Zdigits2 m <= 2 ^ (c + 53 - e)) by (apply pow2_le; lia).
    assert (HPlt : P < Q * 2 ^ (c + 53 - e)) by nia.
    replace (c + 53 - e0) with ((c + 53 - e) + (e - e0)) by lia.
    rewrite pow2_add by lia. rewrite Z.mul_assoc.
    apply Z.mul_lt_mono_pos_r; assumption.
  - intros Hnorm.
    assert (Hce : c = Zdigits2 m + e - 53) by lia.
    assert (Hmpos : 0 < m).
    { destruct (Z.eq_dec m 0) as [E | E]; [rewrite E in Hce; cbn in Hce; lia | lia]. }
    destruct (Zdigits2_bounds m Hmpos) as [Hlo _].
    replace (c + 52 - e0) with ((Zdigits2 m - 1) + (e - e0)) by lia.
    rewrite pow2_add by lia. rewrite Z.mul_assoc.
    apply Z.mul_le_mono_nonneg_r; [lia |]. nia.
Qed.

(** Rounding keeps the order: the abstract statement, both rationals over
    the same denominator and in the same unit [2^e0]. *)
Lemma round_abstract_monotone (A1 A2 Q e0 c1 c2 : Z) :
  0 <= A1 <= A2 -> 0 < Q ->
  e0 <= c1 -> e0 <= c2 -> -1074 <= c1 -> -1074 <= c2 ->
  A1 < Q * 2 ^ (c1 + 53 - e0) ->
  (-1074 < c1 -> Q * 2 ^ (c1 + 52 - e0) <= A1) ->
  A2 < Q * 2 ^ (c2 + 53 - e0) ->
  (-1074 < c2 -> Q * 2 ^ (c2 + 52 - e0) <= A2) ->
  round_half_even_div A1 (Q * 2 ^ (c1 - e0)) * 2 ^ (c1 + 1074)
  <= round_half_even_div A2 (Q * 2 ^ (c2 - e0)) * 2 ^ (c2 + 1074).
Proof.
  intros HA HQ H01 H02 Hc1 Hc2 Hu1 Hl1 Hu2 Hl2.
  assert (HD1 : 0 < Q * 2 ^ (c1 - e0)).
  { apply Z.mul_pos_pos; [lia | apply pow2_pos; lia]. }
  assert (HD2 : 0 < Q * 2 ^ (c2 - e0)).
  { apply Z.mul_pos_pos; [lia | apply pow2_pos; lia]. }
  destruct (Z.lt_trichotomy c1 c2) as [Hlt | [Heq | Hgt]].
  - (* the binades differ: a power of two lies between the two values *)
    specialize (Hl2 ltac:(lia)).
    assert (H1 : round_half_even_div A1 (Q * 2 ^ (c1 - e0)) <= 2 ^ ((c2 + 52) - c1)).
    { apply RNE_le; [exact HD1 |].
      replace (2 ^ ((c2 + 52) - c1) * (Q * 2 ^ (c1 - e0))) with (Q * 2 ^ ((c2 + 52) - e0)).
      - assert (2 ^ (c1 + 53 - e0) <= 2 ^ ((c2 + 52) - e0)) by (apply pow2_le; lia).
        nia.
      - replace ((c2 + 52) - e0) with (((c2 + 52) - c1) + (c1 - e0)) by lia.
        rewrite pow2_add by lia. ring. }
    assert (H2 : 2 ^ ((c2 + 52) - c2) <= round_half_even_div A2 (Q * 2 ^ (c2 - e0))).
    { apply RNE_ge; [exact HD2 |].
      replace (2 ^ ((c2 + 52) - c2) * (Q * 2 ^ (c2 - e0))) with (Q * 2 ^ ((c2 + 52) - e0)).
      - exact Hl2.
      - replace ((c2 + 52) - e0) with (((c2 + 52) - c2) + (c2 - e0)) by lia.
        rewrite pow2_add by lia. ring. }
    assert (Hp1 : 0 < 2 ^ (c1 + 1074)) by (apply pow2_pos; lia).
    assert (Hp2 : 0 < 2 ^ (c2 + 1074)) by (apply pow2_pos; lia).
    apply Z.le_trans with (2 ^ ((c2 + 52) + 1074)).
    + replace ((c2 + 52) + 1074) with (((c2 + 52) - c1) + (c1 + 1074)) by lia.
      rewrite (pow2_add ((c2 + 52) - c1) (c1 + 1074)) by lia.
      apply Z.mul_le_mono_nonneg_r; lia.
    + replace ((c2 + 52) + 1074) with (((c2 + 52) - c2) + (c2 + 1074)) by lia.
      rewrite (pow2_add ((c2 + 52) - c2) (c2 + 1074)) by lia.
      apply Z.mul_le_mono_nonneg_r; lia.
  - subst c2.
    apply Z.mul_le_mono_nonneg_r; [pose proof (pow2_pos (c1 + 1074)); lia |].
    apply RNE_monotone; lia.
  - exfalso. specialize (Hl1 ltac:(lia)).
    assert (2 ^ (c2 + 53 - e0) <= 2 ^ (c1 + 52 - e0)) by (apply pow2_le; lia).
    nia.
Qed.

(** Rounding keeps the order of two rationals over the same denominator. *)
Lemma round_scaled_monotone (P1 P2 Q e1 e2 e0 : Z) :
  0 <= P1 -> 0 <= P2 -> 0 < Q -> e0 <= e1 -> e0 <= e2 ->
  e1 <= fexp prec emax (Zdigits2 (P1 / Q) + e1) ->
  e2 <= fexp prec emax (Zdigits2 (P2 / Q) + e2) ->
  P1 * 2 ^ (e1 - e0) <= P2 * 2 ^ (e2 - e0) ->
  round_scaled P1 Q e1 <= round_scaled P2 Q e2.
Proof.
  intros HP1 HP2 HQ H01 H02 Hc1 Hc2 Hle. unfold round_scaled.
  set (c1 := fexp prec emax (Zdigits2 (P1 / Q) + e1)) in *.
  set (c2 := fexp prec emax (Zdigits2 (P2 / Q) + e2)) in *.
  assert (Hc1m : -1074 <= c1) by (unfold c1; rewrite fexp_eq; lia).
  assert (Hc2m : -1074 <= c2) by (unfold c2; rewrite fexp_eq; lia).
  assert (Hk1 : 0 < 2 ^ (e1 - e0)) by (apply pow2_pos; lia).
  assert (Hk2 : 0 < 2 ^ (e2 - e0)) by (apply pow2_pos; lia).
  destruct (binade_bounds P1 Q e1 e0 HP1 HQ H01 Hc1) as [Hu1 Hl1]. fold c1 in Hu1, Hl1.
  destruct (binade_bounds P2 Q e2 e0 HP2 HQ H02 Hc2) as [Hu2 Hl2]. fold c2 in Hu2, Hl2.
  assert (R1 : round_half_even_div P1 (Q * 2 ^ (c1 - e1))
               = round_half_even_div (P1 * 2 ^ (e1 - e0)) (Q * 2 ^ (c1 - e0))).
  { rewrite <- (RNE_scale (2 ^ (e1 - e0)) P1 (Q * 2 ^ (c1 - e1)) Hk1).
    - f_equal; [ring |].
      replace (c1 - e0) with ((e1 - e0) + (c1 - e1)) by lia.
      rewrite pow2_add by lia. ring.
    - apply Z.mul_pos_pos; [lia | apply pow2_pos; lia]. }
  assert (R2 : round_half_even_div P2 (Q * 2 ^ (c2 - e2))
               = round_half_even_div (P2 * 2 ^ (e2 - e0)) (Q * 2 ^ (c2 - e0))).
  { rewrite <- (RNE_scale (2 ^ (e2 - e0)) P2 (Q * 2 ^ (c2 - e2)) Hk2).
    - f_equal; [ring |].
      replace (c2 - e0) with ((e2 - e0) + (c2 - e2)) by lia.
      rewrite pow2_add by lia. ring.
    - apply Z.mul_pos_pos; [lia | apply pow2_pos; lia]. }
  rewrite R1, R2.
  apply round_abstract_monotone; try assumption; try lia.
Qed.

Lemma round_scaled_nonneg (P Q e : Z) :
  0 <= P -> 0 < Q -> e <= fexp prec emax (Zdigits2 (P / Q) + e) ->
  0 <= round_scaled P Q e.
Proof.
  intros HP HQ Hle. unfold round_scaled.
  set (c := fexp prec emax (Zdigits2 (P / Q) + e)) in *.
  assert (Hc : -1074 <= c) by (unfold c; rewrite fexp_eq; lia).
  apply Z.mul_nonneg_nonneg; [| pose proof (pow2_pos (c + 1074)); lia].
  apply RNE_nonneg; [lia |]. apply Z.mul_pos_pos; [lia | apply pow2_pos; lia].
Qed.

(** ** The order of valid floats *)
Lemma valid_finite_bounds (s : bool) (m : positive) (e : Z) :
  valid_binary (S754_finite s m e) = true ->
  -1074 <= e <= 971 /\ Zpos m < 2 ^ 53 /\ (-1074 < e -> 2 ^ 52 <= Zpos m)
  /\ 0 < Zpos m * 2 ^ (e + 1074) < INF.
Proof.
  intros Hv. apply valid_finite in Hv. destruct Hv as [Hc He].
  destruct (Zdigits2_bounds (Zpos m) ltac:(lia)) as [Hlo Hhi].
  assert (Hd : Zdigits2 (Zpos m) <= 53) by lia.
  assert (Hm : Zpos m < 2 ^ 53).
  { eapply Z.lt_le_trans; [exact Hhi |]. apply pow2_le.
    pose proof (Zdigits2_nonneg (Zpos m)). lia. }
  assert (Hp : 0 < 2 ^ (e + 1074)) by (apply pow2_pos; lia).
  repeat split; try lia.
  - intros Hn. assert (Zdigits2 (Zpos m) = 53) by lia.
    replace 52 with (Zdigits2 (Zpos m) - 1) by lia. exact Hlo.
  - unfold INF. replace 2098 with (53 + (971 + 1074)) by lia.
    rewrite (pow2_add 53) by lia.
    assert (2 ^ (e + 1074) <= 2 ^ (971 + 1074)) by (apply pow2_le; lia).
    nia.
Qed.

Lemma valid_finite_exponent_order (s1 s2 : bool) (m1 m2 : positive) (e1 e2 : Z) :
  valid_binary (S754_finite s1 m1 e1) = true ->
  valid_binary (S754_finite s2 m2 e2) = true ->
  e1 < e2 ->
  Zpos m1 * 2 ^ (e1 + 1074) < Zpos m2 * 2 ^ (e2 + 1074).
Proof.
  intros H1 H2 Hlt.
  destruct (valid_finite_bounds _ _ _ H1) as [He1 [Hm1 _]].
  destruct (valid_finite_bounds _ _ _ H2) as [He2 [_ [Hm2 _]]].
  specialize (Hm2 ltac:(lia)).
  assert (Hp1 : 0 < 2 ^ (e1 + 1074)) by (apply pow2_pos; lia).
  apply Z.lt_le_trans with (2 ^ 53 * 2 ^ (e1 + 1074)); [nia |].
  apply Z.le_trans with (2 ^ 52 * 2 ^ (e2 + 1074)).
  - rewrite <- !pow2_add by lia. apply pow2_le. lia.
  - apply Z.mul_le_mono_nonneg_r; [| exact Hm2]. pose proof (pow2_pos (e2 + 1074)); lia.
Qed.

Lemma SFord_bounds (x : spec_float) : valid_binary x = true -> - INF <= SFord x <= INF.
Proof.
  pose proof INF_pos. destruct x as [s | s | | s m e]; cbn [SFord]; intros Hv.
  - lia.
  - destruct s; cbn [SFord cond_Zopp]; lia.
  - lia.
  - destruct (valid_finite_bounds _ _ _ Hv) as [_ [_ [_ Hb]]]. destruct s; cbn [SFord cond_Zopp]; lia.
Qed.

Lemma SFord_finite_sign (s : bool) (m : positive) (e : Z) :
  valid_binary (S754_finite s m e) = true ->
  if s then - INF < SFord (S754_finite s m e) < 0
  else 0 < SFord (S754_finite s m e) < INF.
Proof.
  intros Hv. destruct (valid_finite_bounds _ _ _ Hv) as [_ [_ [_ Hb]]].
  destruct s; cbn [SFord cond_Zopp]; lia.
Qed.

(** [x < y] on valid floats is the order of [SFord]. *)
Lemma SFltb_SFord (x y : spec_float) :
  valid_binary x = true -> valid_binary y = true ->
  SFltb x y = true -> SFord x < SFord y.
Proof.
  intros Hx Hy. pose proof INF_pos as HI. unfold SFltb, SFcompare.
  destruct x as [sx | sx | | sx mx ex]; destruct y as [sy | sy | | sy my ey];
    try discriminate.
  - (* zero, infinity *) destruct sy; cbn [SFord cond_Zopp]; [discriminate | lia].
  - (* zero, finite *)
    pose proof (SFord_finite_sign _ _ _ Hy) as H. destruct sy; [discriminate | cbn [SFord cond_Zopp] in *; lia].
  - (* infinity, zero *) destruct sx; cbn [SFord cond_Zopp]; [lia | discriminate].
  - (* infinity, infinity *) destruct sx, sy; cbn [SFord cond_Zopp]; try discriminate; lia.
  - (* infinity, finite *)
    pose proof (SFord_finite_sign _ _ _ Hy) as H.
    destruct sx; [| discriminate]. destruct sy; cbn [SFord cond_Zopp] in *; lia.
  - (* finite, zero *)
    pose proof (SFord_finite_sign _ _ _ Hx) as H. destruct sx; [cbn [SFord cond_Zopp] in *; lia | discriminate].
  - (* finite, infinity *)
    pose proof (SFord_finite_sign _ _ _ Hx) as H.
    destruct sy; [discriminate |]. destruct sx; cbn [SFord cond_Zopp] in *; lia.
  - (* finite, finite *)
    pose proof (SFord_finite_sign _ _ _ Hx) as H1.
    pose proof (SFord_finite_sign _ _ _ Hy) as H2.
    destruct sx, sy; try discriminate; cbn [SFord cond_Zopp] in *.
    + destruct (Z.compare_spec ex ey) as [E | E | E]; try discriminate.
      * subst ey. change (Pos.compare_cont Eq mx my) with (Pos.compare mx my).
        destruct (Pos.compare_spec mx my) as [E | E | E]; try discriminate.
        intros _. assert (0 < 2 ^ (ex + 1074)) by nia. nia.
      * intros _.
        pose proof (valid_finite_exponent_order _ _ _ _ _ _ Hy Hx E). lia.
    + intros _. lia.
    + destruct (Z.compare_spec ex ey) as [E | E | E]; try discriminate.
      * subst ey. change (Pos.compare_cont Eq mx my) with (Pos.compare mx my).
        destruct (Pos.compare_spec mx my) as [E | E | E]; try discriminate.
        intros _. assert (0 < 2 ^ (ex + 1074)) by nia. nia.
      * intros _.
        pose proof (valid_finite_exponent_order _ _ _ _ _ _ Hx Hy E). lia.
Qed.

Lemma SFltb_false_of_SFord (x y : spec_float) :
  valid_binary x = true -> valid_binary y = true ->
  SFord y <= SFord x -> SFltb x y = false.
Proof.
  intros Hx Hy Hle. destruct (SFltb x y) eqn:E; [| reflexivity].
  pose proof (SFltb_SFord x y Hx Hy E). lia.
Qed.

Lemma SFltb_nan_l (y : spec_float) : SFltb S754_nan y = false.
Proof. reflexivity. Qed.

Lemma SFltb_nan_r (x : spec_float) : SFltb x S754_nan = false.
Proof. destruct x; reflexivity. Qed.

Lemma binary_round_aux_ord (s : bool) (P Q m e : Z) (l : location) :
  0 < Q -> 0 <= m -> located P Q m l ->
  e <= fexp prec emax (Zdigits2 m + e) ->
  let r := binary_round_aux prec emax s m e l in
  SFsign_is s r
  /\ valid_binary r = true
  /\ e <= fexp prec emax (Zdigits2 (P / Q) + e)
  /\ SFord r = cond_Zopp s (Z.min (round_scaled P Q e) INF).
Proof.
  intros HQ Hm Hloc Hle r.
  destruct (binary_round_aux_spec s P Q m e l HQ Hm Hloc Hle) as [H1 [H2 H3]].
  destruct (located_div P Q m l HQ Hloc) as [Hdiv _].
  unfold round_scaled. rewrite Hdiv. repeat split; assumption.
Qed.

(** The sign of a rounded result needs no side condition. *)
Lemma binary_round_aux_sign (s : bool) (m e : Z) (l : location) :
  binary_round_aux prec emax s m e l = S754_nan
  \/ SFsign_is s (binary_round_aux prec emax s m e l).
Proof.
  unfold binary_round_aux.
  destruct (shr_fexp prec emax m e l) as [mrs' e'].
  destruct (shr_fexp prec emax _ e' loc_Exact) as [mrs'' e''].
  destruct (shr_m mrs'') as [| p | p]; [right; reflexivity | | left; reflexivity].
  destruct (e'' <=? emax - prec); right; reflexivity.
Qed.

Lemma Pos_iter_xO (m d : positive) : Zpos (Pos.iter xO m d) = Zpos m * 2 ^ Zpos d.
Proof.
  induction d as [| d IH] using Pos.peano_ind.
  - cbn [Pos.iter]. rewrite Z.pow_1_r. lia.
  - rewrite Pos.iter_succ, Pos2Z.inj_xO, IH, Pos2Z.inj_succ.
    rewrite Z.pow_succ_r by lia. ring.
Qed.

Lemma Zdigits2_unique (x a : Z) : 0 < a -> 2 ^ (a - 1) <= x < 2 ^ a -> Zdigits2 x = a.
Proof.
  intros Ha [Hlo Hhi].
  assert (0 < x) by (pose proof (pow2_pos (a - 1)); lia).
  pose proof (Zdigits2_le x a ltac:(lia) ltac:(lia) Hhi).
  pose proof (Zdigits2_ge x (a - 1) ltac:(lia) Hlo). lia.
Qed.

Lemma Zdigits2_shift (m k : Z) : 0 < m -> 0 <= k -> Zdigits2 (m * 2 ^ k) = Zdigits2 m + k.
Proof.
  intros Hm Hk. destruct (Zdigits2_bounds m Hm) as [Hlo Hhi].
  pose proof (Zdigits2_pos m Hm) as Hd. pose proof (pow2_pos k Hk) as Hp.
  apply Zdigits2_unique; [lia |]. split.
  - replace (Zdigits2 m + k - 1) with ((Zdigits2 m - 1) + k) by lia.
    rewrite pow2_add by lia. nia.
  - rewrite pow2_add by lia. nia.
Qed.

Lemma shl_align_spec (m : positive) (e e' : Z) :
  let '(mz, ez) := shl_align m e e' in
  ez = Z.min e e' /\ Zpos mz = Zpos m * 2 ^ (e - ez).
Proof.
  unfold shl_align. destruct (e' - e) as [| d | d] eqn:E.
  - split; [lia |]. rewrite Z.sub_diag, Z.pow_0_r. lia.
  - split; [lia |]. rewrite Z.sub_diag, Z.pow_0_r. lia.
  - split; [lia |]. rewrite Pos_iter_xO. f_equal. f_equal. lia.
Qed.

(** [binary_round]: the float nearest to [m * 2^e]. *)
Lemma binary_round_ord (s : bool) (m : positive) (e : Z) :
  -1074 <= e ->
  let r := binary_round prec emax s m e in
  SFsign_is s r
  /\ valid_binary r = true
  /\ exists P' e',
       0 < P' /\ -1074 <= e'
       /\ e' <= fexp prec emax (Zdigits2 (P' / 1) + e')
       /\ P' * 2 ^ (e' + 1074) = Zpos m * 2 ^ (e + 1074)
       /\ SFord r = cond_Zopp s (Z.min (round_scaled P' 1 e') INF).
Proof.
  intros He r. unfold r, binary_round.
  pose proof (shl_align_spec m e (fexp prec emax (Z.pos (digits2_pos m) + e))) as Hsh.
  change (Z.pos (digits2_pos m)) with (Zdigits2 (Z.pos m)) in *.
  destruct (shl_align m e (fexp prec emax (Zdigits2 (Z.pos m) + e))) as [mz ez].
  destruct Hsh as [Hez Hmz].
  assert (Hc : fexp prec emax (Zdigits2 (Z.pos m) + e)
               = Z.max (Zdigits2 (Z.pos m) + e - 53) (-1074)) by apply fexp_eq.
  assert (Hez0 : -1074 <= ez) by lia.
  assert (Hdig : Zdigits2 (Z.pos mz) + ez = Zdigits2 (Z.pos m) + e).
  { rewrite Hmz, Zdigits2_shift by lia. lia. }
  assert (Hpre : ez <= fexp prec emax (Zdigits2 (Z.pos mz) + ez)) by (rewrite Hdig; lia).
  assert (Hloc : located (Z.pos mz) 1 (Z.pos mz) loc_Exact) by (cbn [located]; lia).
  destruct (binary_round_aux_ord s (Z.pos mz) 1 (Z.pos mz) ez loc_Exact
              ltac:(lia) ltac:(lia) Hloc Hpre) as [H1 [H2 [H3 H4]]].
  split; [exact H1 | split; [exact H2 |]].
  exists (Z.pos mz), ez. repeat split; try assumption; try lia.
  rewrite Hmz. rewrite <- Z.mul_assoc. f_equal.
  rewrite <- pow2_add by lia. f_equal. lia.
Qed.

Lemma binary_normalize_valid (M e : Z) (szero : bool):
  -1074 <= e -> valid_binary (binary_normalize prec emax M e szero) = true
              /\ binary_normalize prec emax M e szero <> S754_nan.
Proof.
  intros He. destruct M as [| m | m]; cbn [binary_normalize].
  - split; [reflexivity | discriminate].
  - destruct (binary_round_ord false m e He) as [H1 [H2 _]]. split; [exact H2 |].
    intros E. rewrite E in H1. exact H1.
  - destruct (binary_round_ord true m e He) as [H1 [H2 _]]. split; [exact H2 |].
    intros E. rewrite E in H1. exact H1.
Qed.

Lemma binary_round_monotone (s : bool) (m1 m2 : positive) (e : Z) :
  -1074 <= e -> (m1 <= m2)%positive ->
  exists v1 v2,
    0 <= v1 <= v2
    /\ SFord (binary_round prec emax s m1 e) = cond_Zopp s v1
    /\ SFord (binary_round prec emax s m2 e) = cond_Zopp s v2.
Proof.
  intros He Hle.
  destruct (binary_round_ord s m1 e He) as [_ [_ [P1 [e1 [HP1 [He1 [Hc1 [Hv1 Ho1]]]]]]]].
  destruct (binary_round_ord s m2 e He) as [_ [_ [P2 [e2 [HP2 [He2 [Hc2 [Hv2 Ho2]]]]]]]].
  exists (Z.min (round_scaled P1 1 e1) INF), (Z.min (round_scaled P2 1 e2) INF).
  split; [| split; assumption].
  pose proof INF_pos.
  pose proof (round_scaled_nonneg P1 1 e1 ltac:(lia) ltac:(lia) Hc1).
  assert (round_scaled P1 1 e1 <= round_scaled P2 1 e2).
  { apply (round_scaled_monotone P1 P2 1 e1 e2 (-1074)); try lia; try assumption.
    replace (e1 - -1074) with (e1 + 1074) by lia.
    replace (e2 - -1074) with (e2 + 1074) by lia.
    rewrite Hv1, Hv2. apply Z.mul_le_mono_nonneg_r; [| lia].
    pose proof (pow2_pos (e + 1074)); lia. }
  lia.
Qed.

Lemma binary_round_SFord_nonneg (s : bool) (m : positive) (e : Z) :
  -1074 <= e -> exists v, 0 <= v /\ SFord (binary_round prec emax s m e) = cond_Zopp s v.
Proof.
  intros He. destruct (binary_round_monotone s m m e He ltac:(lia)) as [v [v2 [Hv [Ho _]]]].
  exists v. split; [lia | exact Ho].
Qed.

(** [binary_normalize] keeps the order of the integers it rounds. *)
Lemma binary_normalize_monotone (M1 M2 e : Z) :
  -1074 <= e -> M1 <= M2 ->
  SFord (binary_normalize prec emax M1 e false)
  <= SFord (binary_normalize prec emax M2 e false).
Proof.
  intros He Hle.
  destruct M1 as [| m1 | m1]; destruct M2 as [| m2 | m2]; try lia;
    cbn [binary_normalize SFord].
  - destruct (binary_round_SFord_nonneg false m2 e He) as [v [Hv Ho]].
    rewrite Ho. cbn [cond_Zopp]. lia.
  - destruct (binary_round_monotone false m1 m2 e He ltac:(lia)) as [v1 [v2 [Hv [Ho1 Ho2]]]].
    rewrite Ho1, Ho2. cbn [cond_Zopp]. lia.
  - destruct (binary_round_SFord_nonneg true m1 e He) as [v [Hv Ho]].
    rewrite Ho. cbn [cond_Zopp]. lia.
  - destruct (binary_round_SFord_nonneg true m1 e He) as [v1 [Hv1 Ho1]].
    destruct (binary_round_SFord_nonneg false m2 e He) as [v2 [Hv2 Ho2]].
    rewrite Ho1, Ho2. cbn [cond_Zopp]. lia.
  - destruct (binary_round_monotone true m2 m1 e He ltac:(lia)) as [v2 [v1 [Hv [Ho2 Ho1]]]].
    rewrite Ho1, Ho2. cbn [cond_Zopp]. lia.
Qed.

(** [x - y <= x + y] in floating point, for [y] not negative. *)
Lemma SFadd_SFsub_order (x y : spec_float) :
  valid_binary x = true -> valid_binary y = true -> SFnonneg y ->
  SFadd prec emax x y = S754_nan
  \/ SFsub prec emax x y = S754_nan
  \/ SFord (SFsub prec emax x y) <= SFord (SFadd prec emax x y).
Proof.
  intros Hx Hy Hy0. pose proof INF_pos as HI.
  destruct x as [sx | sx | | sx mx ex]; destruct y as [sy | sy | | sy my ey];
    cbn [SFnonneg] in Hy0; try contradiction; subst;
    try (left; reflexivity).
  - (* zero, zero *) right. right. destruct sx, sy; cbn; lia.
  - (* zero, infinity *) right. right. cbn [SFadd SFsub SFord negb cond_Zopp]. lia.
  - (* zero, finite *)
    right. right. cbn [SFadd SFsub SFord negb cond_Zopp].
    pose proof (Z.pow_nonneg 2 (ey + 1074) ltac:(lia)). nia.
  - (* infinity, zero *) right. right. cbn [SFadd SFsub]. lia.
  - (* infinity, infinity *) destruct sx; [left | right; left]; reflexivity.
  - (* infinity, finite *) right. right. cbn [SFadd SFsub]. lia.
  - (* finite, zero *) right. right. cbn [SFadd SFsub]. lia.
  - (* finite, infinity *) right. right. cbn [SFadd SFsub SFord negb cond_Zopp]. lia.
  - (* finite, finite *)
    right. right. cbn [SFadd SFsub].
    destruct (valid_finite_bounds _ _ _ Hx) as [Hex _].
    destruct (valid_finite_bounds _ _ _ Hy) as [Hey _].
    apply binary_normalize_monotone; [lia |]. cbn [cond_Zopp]. lia.
Qed.

(** ** Division *)
Lemma new_location_located (m' m2 q r : Z) :
  0 < m2 -> m' = m2 * q + r -> 0 <= r < m2 ->
  located m' m2 q (new_location m2 r).
Proof.
  intros Hm2 Hdiv Hr. unfold new_location, new_location_even, new_location_odd.
  destruct (Z.even m2) eqn:Hev.
  - destruct (Z.eqb_spec r 0) as [-> | Hr0]; [cbn [located]; lia |].
    destruct (Z.compare_spec (2 * r) m2); cbn [located]; nia.
  - destruct (Z.eqb_spec r 0) as [-> | Hr0]; [cbn [located]; lia |].
    assert (Hodd : m2 <> 2 * r).
    { intros E. rewrite E, Z.even_mul in Hev. discriminate. }
    destruct (Z.compare_spec (2 * r + 1) m2); cbn [located]; nia.
Qed.

Lemma shift_match (m s : Z) :
  0 <= s ->
  match s with
  | 0 => m
  | Z.pos _ => Z.shiftl m s
  | Z.neg _ => 0
  end = m * 2 ^ s.
Proof.
  intros Hs. destruct s as [| p | p]; try lia.
  apply Z.shiftl_mul_pow2. lia.
Qed.

Lemma SFdiv_core_binary_spec (m1 m2 : positive) (e1 e2 : Z) :
  let '(q, e', l) := SFdiv_core_binary prec emax (Zpos m1) e1 (Zpos m2) e2 in
  e' = Z.min (fexp prec emax (Zdigits2 (Zpos m1) + e1 - (Zdigits2 (Zpos m2) + e2))) (e1 - e2)
  /\ 0 <= q
  /\ located (Zpos m1 * 2 ^ (e1 - e2 - e')) (Zpos m2) q l
  /\ e' <= fexp prec emax (Zdigits2 q + e').
Proof.
  unfold SFdiv_core_binary.
  set (d1 := Zdigits2 (Z.pos m1)). set (d2 := Zdigits2 (Z.pos m2)).
  set (e' := Z.min (fexp prec emax (d1 + e1 - (d2 + e2))) (e1 - e2)).
  set (s := e1 - e2 - e').
  assert (Hs : 0 <= s) by (unfold s, e'; lia).
  set (m' := match s with
             | 0 => Z.pos m1
             | Z.pos _ => Z.shiftl (Z.pos m1) s
             | Z.neg _ => 0
             end).
  assert (Hm' : m' = Z.pos m1 * 2 ^ s) by (unfold m'; apply shift_match; exact Hs).
  pose proof (Z_div_mod m' (Z.pos m2) ltac:(lia)) as Hdm.
  destruct (Z.div_eucl m' (Z.pos m2)) as [q r]. destruct Hdm as [Hdiv Hr].
  assert (Hm'pos : 0 < m') by (rewrite Hm'; pose proof (pow2_pos s Hs); nia).
  assert (Hq : 0 <= q) by nia.
  split; [reflexivity | split; [exact Hq | split]].
  - change (e1 - e2 - e') with s. rewrite <- Hm'. apply new_location_located; lia.
  - (* the quotient has enough digits *)
    assert (Hdq : d1 + s - d2 <= Zdigits2 q).
    { destruct (Z_le_gt_dec (d1 + s - d2) 0) as [Hle | Hgt].
      - pose proof (Zdigits2_nonneg q). lia.
      - destruct (Zdigits2_bounds (Z.pos m1) ltac:(lia)) as [Hlo1 _].
        destruct (Zdigits2_bounds (Z.pos m2) ltac:(lia)) as [_ Hhi2].
        fold d1 in Hlo1. fold d2 in Hhi2.
        pose proof (Zdigits2_pos (Z.pos m1) ltac:(lia)) as Hd1. fold d1 in Hd1.
        pose proof (Zdigits2_pos (Z.pos m2) ltac:(lia)) as Hd2. fold d2 in Hd2.
        assert (Hqlo : 2 ^ (d1 + s - d2 - 1) <= q).
        { assert (H : 2 ^ (d1 + s - d2 - 1) * 2 ^ d2 <= m').
          { rewrite <- pow2_add by lia. rewrite Hm'.
            replace (d1 + s - d2 - 1 + d2) with ((d1 - 1) + s) by lia.
            rewrite pow2_add by lia.
            apply Z.mul_le_mono_nonneg_r; [pose proof (pow2_pos s Hs); lia | exact Hlo1]. }
          assert (Hp : 0 <= 2 ^ (d1 + s - d2 - 1)) by (apply Z.pow_nonneg; lia).
          destruct (Z_le_gt_dec (2 ^ (d1 + s - d2 - 1)) q) as [Hok | Hbad]; [exact Hok |].
          exfalso. nia. }
        pose proof (Zdigits2_ge q (d1 + s - d2 - 1) ltac:(lia) Hqlo). lia. }
    rewrite !fexp_eq. unfold e' at 1. rewrite fexp_eq. unfold s in Hdq. lia.
Qed.

(** The quotient of two finite floats, rounded. *)
Lemma SFdiv_finite_ord (sx sy : bool) (mx my : positive) (ex ey : Z) :
  let r := SFdiv prec emax (S754_finite sx mx ex) (S754_finite sy my ey) in
  exists P e',
    0 < P
    /\ e' = Z.min (fexp prec emax (Zdigits2 (Zpos mx) + ex - (Zdigits2 (Zpos my) + ey)))
              (ex - ey)
    /\ P = Zpos mx * 2 ^ (ex - ey - e')
    /\ e' <= fexp prec emax (Zdigits2 (P / Zpos my) + e')
    /\ SFsign_is (xorb sx sy) r
    /\ SFord r = cond_Zopp (xorb sx sy) (Z.min (round_scaled P (Zpos my) e') INF).
Proof.
  intros r. unfold r. cbn [SFdiv].
  pose proof (SFdiv_core_binary_spec mx my ex ey) as H.
  destruct (SFdiv_core_binary prec emax (Z.pos mx) ex (Z.pos my) ey) as [[q e'] l].
  destruct H as [He' [Hq [Hloc Hpre]]].
  destruct (binary_round_aux_ord (xorb sx sy) _ (Z.pos my) q e' l ltac:(lia) Hq Hloc Hpre)
    as [H1 [H2 [H3 H4]]].
  exists (Z.pos mx * 2 ^ (ex - ey - e')), e'.
  assert (0 <= ex - ey - e') by lia.
  repeat split; try assumption.
  apply Z.mul_pos_pos; [lia | apply pow2_pos; lia].
Qed.

Lemma SFdiv_finite_monotone (s1 s2 sd : bool) (m1 m2 md : positive) (e1 e2 ed : Z) :
  -1074 <= e1 -> -1074 <= e2 ->
  Zpos m1 * 2 ^ (e1 + 1074) <= Zpos m2 * 2 ^ (e2 + 1074) ->
  exists v1 v2,
    0 <= v1 <= v2 /\ v2 <= INF
    /\ SFord (SFdiv prec emax (S754_finite s1 m1 e1) (S754_finite sd md ed))
       = cond_Zopp (xorb s1 sd) v1
    /\ SFord (SFdiv prec emax (S754_finite s2 m2 e2) (S754_finite sd md ed))
       = cond_Zopp (xorb s2 sd) v2.
Proof.
  intros He1 He2 Hle.
  destruct (SFdiv_finite_ord s1 sd m1 md e1 ed) as [P1 [e1' [HP1 [He1' [HP1e [Hc1 [_ Ho1]]]]]]].
  destruct (SFdiv_finite_ord s2 sd m2 md e2 ed) as [P2 [e2' [HP2 [He2' [HP2e [Hc2 [_ Ho2]]]]]]].
  exists (Z.min (round_scaled P1 (Z.pos md) e1') INF),
         (Z.min (round_scaled P2 (Z.pos md) e2') INF).
  pose proof INF_pos as HI.
  pose proof (round_scaled_nonneg P1 (Z.pos md) e1' ltac:(lia) ltac:(lia) Hc1) as Hn1.
  split; [| split; [lia | split; assumption]].
  set (e0 := Z.min (-1074) (-1074 - ed)).
  assert (Hf1 : -1074 <= fexp prec emax (Zdigits2 (Z.pos m1) + e1 - (Zdigits2 (Z.pos md) + ed)))
    by (rewrite fexp_eq; lia).
  assert (Hf2 : -1074 <= fexp prec emax (Zdigits2 (Z.pos m2) + e2 - (Zdigits2 (Z.pos md) + ed)))
    by (rewrite fexp_eq; lia).
  assert (Hmono : round_scaled P1 (Z.pos md) e1' <= round_scaled P2 (Z.pos md) e2').
  { apply (round_scaled_monotone P1 P2 (Z.pos md) e1' e2' e0);
      try lia; try assumption; try (unfold e0; lia).
    assert (Hk : 0 <= -1074 - ed - e0) by (unfold e0; lia).
    assert (E1 : P1 * 2 ^ (e1' - e0)
                 = Z.pos m1 * 2 ^ (e1 + 1074) * 2 ^ (-1074 - ed - e0)).
    { rewrite HP1e. rewrite <- !Z.mul_assoc. f_equal.
      rewrite <- (pow2_add (e1 - ed - e1') (e1' - e0)) by (unfold e0; lia).
      rewrite <- (pow2_add (e1 + 1074) (-1074 - ed - e0)) by lia.
      f_equal. lia. }
    assert (E2 : P2 * 2 ^ (e2' - e0)
                 = Z.pos m2 * 2 ^ (e2 + 1074) * 2 ^ (-1074 - ed - e0)).
    { rewrite HP2e. rewrite <- !Z.mul_assoc. f_equal.
      rewrite <- (pow2_add (e2 - ed - e2') (e2' - e0)) by (unfold e0; lia).
      rewrite <- (pow2_add (e2 + 1074) (-1074 - ed - e0)) by lia.
      f_equal. lia. }
    rewrite E1, E2.
    apply Z.mul_le_mono_nonneg_r; [| exact Hle].
    apply Z.pow_nonneg. lia. }
  lia.
Qed.

Lemma SFdiv_finite_magnitude (s sd : bool) (m md : positive) (e ed : Z) :
  -1074 <= e ->
  exists v, 0 <= v <= INF
            /\ SFord (SFdiv prec emax (S754_finite s m e) (S754_finite sd md ed))
               = cond_Zopp (xorb s sd) v.
Proof.
  intros He.
  destruct (SFdiv_finite_monotone s s sd m m md e e ed He He ltac:(lia))
    as [v [v' [Hv [Hv' [Ho _]]]]].
  exists v. split; [lia | exact Ho].
Qed.

(** Division by a positive float keeps the order. *)
Lemma SFdiv_order (n1 n2 d : spec_float) :
  valid_binary n1 = true -> valid_binary n2 = true -> SFpositive d ->
  SFord n2 <= SFord n1 ->
  SFdiv prec emax n1 d = S754_nan
  \/ SFdiv prec emax n2 d = S754_nan
  \/ SFord (SFdiv prec emax n2 d) <= SFord (SFdiv prec emax n1 d).
Proof.
  intros H1 H2 Hd Hle. pose proof INF_pos as HI.
  destruct d as [sd | sd | | sd md ed]; cbn [SFpositive] in Hd; try contradiction; subst sd.
  - (* an infinite divisor *)
    destruct n1 as [s1 | s1 | | s1 m1 e1]; try (left; reflexivity);
      destruct n2 as [s2 | s2 | | s2 m2 e2]; try (right; left; reflexivity);
      right; right; cbn [SFdiv SFord]; lia.
  - (* a finite divisor *)
    destruct n1 as [s1 | s1 | | s1 m1 e1]; try (left; reflexivity);
      destruct n2 as [s2 | s2 | | s2 m2 e2]; try (right; left; reflexivity);
      right; right.
    + (* zero, zero *) cbn [SFdiv SFord]. lia.
    + (* zero, infinity *)
      cbn [SFdiv SFord] in *. rewrite xorb_false_r. exact Hle.
    + (* zero, finite *)
      destruct (valid_finite_bounds _ _ _ H2) as [He2 _].
      pose proof (SFord_finite_sign _ _ _ H2) as Hs2.
      destruct (SFdiv_finite_magnitude s2 false m2 md e2 ed ltac:(lia)) as [v [Hv Ho]].
      rewrite Ho, xorb_false_r. cbn [SFdiv SFord] in *.
      destruct s2; cbn [cond_Zopp] in *; lia.
    + (* infinity, zero *)
      cbn [SFdiv SFord] in *. rewrite xorb_false_r. exact Hle.
    + (* infinity, infinity *)
      cbn [SFdiv SFord] in *. rewrite !xorb_false_r. exact Hle.
    + (* infinity, finite *)
      destruct (valid_finite_bounds _ _ _ H2) as [He2 _].
      pose proof (SFord_finite_sign _ _ _ H2) as Hs2.
      destruct (SFdiv_finite_magnitude s2 false m2 md e2 ed ltac:(lia)) as [v [Hv Ho]].
      rewrite Ho. cbn [SFdiv SFord] in *. rewrite !xorb_false_r.
      destruct s1, s2; cbn [cond_Zopp] in *; lia.
    + (* finite, zero *)
      destruct (valid_finite_bounds _ _ _ H1) as [He1 _].
      pose proof (SFord_finite_sign _ _ _ H1) as Hs1.
      destruct (SFdiv_finite_magnitude s1 false m1 md e1 ed ltac:(lia)) as [v [Hv Ho]].
      rewrite Ho, xorb_false_r. cbn [SFdiv SFord] in *.
      destruct s1; cbn [cond_Zopp] in *; lia.
    + (* finite, infinity *)
      destruct (valid_finite_bounds _ _ _ H1) as [He1 _].
      pose proof (SFord_finite_sign _ _ _ H1) as Hs1.
      destruct (SFdiv_finite_magnitude s1 false m1 md e1 ed ltac:(lia)) as [v [Hv Ho]].
      rewrite Ho. cbn [SFdiv SFord] in *. rewrite !xorb_false_r.
      destruct s1, s2; cbn [cond_Zopp] in *; lia.
    + (* finite, finite *)
      destruct (valid_finite_bounds _ _ _ H1) as [He1 _].
      destruct (valid_finite_bounds _ _ _ H2) as [He2 _].
      pose proof (SFord_finite_sign _ _ _ H1) as Hs1.
      pose proof (SFord_finite_sign _ _ _ H2) as Hs2.
      destruct s1, s2; cbn [SFord cond_Zopp] in Hle, Hs1, Hs2.
      * destruct (SFdiv_finite_monotone true true false m1 m2 md e1 e2 ed
                    ltac:(lia) ltac:(lia) ltac:(lia)) as [v1 [v2 [Hv [Hv' [Ho1 Ho2]]]]].
        rewrite Ho1, Ho2. cbn [xorb cond_Zopp]. lia.
      * lia.
      * destruct (SFdiv_finite_magnitude false false m1 md e1 ed ltac:(lia)) as [v1 [Hv1 Ho1]].
        destruct (SFdiv_finite_magnitude true false m2 md e2 ed ltac:(lia)) as [v2 [Hv2 Ho2]].
        rewrite Ho1, Ho2. cbn [xorb cond_Zopp]. lia.
      * destruct (SFdiv_finite_monotone false false false m2 m1 md e2 e1 ed
                    ltac:(lia) ltac:(lia) ltac:(lia)) as [v2 [v1 [Hv [Hv' [Ho2 Ho1]]]]].
        rewrite Ho1, Ho2. cbn [xorb cond_Zopp]. lia.
Qed.

(** Dividing by the opposite gives the opposite. *)
Lemma binary_round_aux_opp (s : bool) (m e : Z) (l : location) :
  binary_round_aux prec emax (negb s) m e l = SFopp (binary_round_aux prec emax s m e l).
Proof.
  unfold binary_round_aux.
  destruct (shr_fexp prec emax m e l) as [mrs' e'].
  destruct (shr_fexp prec emax _ e' loc_Exact) as [mrs'' e''].
  destruct (shr_m mrs''); try reflexivity.
  destruct (e'' <=? emax - prec); reflexivity.
Qed.

Lemma SFdiv_opp_r (x y : spec_float) :
  SFdiv prec emax x (SFopp y) = SFopp (SFdiv prec emax x y).
Proof.
  destruct x as [sx | sx | | sx mx ex]; destruct y as [sy | sy | | sy my ey];
    cbn [SFdiv SFopp]; try reflexivity;
    try (destruct sx, sy; reflexivity).
  destruct (SFdiv_core_binary prec emax (Z.pos mx) ex (Z.pos my) ey) as [[q e'] l].
  rewrite <- binary_round_aux_opp. f_equal. destruct sx, sy; reflexivity.
Qed.

Lemma SFord_opp (x : spec_float) : SFord (SFopp x) = - SFord x.
Proof. destruct x as [s | s | | s m e]; cbn [SFopp SFord]; try destruct s; cbn [negb cond_Zopp]; lia. Qed.

Lemma SFopp_valid (x : spec_float) : valid_binary (SFopp x) = valid_binary x.
Proof. destruct x; reflexivity. Qed.

Lemma SFopp_nan (x : spec_float) : SFopp x = S754_nan -> x = S754_nan.
Proof. destruct x; try discriminate. reflexivity. Qed.

(** ** The two roots, on floats *)
Lemma roots_order_positive_divisor (fb s D : float) :
  Prim2SF s = S754_nan \/ SFnonneg (Prim2SF s) ->
  Prim2SF D = S754_nan \/ SFpositive (Prim2SF D) ->
  (((fb + s) / D) <? ((fb - s) / D))%float = false.
Proof.
  intros Hs HD. rewrite ltb_spec, !div_spec, add_spec, sub_spec.
  pose proof (Prim2SF_valid ((fb + s) / D)) as V1. rewrite div_spec, add_spec in V1.
  pose proof (Prim2SF_valid ((fb - s) / D)) as V2. rewrite div_spec, sub_spec in V2.
  pose proof (Prim2SF_valid (fb + s)) as VN1. rewrite add_spec in VN1.
  pose proof (Prim2SF_valid (fb - s)) as VN2. rewrite sub_spec in VN2.
  pose proof (Prim2SF_valid fb) as Vb. pose proof (Prim2SF_valid s) as Vs.
  unfold SF64div, SF64add, SF64sub in *.
  set (FB := Prim2SF fb) in *. set (S := Prim2SF s) in *. set (DD := Prim2SF D) in *.
  destruct HD as [HD | HD].
  { rewrite HD. destruct (SFadd prec emax FB S); reflexivity. }
  destruct Hs as [Hs | Hs].
  { rewrite Hs. destruct FB; reflexivity. }
  destruct (SFadd_SFsub_order FB S Vb Vs Hs) as [E | [E | Hle]].
  - rewrite E. reflexivity.
  - rewrite E. cbn [SFdiv]. apply SFltb_nan_r.
  - destruct (SFdiv_order _ _ DD VN1 VN2 HD Hle) as [E | [E | Hle']].
    + rewrite E. reflexivity.
    + rewrite E. apply SFltb_nan_r.
    + apply SFltb_false_of_SFord; assumption.
Qed.

Lemma roots_order_negative_divisor (fb s D : float) :
  Prim2SF s = S754_nan \/ SFnonneg (Prim2SF s) ->
  Prim2SF D = S754_nan \/ SFpositive (SFopp (Prim2SF D)) ->
  (((fb - s) / D) <? ((fb + s) / D))%float = false.
Proof.
  intros Hs HD. rewrite ltb_spec, !div_spec, add_spec, sub_spec.
  pose proof (Prim2SF_valid ((fb + s) / D)) as V1. rewrite div_spec, add_spec in V1.
  pose proof (Prim2SF_valid ((fb - s) / D)) as V2. rewrite div_spec, sub_spec in V2.
  pose proof (Prim2SF_valid (fb + s)) as VN1. rewrite add_spec in VN1.
  pose proof (Prim2SF_valid (fb - s)) as VN2. rewrite sub_spec in VN2.
  pose proof (Prim2SF_valid fb) as Vb. pose proof (Prim2SF_valid s) as Vs.
  unfold SF64div, SF64add, SF64sub in *.
  set (FB := Prim2SF fb) in *. set (S := Prim2SF s) in *. set (DD := Prim2SF D) in *.
  destruct HD as [HD | HD].
  { rewrite HD. destruct (SFsub prec emax FB S); reflexivity. }
  destruct Hs as [Hs | Hs].
  { rewrite Hs. destruct FB; reflexivity. }
  assert (EDD : DD = SFopp (SFopp DD)).
  { destruct DD; cbn [SFopp]; rewrite ?negb_involutive; reflexivity. }
  set (DN := SFopp DD) in *.
  rewrite EDD, !SFdiv_opp_r. rewrite EDD, SFdiv_opp_r, SFopp_valid in V1.
  rewrite EDD, SFdiv_opp_r, SFopp_valid in V2.
  destruct (SFadd_SFsub_order FB S Vb Vs Hs) as [E | [E | Hle]].
  - rewrite E. cbn [SFdiv SFopp]. apply SFltb_nan_r.
  - rewrite E. reflexivity.
  - destruct (SFdiv_order _ _ DN VN1 VN2 HD Hle) as [E | [E | Hle']].
    + rewrite E. cbn [SFopp]. apply SFltb_nan_r.
    + rewrite E. reflexivity.
    + apply SFltb_false_of_SFord; rewrite ?SFopp_valid; try assumption.
      rewrite !SFord_opp. lia.
Qed.

End FloatOrder.

(** ** The order of the two roots *)

Lemma SFsign_false_nonneg (r : spec_float) : SFsign_is false r -> SFnonneg r.
Proof. destruct r; cbn; auto. Qed.

Lemma SFsqrt_nonneg (x : spec_float) :
  SFsqrt prec emax x = S754_nan \/ SFnonneg (SFsqrt prec emax x).
Proof.
  destruct x as [s | [|] | | [|] m e]; cbn [SFsqrt SFnonneg]; auto.
  destruct (SFsqrt_core_binary prec emax (Z.pos m) e) as [[mz ez] lz].
  destruct (binary_round_aux_sign false mz ez lz) as [E | H]; [now left | right].
  now apply SFsign_false_nonneg.
Qed.

Lemma math_sqrt_nonneg (d : num) (s : float) :
  math_sqrt d = Ok s -> Prim2SF s = S754_nan \/ SFnonneg (Prim2SF s).
Proof.
  unfold math_sqrt, res_bind. destruct (to_float d) as [f | e]; [| discriminate].
  destruct (f <? 0)%float; [discriminate |]. intros [= <-].
  rewrite sqrt_spec. apply SFsqrt_nonneg.
Qed.

Lemma int_to_float_spec (z : Z) (f : float) :
  int_to_float z = Ok f -> Prim2SF f = Z2SF z.
Proof.
  unfold int_to_float. destruct (is_infinity (SF2Prim (Z2SF z))); [discriminate |].
  intros [= <-]. apply Prim2SF_SF2Prim.
  apply (binary_normalize_valid z 0 false). lia.
Qed.

Lemma Z2SF_sign (z : Z) : z <> 0%Z -> SFsign_is (z <? 0)%Z (Z2SF z).
Proof.
  intros Hz. unfold Z2SF. destruct z as [| p | p]; [contradiction | |];
    cbn [binary_normalize Z.ltb Z.compare];
    apply (binary_round_ord _ p 0 ltac:(lia)).
Qed.

Lemma float_nonzero_sign (f : float) :
  (f =? 0)%float = false ->
  (SFsign_is false (Prim2SF f) -> SFpositive (Prim2SF f))
  /\ (SFsign_is true (Prim2SF f) -> SFpositive (SFopp (Prim2SF f))).
Proof.
  rewrite eqb_spec, Prim2SF_zero. unfold SFeqb, SFcompare.
  destruct (Prim2SF f) as [s | s | | s m e]; cbn [SFsign_is SFpositive SFopp];
    try discriminate; intros _; split; intros H; try contradiction; subst; reflexivity.
Qed.

Lemma float_gt0_positive (f : float) : (0 <? f)%float = true -> SFpositive (Prim2SF f).
Proof.
  rewrite ltb_spec, Prim2SF_zero. unfold SFltb, SFcompare.
  destruct (Prim2SF f) as [s | s | | s m e]; try destruct s; cbn; easy.
Qed.

Lemma float_lt0_negative (f : float) :
  (f <? 0)%float = true -> SFpositive (SFopp (Prim2SF f)).
Proof.
  rewrite ltb_spec, Prim2SF_zero. unfold SFltb, SFcompare.
  destruct (Prim2SF f) as [s | s | | s m e]; try destruct s; cbn; easy.
Qed.

Lemma Prim2SF_two : Prim2SF 2%float = S754_finite false 4503599627370496 (-51).
Proof. reflexivity. Qed.

(** Twice a positive float is positive, or zero, or NaN. *)
Lemma SFmul_two_sign (y : spec_float) :
  SFpositive y ->
  SFmul prec emax (S754_finite false 4503599627370496 (-51)) y = S754_nan
  \/ SFsign_is false (SFmul prec emax (S754_finite false 4503599627370496 (-51)) y).
Proof.
  destruct y as [s | s | | s m e]; cbn [SFpositive]; try contradiction; intros ->;
    cbn [SFmul xorb].
  - right. reflexivity.
  - apply binary_round_aux_sign.
Qed.

Lemma SFmul_opp_r (x y : spec_float) :
  SFmul prec emax x (SFopp y) = SFopp (SFmul prec emax x y).
Proof.
  destruct x as [sx | sx | | sx mx ex]; destruct y as [sy | sy | | sy my ey];
    cbn [SFmul SFopp]; try reflexivity; try (destruct sx, sy; reflexivity).
  rewrite <- binary_round_aux_opp. f_equal. destruct sx, sy; reflexivity.
Qed.

Lemma SFopp_involutive (x : spec_float) : SFopp (SFopp x) = x.
Proof. destruct x; cbn [SFopp]; rewrite ?negb_involutive; reflexivity. Qed.

Lemma SFsign_opp (s : bool) (x : spec_float) :
  SFsign_is s (SFopp x) -> SFsign_is (negb s) x.
Proof.
  destruct x as [s' | s' | | s' m e]; cbn [SFopp SFsign_is]; try contradiction;
    intros <-; now rewrite negb_involutive.
Qed.

(** The divisor [2*a] as a float: of the sign of [a], or NaN. *)
Lemma divisor_sign (a a2 : num) (D : float) :
  num_mul (NInt 2) a = Ok a2 ->
  to_float a2 = Ok D ->
  (D =? 0)%float = false ->
  (num_gt0 a = true -> Prim2SF D = S754_nan \/ SFpositive (Prim2SF D))
  /\ (num_lt0 a = true -> Prim2SF D = S754_nan \/ SFpositive (SFopp (Prim2SF D))).
Proof.
  intros Hmul Hto Hnz. destruct (float_nonzero_sign D Hnz) as [Hpos Hneg].
  destruct a as [z | f].
  - (* an int: [2*a] is an int, converted when it divides a float *)
    assert (Ea : a2 = NInt (2 * z)%Z)
      by (unfold num_mul, num_arith in Hmul; congruence).
    subst a2. clear Hmul. cbn [to_float] in Hto.
    apply int_to_float_spec in Hto. rewrite Hto. cbn [num_gt0 num_lt0].
    split; intros Hs.
    + right. rewrite <- Hto. apply Hpos. rewrite Hto.
      apply Z.ltb_lt in Hs.
      replace false with (2 * z <? 0)%Z by (apply Z.ltb_ge; lia).
      apply Z2SF_sign. lia.
    + right. rewrite <- Hto. apply Hneg. rewrite Hto.
      apply Z.ltb_lt in Hs.
      replace true with (2 * z <? 0)%Z by (apply Z.ltb_lt; lia).
      apply Z2SF_sign. lia.
  - (* a float: [2*a] is the float product *)
    assert (E2 : to_float (NInt 2) = Ok 2%float) by reflexivity.
    unfold num_mul, num_arith in Hmul. rewrite E2 in Hmul. cbn in Hmul.
    injection Hmul as <-. cbn [to_float] in Hto. injection Hto as <-.
    cbn [num_gt0 num_lt0].
    assert (Hspec : Prim2SF (2 * f) = SFmul prec emax (Prim2SF 2) (Prim2SF f))
      by apply mul_spec.
    rewrite Prim2SF_two in Hspec.
    split; intros Hs.
    + apply float_gt0_positive in Hs.
      destruct (SFmul_two_sign _ Hs) as [E | H]; rewrite <- Hspec in *; auto.
    + apply float_lt0_negative in Hs.
      destruct (SFmul_two_sign _ Hs) as [E | H]; rewrite SFmul_opp_r in *.
      * left. apply SFopp_nan in E. now rewrite Hspec.
      * right. apply Hneg. apply SFsign_opp in H. now rewrite Hspec.
Qed.

Lemma num_add_float_r (x : num) (s : float) (n : num) :
  num_add x (NFloat s) = Ok n ->
  exists fx, to_float x = Ok fx /\ n = NFloat (fx + s).
Proof.
  unfold num_add, num_arith, res_bind. cbn [to_float].
  destruct x as [z | f]; cbn [to_float].
  - destruct (int_to_float z) as [fx | e]; [| discriminate].
    intros [= <-]. now exists fx.
  - intros [= <-]. now exists f.
Qed.

Lemma num_sub_float_r (x : num) (s : float) (n : num) :
  num_sub x (NFloat s) = Ok n ->
  exists fx, to_float x = Ok fx /\ n = NFloat (fx - s).
Proof.
  unfold num_sub, num_arith, res_bind. cbn [to_float].
  destruct x as [z | f]; cbn [to_float].
  - destruct (int_to_float z) as [fx | e]; [| discriminate].
    intros [= <-]. now exists fx.
  - intros [= <-]. now exists f.
Qed.

Lemma num_truediv_float_l (f : float) (y : num) (x : float) :
  num_truediv (NFloat f) y = Ok x ->
  exists D, to_float y = Ok D /\ (D =? 0)%float = false /\ x = (f / D)%float.
Proof.
  unfold num_truediv, res_bind. cbn [to_float].
  destruct (to_float y) as [D | e]; [| discriminate].
  unfold float_truediv. destruct (D =? 0)%float eqn:HD; [discriminate |].
  intros [= <-]. now exists D.
Qed.

(** Two returned roots are [(fb + s) / D] and [(fb - s) / D], where [fb] is
    [-b], [s] the square root and [D] the divisor [2*a], all as floats. *)
Lemma solve_num_two_roots_inv (a b c : num) (x1 x2 : float) :
  solve_num float_pow a b c = Ok (VTuple [VFloat x1; VFloat x2]) ->
  exists (s fb D : float) (a2 : num),
    (Prim2SF s = S754_nan \/ SFnonneg (Prim2SF s))
    /\ num_mul (NInt 2) a = Ok a2
    /\ to_float a2 = Ok D
    /\ (D =? 0)%float = false
    /\ x1 = ((fb + s) / D)%float
    /\ x2 = ((fb - s) / D)%float.
Proof.
  unfold solve_num, res_bind.
  destruct (num_eq0 a).
  - destruct (num_eq0 b).
    + destruct (num_eq0 c); discriminate.
    + destruct (num_truediv (num_neg c) b); discriminate.
  - destruct (discriminant_of float_pow a b c) as [d | e]; [| discriminate].
    destruct (num_lt0 d); [discriminate |].
    destruct (num_eq0 d).
    + destruct (num_mul (NInt 2) a) as [a2 | e]; [| discriminate].
      destruct (num_truediv (num_neg b) a2); discriminate.
    + destruct (math_sqrt d) as [s | e] eqn:Hs; [| discriminate].
      destruct (num_add (num_neg b) (NFloat s)) as [n1 | e] eqn:Hn1; [| discriminate].
      destruct (num_mul (NInt 2) a) as [a2 | e] eqn:Ha2; [| discriminate].
      destruct (num_truediv n1 a2) as [y1 | e] eqn:Hx1; [| discriminate].
      destruct (num_sub (num_neg b) (NFloat s)) as [n2 | e] eqn:Hn2; [| discriminate].
      destruct (num_truediv n2 a2) as [y2 | e] eqn:Hx2; [| discriminate].
      intros H. assert (E1 : y1 = x1) by congruence. assert (E2 : y2 = x2) by congruence.
      subst y1 y2. clear H.
      apply num_add_float_r in Hn1 as (fb & Hfb & ->).
      apply num_sub_float_r in Hn2 as (fb' & Hfb' & ->).
      assert (fb' = fb) by congruence. subst fb'.
      apply num_truediv_float_l in Hx1 as (D & HD & Hnz & ->).
      apply num_truediv_float_l in Hx2 as (D' & HD' & _ & ->).
      assert (D' = D) by congruence. subst D'.
      exists s, fb, D, a2. repeat split; try assumption.
      exact (math_sqrt_nonneg d s Hs).
Qed.

Lemma SFcompare_antisym (x y : spec_float) :
  SFcompare y x = option_map CompOpp (SFcompare x y).
Proof.
  destruct x as [sx | sx | | sx mx ex]; destruct y as [sy | sy | | sy my ey];
    cbn [SFcompare option_map]; try reflexivity;
    try (destruct sx; reflexivity); try (destruct sy; reflexivity);
    try (destruct sx, sy; reflexivity).
  destruct sx, sy; cbn [CompOpp]; try reflexivity;
    rewrite (Z.compare_antisym ey ex); destruct (ey ?= ex)%Z; cbn [CompOpp]; try reflexivity;
    change (Pos.compare_cont Eq my mx) with (Pos.compare my mx);
    change (Pos.compare_cont Eq mx my) with (Pos.compare mx my);
    rewrite (Pos.compare_antisym my mx); destruct (my ?= mx)%positive; reflexivity.
Qed.

Lemma is_nan_Prim2SF (x : float) : is_nan x = false -> Prim2SF x <> S754_nan.
Proof.
  intros H. unfold Prim2SF. rewrite H.
  destruct (is_zero x); [discriminate |].
  destruct (is_infinity x); [discriminate |].
  destruct (Z.frexp x) as [r e].
  destruct (shr_fexp prec emax _ _ _) as [shr e'].
  destruct (shr_m shr); discriminate.
Qed.

(** Of two floats that are not NaN, one not below the other is above or
    equal to it. *)
Lemma float_not_lt_ge (x y : float) :
  is_nan x = false -> is_nan y = false ->
  (x <? y)%float = false -> (y <=? x)%float = true.
Proof.
  intros Hx Hy. apply is_nan_Prim2SF in Hx, Hy.
  rewrite ltb_spec, leb_spec. unfold SFltb, SFleb.
  rewrite (SFcompare_antisym (Prim2SF x) (Prim2SF y)).
  destruct (Prim2SF x) as [sx | sx | | sx mx ex]; try contradiction;
    destruct (Prim2SF y) as [sy | sy | | sy my ey]; try contradiction;
    destruct (SFcompare _ _) as [[| |] |] eqn:E; cbn [option_map CompOpp];
    try reflexivity; try discriminate; cbn in E; discriminate E.
Qed.

(** ** How the solver can fail *)

Section SolverFailures.
Local Open Scope Z_scope.

Lemma Z2SF_valid (z : Z) : valid_binary (Z2SF z) = true /\ Z2SF z <> S754_nan.
Proof. apply (binary_normalize_valid z 0 false). lia. Qed.

Lemma SFord_Z2SF_1 : SFord (Z2SF 1) = 2 ^ 1074.
Proof. vm_compute. reflexivity. Qed.

Lemma SFord_Z2SF_0 : SFord (Z2SF 0) = 0.
Proof. reflexivity. Qed.

Lemma pow2_1074_pos : 0 < 2 ^ 1074.
Proof. apply pow2_pos. lia. Qed.

Lemma SFord_Z2SF_m1 : SFord (Z2SF (-1)) = - 2 ^ 1074.
Proof. vm_compute. reflexivity. Qed.

Lemma SFord_Z2SF_sign (z : Z) :
  (0 <= z -> 0 <= SFord (Z2SF z))
  /\ (0 < z -> 0 < SFord (Z2SF z))
  /\ (z < 0 -> SFord (Z2SF z) < 0).
Proof.
  pose proof pow2_1074_pos as Hp. repeat split; intros Hz.
  - rewrite <- SFord_Z2SF_0. apply (binary_normalize_monotone 0 z 0); lia.
  - pose proof (binary_normalize_monotone 1 z 0 ltac:(lia) ltac:(lia)) as H.
    fold (Z2SF 1) in H. fold (Z2SF z) in H. rewrite SFord_Z2SF_1 in H. lia.
  - pose proof (binary_normalize_monotone z (-1) 0 ltac:(lia) ltac:(lia)) as H.
    fold (Z2SF (-1)) in H. fold (Z2SF z) in H. rewrite SFord_Z2SF_m1 in H. lia.
Qed.

Lemma SFeqb_zero_false (r : spec_float) :
  (forall s, r <> S754_zero s) -> SFeqb r (S754_zero false) = false.
Proof.
  intros H. destruct r as [s | s | | s m e]; try (destruct s; reflexivity).
  - now destruct (H s).
  - reflexivity.
Qed.

(** An [int] that is not zero does not become the float zero. *)
Lemma int_to_float_nonzero (z : Z) (D : float) :
  z <> 0 -> int_to_float z = Ok D -> (D =? 0)%float = false.
Proof.
  intros Hz HD. apply int_to_float_spec in HD.
  rewrite eqb_spec, HD, Prim2SF_zero. apply SFeqb_zero_false.
  intros s E. destruct (SFord_Z2SF_sign z) as (_ & Hpos & Hneg).
  rewrite E in Hpos, Hneg. cbn [SFord] in Hpos, Hneg. lia.
Qed.

(** An [int] that is not negative does not become a negative float. *)
Lemma int_to_float_nonneg (z : Z) (f : float) :
  0 <= z -> int_to_float z = Ok f -> (f <? 0)%float = false.
Proof.
  intros Hz Hf. apply int_to_float_spec in Hf.
  rewrite ltb_spec, Hf, Prim2SF_zero.
  apply SFltb_false_of_SFord; [apply Z2SF_valid | reflexivity |].
  cbn [SFord]. now apply SFord_Z2SF_sign.
Qed.

Lemma round_scaled_unit : round_scaled 1 1 (-1074) = 1.
Proof. vm_compute. reflexivity. Qed.

(** Twice a float that is not zero is not zero. *)
Lemma float_double_nonzero (f : float) :
  (f =? 0)%float = false -> (2 * f =? 0)%float = false.
Proof.
  rewrite !eqb_spec, mul_spec, Prim2SF_two, Prim2SF_zero. unfold SF64mul.
  pose proof (Prim2SF_valid f) as Hv.
  destruct (Prim2SF f) as [s | s | | s m e]; cbn [SFmul xorb].
  - destruct s; discriminate.
  - intros _. destruct s; reflexivity.
  - reflexivity.
  - intros _. apply SFeqb_zero_false. intros s0 E.
    destruct (valid_finite_bounds s m e Hv) as (He & _ & _ & _).
    set (P := Z.pos (4503599627370496 * m)) in *.
    assert (HP : 2 ^ 52 <= P).
    { unfold P. rewrite Pos2Z.inj_mul. change (Z.pos 4503599627370496) with (2 ^ 52). nia. }
    assert (Hdig : -51 + e <= fexp prec emax (Zdigits2 P + (-51 + e))).
    { rewrite fexp_eq.
      assert (52 < Zdigits2 P) by (apply Zdigits2_ge; [lia | exact HP]).
      lia. }
    destruct (binary_round_aux_ord s P 1 P (-51 + e) loc_Exact
                ltac:(lia) ltac:(lia) ltac:(cbn [located]; lia) Hdig)
      as (Hs & Hval & Hdig' & Hord).
    change (Z.pos (4503599627370496 * m)) with P in E.
    rewrite E in Hord. cbn [SFord] in Hord.
    assert (Hge : 1 <= round_scaled P 1 (-51 + e)).
    { rewrite <- round_scaled_unit.
      apply (round_scaled_monotone 1 P 1 (-1074) (-51 + e) (-1125)); try lia.
      vm_compute. discriminate. }
    pose proof INF_pos. destruct s; cbn [cond_Zopp] in Hord; lia.
Qed.



Lemma to_float_nonzero (y : num) (D : float) :
  num_eq0 y = false -> to_float y = Ok D -> (D =? 0)%float = false.
Proof.
  destruct y as [z | f]; cbn [num_eq0 to_float].
  - intros Hz. apply int_to_float_nonzero. now apply Z.eqb_neq.
  - now intros Hf [= <-].
Qed.

Lemma to_float_nonneg (d : num) (f : float) :
  num_lt0 d = false -> to_float d = Ok f -> (f <? 0)%float = false.
Proof.
  destruct d as [z | g]; cbn [num_lt0 to_float].
  - intros Hz. apply int_to_float_nonneg. now apply Z.ltb_ge.
  - now intros Hf [= <-].
Qed.

Lemma int_to_float_Raise (z : Z) (e : exn) :
  int_to_float z = Raise e -> exc_type e = OverflowError.
Proof.
  unfold int_to_float, raise_msg.
  destruct (is_infinity _); [| discriminate]. now intros [= <-].
Qed.

Lemma to_float_Raise (x : num) (e : exn) :
  to_float x = Raise e -> exc_type e = OverflowError.
Proof. destruct x; cbn [to_float]; [apply int_to_float_Raise | discriminate]. Qed.

Lemma num_arith_Raise (zop : Z -> Z -> Z) (fop : float -> float -> float)
    (x y : num) (e : exn) :
  num_arith zop fop x y = Raise e -> exc_type e = OverflowError.
Proof.
  unfold num_arith, res_bind.
  destruct x as [a | a]; destruct y as [b | b]; try discriminate;
    cbn [to_float];
    try (destruct (int_to_float _) as [f | e'] eqn:E;
         [discriminate | intros [= <-]; exact (int_to_float_Raise _ _ E)]).
Qed.

(** A square raises only as the power of a [float] does. *)
Lemma num_pow2_Raise (x : num) (e : exn) :
  num_pow2 float_pow x = Raise e ->
  exists f, x = NFloat f /\ float_pow f 2%float = Raise e.
Proof.
  destruct x as [z | f]; cbn [num_pow2]; unfold res_bind; [discriminate |].
  destruct (float_pow f 2%float) as [r | e'] eqn:E; [discriminate |].
  intros [= <-]. now exists f.
Qed.

Lemma discriminant_of_Raise (a b c : num) (e : exn) :
  discriminant_of float_pow a b c = Raise e ->
  exc_type e = OverflowError
  \/ exists fb, b = NFloat fb /\ float_pow fb 2%float = Raise e.
Proof.
  unfold discriminant_of, res_bind.
  destruct (num_pow2 float_pow b) as [b2 | e1] eqn:E1;
    [| intros [= <-]; right; exact (num_pow2_Raise _ _ E1)].
  intros H. left. revert H.
  destruct (num_mul (NInt 4) a) as [a4 | e2] eqn:E2;
    [| intros [= <-]; exact (num_arith_Raise _ _ _ _ _ E2)].
  destruct (num_mul a4 c) as [ac4 | e3] eqn:E3;
    [| intros [= <-]; exact (num_arith_Raise _ _ _ _ _ E3)].
  apply num_arith_Raise.
Qed.

(** The discriminant of [int] coefficients is exact; that of [float]
    coefficients is the power the interpreter gives for [b ** 2], less the
    rounded product [4 * a] times [c], rounded. *)
Lemma discriminant_of_int (za zb zc : Z) :
  discriminant_of float_pow (NInt za) (NInt zb) (NInt zc)
  = Ok (NInt (zb ^ 2 - 4 * za * zc)).
Proof. reflexivity. Qed.

Lemma discriminant_of_float (fa fb fc : float) :
  discriminant_of float_pow (NFloat fa) (NFloat fb) (NFloat fc)
  = (b2 <- float_pow fb 2%float ;; Ok (NFloat (b2 - 4 * fa * fc)%float))%res.
Proof.
  unfold discriminant_of, res_bind. cbn [num_pow2]. unfold res_bind.
  destruct (float_pow fb 2%float); reflexivity.
Qed.

Lemma num_truediv_Raise (x y : num) (e : exn) :
  num_eq0 y = false -> num_truediv x y = Raise e -> exc_type e = OverflowError.
Proof.
  intros Hy. unfold num_truediv, res_bind.
  assert (Hgen : match to_float x with
                 | Ok a => match to_float y with
                           | Ok b => float_truediv a b
                           | Raise e0 => Raise e0
                           end
                 | Raise e0 => Raise e0
                 end = Raise e -> exc_type e = OverflowError).
  { destruct (to_float x) as [fx | e1] eqn:E1;
      [| intros [= <-]; exact (to_float_Raise _ _ E1)].
    destruct (to_float y) as [D | e2] eqn:E2;
      [| intros [= <-]; exact (to_float_Raise _ _ E2)].
    unfold float_truediv. now rewrite (to_float_nonzero y D Hy E2). }
  destruct x as [a | a]; destruct y as [b | b]; try exact Hgen.
  cbn [num_eq0] in Hy. unfold int_truediv, raise_msg. rewrite Hy.
  destruct (is_infinity _); [| discriminate]. now intros [= <-].
Qed.

Lemma math_sqrt_Raise (d : num) (e : exn) :
  num_lt0 d = false -> math_sqrt d = Raise e -> exc_type e = OverflowError.
Proof.
  intros Hd. unfold math_sqrt, res_bind.
  destruct (to_float d) as [f | e1] eqn:E1;
    [| intros [= <-]; exact (to_float_Raise _ _ E1)].
  now rewrite (to_float_nonneg d f Hd E1).
Qed.

(** [2*a] is not zero when [a] is not. *)
Lemma num_mul_two_nonzero (a a2 : num) :
  num_eq0 a = false -> num_mul (NInt 2) a = Ok a2 -> num_eq0 a2 = false.
Proof.
  intros Ha. destruct a as [z | f]; cbn [num_eq0] in Ha.
  - intros H. assert (E : a2 = NInt (2 * z)%Z)
      by (unfold num_mul, num_arith in H; congruence).
    subst a2. cbn [num_eq0]. apply Z.eqb_neq in Ha. apply Z.eqb_neq. lia.
  - assert (E2 : to_float (NInt 2) = Ok 2%float) by reflexivity.
    unfold num_mul, num_arith. rewrite E2. cbn [res_bind to_float].
    intros [= <-]. cbn [num_eq0]. now apply float_double_nonzero.
Qed.

(** The solver fails with the [ValueError] of the equation that every
    number solves, with an [OverflowError], or as the power [b ** 2] of a
    [float] [b] does, and in no other way. *)
Lemma solve_num_Raise (a b c : num) (e : exn) :
  solve_num float_pow a b c = Raise e ->
  (num_eq0 a = true /\ num_eq0 b = true /\ num_eq0 c = true
   /\ e = Exn ValueError [VStr "Уравнение имеет бесконечно много решений"])
  \/ exc_type e = OverflowError
  \/ exists fb, b = NFloat fb /\ float_pow fb 2%float = Raise e.
Proof.
  unfold solve_num, res_bind.
  destruct (num_eq0 a) eqn:Ha.
  - destruct (num_eq0 b) eqn:Hb.
    + destruct (num_eq0 c) eqn:Hc; [| discriminate].
      unfold raise_msg. intros [= <-]. left. repeat split.
    + destruct (num_truediv (num_neg c) b) as [x | e1] eqn:E1; [discriminate |].
      intros [= <-]. right. left. exact (num_truediv_Raise _ _ _ Hb E1).
  - intros H. right.
    destruct (discriminant_of float_pow a b c) as [d | e1] eqn:E1;
      [| injection H as <-; exact (discriminant_of_Raise _ _ _ _ E1)].
    left. revert H.
    destruct (num_lt0 d) eqn:Hlt; [discriminate |].
    destruct (num_eq0 d) eqn:Hd0.
    + destruct (num_mul (NInt 2) a) as [a2 | e2] eqn:E2;
        [| intros [= <-]; exact (num_arith_Raise _ _ _ _ _ E2)].
      destruct (num_truediv (num_neg b) a2) as [x | e3] eqn:E3; [discriminate |].
      intros [= <-].
      exact (num_truediv_Raise _ _ _ (num_mul_two_nonzero a a2 Ha E2) E3).
    + destruct (math_sqrt d) as [s | e2] eqn:E2;
        [| intros [= <-]; exact (math_sqrt_Raise _ _ Hlt E2)].
      destruct (num_add (num_neg b) (NFloat s)) as [n1 | e3] eqn:E3;
        [| intros [= <-]; exact (num_arith_Raise _ _ _ _ _ E3)].
      destruct (num_mul (NInt 2) a) as [a2 | e4] eqn:E4;
        [| intros [= <-]; exact (num_arith_Raise _ _ _ _ _ E4)].
      pose proof (num_mul_two_nonzero a a2 Ha E4) as Ha2.
      destruct (num_truediv n1 a2) as [x1 | e5] eqn:E5;
        [| intros [= <-]; exact (num_truediv_Raise _ _ _ Ha2 E5)].
      destruct (num_sub (num_neg b) (NFloat s)) as [n2 | e6] eqn:E6;
        [| intros [= <-]; exact (num_arith_Raise _ _ _ _ _ E6)].
      destruct (num_truediv n2 a2) as [x2 | e7] eqn:E7; [discriminate |].
      intros [= <-]. exact (num_truediv_Raise _ _ _ Ha2 E7).
Qed.

End SolverFailures.

(** On [int] coefficients the solver takes no power of a [float]. *)
Lemma solve_quadratic_func_int_coefficients (za zb zc : Z) :
  solve_quadratic_func float_pow (VInt za) (VInt zb) (VInt zc)
  = solve_quadratic_func no_float_pow (VInt za) (VInt zb) (VInt zc).
Proof. reflexivity. Qed.

(** ** The solver, case by case *)

(** C3, as the code has it. Coefficients that are not all numbers fail with
    [TypeError]; [a = b = c = 0] fails with [ValueError]; [a = b = 0], [c]
    not zero gives the empty tuple; [a = 0], [b] not zero gives the single
    root [-c / b] when that quotient can be computed; otherwise, when the
    discriminant [d = b**2 - 4*a*c] can be computed, [d < 0] gives the empty
    tuple, [d = 0] the single root [-b / (2*a)] when it can be computed, and
    [d > 0] the two roots when they can be computed. Nothing else is ever
    returned. The discriminant of [int] coefficients is exact; that of
    [float] coefficients is the interpreter's [b ** 2] less the rounded
    [4 * a * c]. What cannot be computed is a number too large for a float:
    besides the two failures above the solver fails with [OverflowError],
    or as the interpreter's power of the [float] [b] does, and in no other
    way. *)
Theorem solve_quadratic_case_analysis (a b c : pyval) :
  (forallb isinstance_int_float [a; b; c] = false ->
   solve_quadratic_func float_pow a b c = raise_msg TypeError "Коэффициенты должны быть числами")
  /\ (forallb isinstance_int_float [a; b; c] = true ->
      exists a' b' c', as_num a = Some a' /\ as_num b = Some b' /\ as_num c = Some c')
  /\ (forall a' b' c',
        as_num a = Some a' -> as_num b = Some b' -> as_num c = Some c' ->
        (num_eq0 a' = true -> num_eq0 b' = true -> num_eq0 c' = true ->
         solve_quadratic_func float_pow a b c
         = raise_msg ValueError "Уравнение имеет бесконечно много решений")
        /\ (num_eq0 a' = true -> num_eq0 b' = true -> num_eq0 c' = false ->
            solve_quadratic_func float_pow a b c = Ok (VTuple []))
        /\ (num_eq0 a' = true -> num_eq0 b' = false ->
            forall x, num_truediv (num_neg c') b' = Ok x ->
            solve_quadratic_func float_pow a b c = Ok (VTuple [VFloat x]))
        /\ (num_eq0 a' = false ->
            forall d, discriminant_of float_pow a' b' c' = Ok d ->
            (num_lt0 d = true -> solve_quadratic_func float_pow a b c = Ok (VTuple []))
            /\ (num_eq0 d = true ->
                forall a2 x,
                  num_mul (NInt 2) a' = Ok a2 ->
                  num_truediv (num_neg b') a2 = Ok x ->
                  solve_quadratic_func float_pow a b c = Ok (VTuple [VFloat x]))
            /\ (num_gt0 d = true ->
                forall sqrt_disc n1 n2 a2 x1 x2,
                  math_sqrt d = Ok sqrt_disc ->
                  num_add (num_neg b') (NFloat sqrt_disc) = Ok n1 ->
                  num_sub (num_neg b') (NFloat sqrt_disc) = Ok n2 ->
                  num_mul (NInt 2) a' = Ok a2 ->
                  num_truediv n1 a2 = Ok x1 ->
                  num_truediv n2 a2 = Ok x2 ->
                  solve_quadratic_func float_pow a b c = Ok (VTuple [VFloat x1; VFloat x2]))))
  /\ (forall r, solve_quadratic_func float_pow a b c = Ok r ->
      r = VTuple []
      \/ (exists x, r = VTuple [VFloat x])
      \/ (exists x1 x2, r = VTuple [VFloat x1; VFloat x2]))
  /\ (forall e, solve_quadratic_func float_pow a b c = Raise e ->
      (forallb isinstance_int_float [a; b; c] = false
       /\ e = Exn TypeError [VStr "Коэффициенты должны быть числами"])
      \/ (exists a' b' c',
            as_num a = Some a' /\ as_num b = Some b' /\ as_num c = Some c'
            /\ num_eq0 a' = true /\ num_eq0 b' = true /\ num_eq0 c' = true
            /\ e = Exn ValueError [VStr "Уравнение имеет бесконечно много решений"])
      \/ exc_type e = OverflowError
      \/ (exists fb, as_num b = Some (NFloat fb) /\ float_pow fb 2%float = Raise e))
  /\ (forall za zb zc,
        discriminant_of float_pow (NInt za) (NInt zb) (NInt zc)
        = Ok (NInt (zb ^ 2 - 4 * za * zc)))
  /\ (forall fa fb fc,
        discriminant_of float_pow (NFloat fa) (NFloat fb) (NFloat fc)
        = (b2 <- float_pow fb 2%float ;; Ok (NFloat (b2 - 4 * fa * fc)%float))%res).
Proof.
  split; [apply solve_quadratic_func_not_numeric |].
  split; [apply as_num_numeric |].
  split; [| split; [| split; [| split;
    [exact discriminant_of_int | exact discriminant_of_float]]]].
  - intros a' b' c' Ha Hb Hc.
    rewrite (solve_quadratic_func_num a b c a' b' c' Ha Hb Hc).
    split; [| split; [| split]].
    + intros H1 H2 H3. unfold solve_num. now rewrite H1, H2, H3.
    + intros H1 H2 H3. unfold solve_num. now rewrite H1, H2, H3.
    + intros H1 H2 x Hx. unfold solve_num. now rewrite H1, H2, Hx.
    + intros H1 d Hd. split; [| split].
      * intros Hlt. unfold solve_num. rewrite H1, Hd. cbn [res_bind]. now rewrite Hlt.
      * intros Hz a2 x Ha2 Hx. unfold solve_num. rewrite H1, Hd. cbn [res_bind].
        rewrite (num_eq0_not_lt0 d Hz), Hz, Ha2. cbn [res_bind]. now rewrite Hx.
      * intros Hpos s n1 n2 a2 x1 x2 Hs Hn1 Hn2 Ha2 Hx1 Hx2.
        rewrite (solve_num_positive_discriminant a' b' c' d H1 Hd Hpos).
        exact (two_roots_Ok a' b' d s n1 n2 a2 x1 x2 Hs Hn1 Hn2 Ha2 Hx1 Hx2).
  - intros r. unfold solve_quadratic_func.
    destruct (as_num a) as [a' |]; [| discriminate].
    destruct (as_num b) as [b' |]; [| discriminate].
    destruct (as_num c) as [c' |]; [| discriminate].
    apply solve_num_shape.
  - intros e He.
    destruct (forallb isinstance_int_float [a; b; c]) eqn:Hnum.
    + destruct (as_num_numeric a b c Hnum) as (a' & b' & c' & Ha & Hb & Hc).
      rewrite (solve_quadratic_func_num a b c a' b' c' Ha Hb Hc) in He.
      destruct (solve_num_Raise a' b' c' e He)
        as [(Za & Zb & Zc & ->) | [Hover | (fb & -> & Hpow)]].
      * right. left. now exists a', b', c'.
      * right. right. left. exact Hover.
      * right. right. right. now exists fb.
    + left. split; [reflexivity |].
      rewrite (solve_quadratic_func_not_numeric a b c Hnum) in He.
      unfold raise_msg in He. congruence.
Qed.

(** C4, as the code has it: the test vectors, the two roots of
    [x**2 - 3*x + 2] coming as [(2.0, 1.0)]. *)
Theorem solve_quadratic_test_vectors :
  solve_quadratic_func float_pow (VInt 1) (VInt (-3)) (VInt 2) = Ok (VTuple [VFloat 2; VFloat 1])
  /\ solve_quadratic_func float_pow (VInt 1) (VInt 0) (VInt 1) = Ok (VTuple [])
  /\ solve_quadratic_func float_pow (VInt 0) (VInt 0) (VInt 5) = Ok (VTuple [])
  /\ solve_quadratic_func float_pow (VInt 0) (VInt 2) (VInt 4) = Ok (VTuple [VFloat (-2)])
  /\ solve_quadratic_func float_pow (VInt 0) (VInt 0) (VInt 0)
     = raise_msg ValueError "Уравнение имеет бесконечно много решений"
  /\ solve_quadratic_func float_pow (VStr "x") (VInt 1) (VInt 1)
     = raise_msg TypeError "Коэффициенты должны быть числами".
Proof. repeat split; vm_compute; reflexivity. Qed.

(** C4 as stated fails: the roots of [x**2 - 3*x + 2] do not come as
    [(1.0, 2.0)]. *)
Lemma solve_quadratic_1_m3_2_not_ascending :
  solve_quadratic_func no_float_pow (VInt 1) (VInt (-3)) (VInt 2)
  <> Ok (VTuple [VFloat 1; VFloat 2]).
Proof.
  intros H.
  pose proof
    (f_equal (fun r => match r with
                       | Ok (VTuple (VFloat x :: _)) => (x =? 1)%float
                       | _ => false
                       end) H) as E.
  vm_compute in E. discriminate E.
Qed.

(** C5, as the code has it. With [a] not zero and a positive discriminant
    [d], when the square root, the two sums, [2*a] and the two quotients can
    be computed, the solver returns exactly the two roots, the one with
    [+ sqrt(d)] first; whenever it returns, they could be computed and that
    is what it returns; and when it does not return, it fails with
    [OverflowError]. The discriminant [d] of [int] coefficients is the exact
    [b**2 - 4*a*c]; that of [float] coefficients is the interpreter's
    [b ** 2] less the rounded [4 * a] times [c], rounded. *)
Theorem solve_quadratic_two_roots_order (a b c : pyval) (a' b' c' d : num) :
  as_num a = Some a' -> as_num b = Some b' -> as_num c = Some c' ->
  num_eq0 a' = false ->
  discriminant_of float_pow a' b' c' = Ok d ->
  num_gt0 d = true ->
  (forall sqrt_disc n1 n2 a2 x1 x2,
     math_sqrt d = Ok sqrt_disc ->
     num_add (num_neg b') (NFloat sqrt_disc) = Ok n1 ->
     num_sub (num_neg b') (NFloat sqrt_disc) = Ok n2 ->
     num_mul (NInt 2) a' = Ok a2 ->
     num_truediv n1 a2 = Ok x1 ->
     num_truediv n2 a2 = Ok x2 ->
     solve_quadratic_func float_pow a b c = Ok (VTuple [VFloat x1; VFloat x2]))
  /\ (forall r, solve_quadratic_func float_pow a b c = Ok r ->
      exists sqrt_disc n1 n2 a2 x1 x2,
        math_sqrt d = Ok sqrt_disc
        /\ num_add (num_neg b') (NFloat sqrt_disc) = Ok n1
        /\ num_sub (num_neg b') (NFloat sqrt_disc) = Ok n2
        /\ num_mul (NInt 2) a' = Ok a2
        /\ num_truediv n1 a2 = Ok x1
        /\ num_truediv n2 a2 = Ok x2
        /\ r = VTuple [VFloat x1; VFloat x2])
  /\ (forall e, solve_quadratic_func float_pow a b c = Raise e -> exc_type e = OverflowError)
  /\ (forall za zb zc,
        a' = NInt za -> b' = NInt zb -> c' = NInt zc ->
        d = NInt (zb ^ 2 - 4 * za * zc))
  /\ (forall fa fb fc,
        a' = NFloat fa -> b' = NFloat fb -> c' = NFloat fc ->
        exists b2, float_pow fb 2%float = Ok b2 /\ d = NFloat (b2 - 4 * fa * fc)%float).
Proof.
  intros Ha Hb Hc Hnz Hd Hpos.
  rewrite (solve_quadratic_func_num a b c a' b' c' Ha Hb Hc).
  split; [| split; [| split; [| split]]];
    [| | | intros za zb zc -> -> ->; rewrite discriminant_of_int in Hd; congruence
     | intros fa fb fc -> -> ->; rewrite discriminant_of_float in Hd;
       unfold res_bind in Hd; destruct (float_pow fb 2%float) as [b2 |];
       [exists b2; split; [reflexivity | congruence] | discriminate Hd]].
  - rewrite (solve_num_positive_discriminant a' b' c' d Hnz Hd Hpos).
    intros s n1 n2 a2 x1 x2. apply two_roots_Ok.
  - rewrite (solve_num_positive_discriminant a' b' c' d Hnz Hd Hpos).
    intros r. apply two_roots_Ok_inv.
  - intros e He.
    destruct (solve_num_Raise a' b' c' e He) as [(Za & _) | [Hover | (fb & -> & Hpow)]];
      [congruence | exact Hover |].
    unfold discriminant_of in Hd. cbn [num_pow2] in Hd. unfold res_bind in Hd.
    rewrite Hpow in Hd. discriminate Hd.
Qed.

(** C3 as stated fails: with [a = 0] and [b] not zero the quotient [-c / b]
    of two integers can be too large for a float, and the solver raises. *)
Lemma solve_quadratic_linear_overflow :
  as_num (VInt 0) = Some (NInt 0) /\ num_eq0 (NInt 0) = true
  /\ as_num (VInt 1) = Some (NInt 1) /\ num_eq0 (NInt 1) = false
  /\ solve_quadratic_func no_float_pow (VInt 0) (VInt 1) (VInt (10 ^ 400))
     = raise_msg OverflowError "integer division result too large for a float".
Proof. repeat split; vm_compute; reflexivity. Qed.

(** C5 as stated fails: a positive discriminant can be an integer too large
    for a float, and the solver raises instead of returning two roots. *)
Lemma solve_quadratic_sqrt_overflow :
  num_eq0 (NInt 1) = false
  /\ discriminant_of no_float_pow (NInt 1) (NInt (10 ^ 200)) (NInt 0) = Ok (NInt (10 ^ 400))
  /\ num_gt0 (NInt (10 ^ 400)) = true
  /\ solve_quadratic_func no_float_pow (VInt 1) (VInt (10 ^ 200)) (VInt 0)
     = raise_msg OverflowError "int too large to convert to float".
Proof. repeat split; vm_compute; reflexivity. Qed.

(** C10, as the code has it. Whenever the solver returns two roots [x1] and
    [x2] for numeric coefficients, with [a > 0] the first root is not below
    the second, and with [a < 0] the second is not below the first; when
    neither root is NaN that is [x1 >= x2], respectively [x1 <= x2]. The
    order follows the sign of [a] and is not strict: the two floats can be
    equal. *)
Theorem solve_quadratic_roots_follow_the_sign_of_a
    (a b c : pyval) (a' b' c' : num) (x1 x2 : float) :
  as_num a = Some a' -> as_num b = Some b' -> as_num c = Some c' ->
  solve_quadratic_func float_pow a b c = Ok (VTuple [VFloat x1; VFloat x2]) ->
  (num_gt0 a' = true ->
   (x1 <? x2)%float = false
   /\ (is_nan x1 = false -> is_nan x2 = false -> (x2 <=? x1)%float = true))
  /\ (num_lt0 a' = true ->
      (x2 <? x1)%float = false
      /\ (is_nan x1 = false -> is_nan x2 = false -> (x1 <=? x2)%float = true)).
Proof.
  intros Ha Hb Hc H.
  rewrite (solve_quadratic_func_num a b c a' b' c' Ha Hb Hc) in H.
  apply solve_num_two_roots_inv in H as (s & fb & D & a2 & Hs & Ha2 & HD & Hnz & -> & ->).
  destruct (divisor_sign a' a2 D Ha2 HD Hnz) as [Hpos Hneg].
  split; intros Hsign.
  - assert (Hlt : (((fb + s) / D) <? ((fb - s) / D))%float = false)
      by (apply roots_order_positive_divisor; auto).
    split; [exact Hlt |]. intros N1 N2. now apply float_not_lt_ge.
  - assert (Hlt : (((fb - s) / D) <? ((fb + s) / D))%float = false)
      by (apply roots_order_negative_divisor; auto).
    split; [exact Hlt |]. intros N1 N2. now apply float_not_lt_ge.
Qed.

(** C10 as stated fails: [a > 0] and the discriminant is [1], but the two
    roots the solver returns are the same float, so the first is not
    strictly greater than the second. *)
Lemma solve_quadratic_equal_roots :
  num_gt0 (NInt (2 ^ 53)) = true
  /\ discriminant_of no_float_pow (NInt (2 ^ 53)) (NInt (2 ^ 54 + 1)) (NInt (2 ^ 53 + 1))
     = Ok (NInt 1)
  /\ num_gt0 (NInt 1) = true
  /\ solve_quadratic_func no_float_pow (VInt (2 ^ 53)) (VInt (2 ^ 54 + 1)) (VInt (2 ^ 53 + 1))
     = Ok (VTuple [VFloat (-1); VFloat (-1)])
  /\ ((-1) <? (-1))%float = false.
Proof. repeat split; vm_compute; reflexivity. Qed.

End SolverProperties.

(** ** The properties at work on the module's own examples *)

(** [test_func(5)] under [logger(handle=stream)], as in [test_logging_success]. *)
Lemma logger_returns_the_value_witness :
  render_args (py_repr room) [VInt 5] [] = Ok "5"
  /\ fcall test_func [VInt 5] [] [Written ("INFO: Calling test_func(5)" +++ newline)]
     = (Ok (VInt 10), [Written ("INFO: Calling test_func(5)" +++ newline)])
  /\ py_repr room (VInt 10) = Ok "10"
  /\ fcall (logger_wrap (py_repr room) (py_str_exc room) test_func TextStream)
       [VInt 5] [] []
     = (Ok (VInt 10),
        [Written ("INFO: Calling test_func(5)" +++ newline);
         Written ("INFO: test_func returned 10" +++ newline)]).
Proof.
  do 3 (split; [reflexivity |]).
  exact (proj1 (proj1 (logger_returns_the_value (py_repr room) (py_str_exc room)
                         test_func TextStream [VInt 5] [] [])
                  "5" _ (VInt 10) eq_refl eq_refl)
           "10" eq_refl).
Defined.

(** C1 as stated fails: a function that returns an [int] of 6021 digits
    does not raise, but the decorated function does, because the [repr] of
    the result cannot be had; the logger is left with an error record. *)
Lemma logger_raises_though_the_function_returns :
  fcall (pure_func "f" (fun _ _ => Ok (VInt (2 ^ 20000)))) [] [] []
  = (Ok (VInt (2 ^ 20000)), [])
  /\ fcall (logger_wrap (py_repr room) (py_str_exc room)
              (pure_func "f" (fun _ _ => Ok (VInt (2 ^ 20000)))) LoggingLogger) [] [] []
     = (Raise (Exn ValueError
                 [VStr ("Exceeds the limit (4300 digits) for integer string conversion; "
                        +++ "use sys.set_int_max_str_digits() to increase the limit")]),
        [Record_ INFO "Calling f()";
         Record_ ERROR
           ("f raised ValueError: "
            +++ "Exceeds the limit (4300 digits) for integer string conversion; "
            +++ "use sys.set_int_max_str_digits() to increase the limit")]).
Proof. split; reflexivity. Qed.

Example test_logging_success_log :
  logger_inner (py_repr room) (py_str_exc room) test_func TextStream [VInt 5] [] []
  = (Ok (VInt 10),
     [Written ("INFO: Calling test_func(5)" +++ newline);
      Written ("INFO: test_func returned 10" +++ newline)]).
Proof. reflexivity. Qed.

(** [test_func_error()] under [logger(handle=stream)], as in
    [test_logging_error]. *)
Lemma logger_reraises_the_error_witness :
  render_args (py_repr room) [] [] = Ok ""
  /\ fcall test_func_error [] []
       [Written ("INFO: Calling test_func_error()" +++ newline)]
     = (Raise (Exn ValueError [VStr "Test error"]),
        [Written ("INFO: Calling test_func_error()" +++ newline)])
  /\ cls_is_Exception (exc_type (Exn ValueError [VStr "Test error"])) = true
  /\ py_str_exc room (Exn ValueError [VStr "Test error"]) = Ok "Test error"
  /\ fcall (logger_wrap (py_repr room) (py_str_exc room) test_func_error TextStream)
       [] [] []
     = (Raise (Exn ValueError [VStr "Test error"]),
        [Written ("INFO: Calling test_func_error()" +++ newline);
         Written ("ERROR: test_func_error raised ValueError: Test error" +++ newline)]).
Proof.
  do 4 (split; [reflexivity |]).
  exact (proj1 (proj1 (logger_reraises_the_error (py_repr room) (py_str_exc room)
                         test_func_error TextStream [] [] [])
                  "" (Exn ValueError [VStr "Test error"]) eq_refl eq_refl eq_refl)
           "Test error" eq_refl).
Defined.

(** C2 as stated fails. A function that raises [ValueError("Test error")]
    whatever it is given, called with an [int] of 6021 digits: the decorated
    function raises another error, that of the [repr] of the argument, and
    the stream has received nothing. And a function that raises a
    [ValueError] whose argument is such an [int]: the decorated function
    raises the error of its [str()], and the stream has received the
    call-start event only. *)
Lemma logger_raises_another_error :
  fcall (pure_func "f" (fun _ _ => raise_msg ValueError "Test error"))
    [VInt (2 ^ 20000)] [] []
  = (Raise (Exn ValueError [VStr "Test error"]), [])
  /\ fcall (logger_wrap (py_repr room) (py_str_exc room)
              (pure_func "f" (fun _ _ => raise_msg ValueError "Test error")) TextStream)
       [VInt (2 ^ 20000)] [] []
     = (Raise (Exn ValueError
                 [VStr ("Exceeds the limit (4300 digits) for integer string conversion; "
                        +++ "use sys.set_int_max_str_digits() to increase the limit")]),
        [])
  /\ fcall (pure_func "g" (fun _ _ => Raise (Exn ValueError [VInt (2 ^ 20000)]))) [] [] []
     = (Raise (Exn ValueError [VInt (2 ^ 20000)]), [])
  /\ fcall (logger_wrap (py_repr room) (py_str_exc room)
              (pure_func "g" (fun _ _ => Raise (Exn ValueError [VInt (2 ^ 20000)])))
              TextStream) [] [] []
     = (Raise (Exn ValueError
                 [VStr ("Exceeds the limit (4300 digits) for integer string conversion; "
                        +++ "use sys.set_int_max_str_digits() to increase the limit")]),
        [Written ("INFO: Calling g()" +++ newline)]).
Proof. split; [| split; [| split]]; reflexivity. Qed.

Example test_logging_error_log :
  logger_inner (py_repr room) (py_str_exc room) test_func_error TextStream [] [] []
  = (Raise (Exn ValueError [VStr "Test error"]),
     [Written ("INFO: Calling test_func_error()" +++ newline);
      Written ("ERROR: test_func_error raised ValueError: Test error" +++ newline)]).
Proof. reflexivity. Qed.

(** An exception that is no [Exception] passes through unreported. *)
Example keyboard_interrupt_is_not_logged :
  logger_inner (py_repr room) (py_str_exc room)
    (pure_func "f" (fun _ _ => Raise (Exn KeyboardInterrupt []))) LoggingLogger [] [] []
  = (Raise (Exn KeyboardInterrupt []), [Record_ INFO "Calling f()"]).
Proof. reflexivity. Qed.

(** C9 as stated fails: on a stream, a call that returns an [int] of 6021
    digits leaves the lines Calling and then ERROR, and no returned line;
    and [test_func] called with such an [int] would return its double, but
    leaves no line at all. *)
Lemma logger_stream_lines_without_returned :
  fcall (pure_func "f" (fun _ _ => Ok (VInt (2 ^ 20000)))) [] [] []
  = (Ok (VInt (2 ^ 20000)), [])
  /\ snd (logger_inner (py_repr room) (py_str_exc room)
            (pure_func "f" (fun _ _ => Ok (VInt (2 ^ 20000)))) TextStream [] [] [])
     = [Written ("INFO: Calling f()" +++ newline);
        Written ("ERROR: f raised ValueError: "
                 +++ "Exceeds the limit (4300 digits) for integer string conversion; "
                 +++ "use sys.set_int_max_str_digits() to increase the limit" +++ newline)]
  /\ fcall test_func [VInt (2 ^ 20000)] [] [] = (Ok (VInt (2 ^ 20000 * 2)), [])
  /\ snd (logger_inner (py_repr room) (py_str_exc room) test_func TextStream
            [VInt (2 ^ 20000)] [] [])
     = [].
Proof. split; [| split; [| split]]; reflexivity. Qed.

(** [solve_quadratic(1, -3, 2)], the module's first demonstration call. *)
Lemma quadratic_logger_classifies_by_length_witness :
  py_str room (VInt 1) = Ok "1"
  /\ py_str room (VInt (-3)) = Ok "-3"
  /\ py_str room (VInt 2) = Ok "2"
  /\ lift (solve_quadratic_func no_float_pow (VInt 1) (VInt (-3)) (VInt 2))
       [Written ("INFO: Calling solve_quadratic(a=1, b=-3, c=2)" +++ newline)]
     = (Ok (VTuple [VFloat 2; VFloat 1]),
        [Written ("INFO: Calling solve_quadratic(a=1, b=-3, c=2)" +++ newline)])
  /\ py_str room (VTuple [VFloat 2; VFloat 1]) = Ok "(2.0, 1.0)"
  /\ solve_quadratic (py_str room) (py_str_exc room) no_float_pow
       (VInt 1) (VInt (-3)) (VInt 2) []
     = (Ok (VTuple [VFloat 2; VFloat 1]),
        [Written ("INFO: Calling solve_quadratic(a=1, b=-3, c=2)" +++ newline);
         Written ("INFO: solve_quadratic(1, -3, 2) has two solutions: "
                  +++ "x1 = 2.00, x2 = 1.00" +++ newline);
         Written ("INFO: solve_quadratic returned (2.0, 1.0)" +++ newline)]).
Proof.
  do 5 (split; [vm_compute; reflexivity |]).
  exact (proj2 (proj2 (proj1 (quadratic_logger_classifies_by_length
                                (py_str room) (py_str_exc room)
                                (fun a b c => lift (solve_quadratic_func no_float_pow a b c))
                                TextStream (VInt 1) (VInt (-3)) (VInt 2) [])
                         "1" "-3" "2" _ (VTuple [VFloat 2; VFloat 1]) "(2.0, 1.0)"
                         eq_refl eq_refl eq_refl eq_refl eq_refl))
           2%float 1%float eq_refl).
Defined.

(** C8 as stated fails. With [a] an [int] of 6021 digits, [b = 0] and
    [c = 1] the solver returns the empty tuple, but the decorated solver
    raises before it calls it, and emits nothing, because [str(a)] cannot
    be had. And with [a] the least positive float, [b = 1] and [c = 0] the
    second root is infinite, and is shown as [-inf], with no decimals. *)
Lemma solve_quadratic_unclassified_results :
  solve_quadratic_func no_float_pow (VInt (2 ^ 20000)) (VInt 0) (VInt 1) = Ok (VTuple [])
  /\ solve_quadratic (py_str room) (py_str_exc room) no_float_pow
       (VInt (2 ^ 20000)) (VInt 0) (VInt 1) []
     = (Raise (Exn ValueError
                 [VStr ("Exceeds the limit (4300 digits) for integer string conversion; "
                        +++ "use sys.set_int_max_str_digits() to increase the limit")]),
        [])
  /\ solve_quadratic (py_str room) (py_str_exc room) no_float_pow
       (VFloat 0x1p-1074) (VInt 1) (VInt 0) []
     = (Ok (VTuple [VFloat 0; VFloat neg_infinity]),
        [Written ("INFO: Calling solve_quadratic(a=5e-324, b=1, c=0)" +++ newline);
         Written ("INFO: solve_quadratic(5e-324, 1, 0) has two solutions: "
                  +++ "x1 = 0.00, x2 = -inf" +++ newline);
         Written ("INFO: solve_quadratic returned (0.0, -inf)" +++ newline)]).
Proof.
  split; [reflexivity |]. split; [reflexivity | vm_compute; reflexivity].
Qed.

Example solve_quadratic_demo_log :
  solve_quadratic (py_str room) (py_str_exc room) no_float_pow
    (VInt 1) (VInt (-3)) (VInt 2) []
  = (Ok (VTuple [VFloat 2; VFloat 1]),
     [Written ("INFO: Calling solve_quadratic(a=1, b=-3, c=2)" +++ newline);
      Written ("INFO: solve_quadratic(1, -3, 2) has two solutions: x1 = 2.00, x2 = 1.00"
               +++ newline);
      Written ("INFO: solve_quadratic returned (2.0, 1.0)" +++ newline)]).
Proof. vm_compute. reflexivity. Qed.

Example solve_quadratic_demo_no_roots_log :
  solve_quadratic (py_str room) (py_str_exc room) no_float_pow
    (VInt 1) (VInt 0) (VInt 1) []
  = (Ok (VTuple []),
     [Written ("INFO: Calling solve_quadratic(a=1, b=0, c=1)" +++ newline);
      Written ("WARNING: solve_quadratic(1, 0, 1) has no real solutions." +++ newline);
      Written ("INFO: solve_quadratic returned ()" +++ newline)]).
Proof. vm_compute. reflexivity. Qed.

(** A result that is no sequence fails inside the decorator, as the
    module's demonstration notes for [float('inf')]. *)
Example solve_quadratic_logger_on_a_float :
  solve_quadratic_logger_inner (py_str room) (py_str_exc room)
    (fun _ _ _ => ret (VFloat infinity)) TextStream (VInt 0) (VInt 0) (VInt 0) []
  = (raise_msg TypeError "object of type 'float' has no len()",
     [Written ("INFO: Calling solve_quadratic(a=0, b=0, c=0)" +++ newline);
      Written ("ERROR: solve_quadratic raised TypeError: object of type 'float' has no len()"
               +++ newline)]).
Proof. vm_compute. reflexivity. Qed.

Lemma get_currencies_failures_witness :
  (fun _ : string => Payload (VDict usd_only)) default_url = Payload (VDict usd_only)
  /\ get_currencies (fun _ => Payload (VDict usd_only)) (["USD"] ++ "ZZZ" :: ["USD"])
       default_url
     = Raise (unknown_currency_error "ZZZ").
Proof.
  split; [reflexivity |].
  apply (proj1 (proj2 (get_currencies_failures (fun _ => Payload (VDict usd_only))
                         default_url usd_only eq_refl))
           [("USD", VDict [("Value", VFloat 90.5)])] ["USD"] "ZZZ" ["USD"]).
  - reflexivity.
  - intros x [<- | []]. exists (VFloat 90.5). reflexivity.
  - reflexivity.
Defined.

(** C7 as stated fails: a payload without [Valute] and a code that is no key
    of [Valute] fail with the same class of exception. *)
Lemma missing_field_and_unknown_currency_share_a_class :
  get_currencies (fun _ => Payload (VDict [])) ["ZZZ"] default_url
  = Raise (Exn KeyError [VStr "В ответе API отсутствует ключ 'Valute'"])
  /\ get_currencies (fun _ => Payload (VDict usd_only)) ["ZZZ"] default_url
     = Raise (Exn KeyError [VStr "Валюта 'ZZZ' отсутствует в данных API"])
  /\ exc_type missing_valute_error = exc_type (unknown_currency_error "ZZZ").
Proof. split; [reflexivity | split; reflexivity]. Qed.

Example get_currencies_in_order :
  get_currencies
    (fun _ =>
       Payload
         (VDict [("Valute",
                  VDict [("USD", VDict [("Value", VFloat 90.5)]);
                         ("EUR", VDict [("Value", VInt 100)])])]))
    ["EUR"; "USD"; "EUR"] default_url
  = Ok (VDict [("EUR", VInt 100); ("USD", VFloat 90.5)]).
Proof. reflexivity. Qed.

Lemma solve_quadratic_two_roots_order_witness :
  as_num (VInt 1) = Some (NInt 1)
  /\ num_eq0 (NInt 1) = false
  /\ discriminant_of no_float_pow (NInt 1) (NInt (-3)) (NInt 2) = Ok (NInt 1)
  /\ num_gt0 (NInt 1) = true
  /\ solve_quadratic_func no_float_pow (VInt 1) (VInt (-3)) (VInt 2)
     = Ok (VTuple [VFloat 2; VFloat 1]).
Proof.
  do 4 (split; [reflexivity |]).
  apply (proj1 (solve_quadratic_two_roots_order no_float_pow
                  (VInt 1) (VInt (-3)) (VInt 2)
                  (NInt 1) (NInt (-3)) (NInt 2) (NInt 1)
                  eq_refl eq_refl eq_refl eq_refl eq_refl eq_refl)
           1%float (NFloat 4) (NFloat 2) (NInt 2) 2%float 1%float);
    reflexivity.
Defined.

(** [x**2 - 3*x + 2] has [a > 0] and the roots come as [2.0] then [1.0]. *)
Lemma solve_quadratic_roots_follow_the_sign_of_a_witness :
  as_num (VInt 1) = Some (NInt 1)
  /\ as_num (VInt (-3)) = Some (NInt (-3))
  /\ as_num (VInt 2) = Some (NInt 2)
  /\ solve_quadratic_func no_float_pow (VInt 1) (VInt (-3)) (VInt 2)
     = Ok (VTuple [VFloat 2; VFloat 1])
  /\ num_gt0 (NInt 1) = true
  /\ (2 <? 1)%float = false
  /\ (1 <=? 2)%float = true.
Proof.
  do 5 (split; [reflexivity |]).
  destruct (proj1 (solve_quadratic_roots_follow_the_sign_of_a no_float_pow
                     (VInt 1) (VInt (-3)) (VInt 2) (NInt 1) (NInt (-3)) (NInt 2)
                     2%float 1%float eq_refl eq_refl eq_refl eq_refl) eq_refl)
    as [Hlt Hge].
  split; [exact Hlt | exact (Hge eq_refl eq_refl)].
Defined.

(* ================================================================= *)
(** * Further properties *)

(** ** The generic decorator: what it leaves alone, nesting, the argument text *)

Section LoggerFurther.

Variable repr : pyval -> res string.
Variable str_exc : exn -> res string.

(** An exception that is no [Exception] (a [KeyboardInterrupt], a
    [SystemExit]) is not caught: when the text of the arguments can be had,
    it leaves the decorated function as it left the function, and no error
    event is emitted. *)
Theorem logger_passes_non_exceptions_unlogged (func : pyfunc) (handle : handle_obj)
    (args : list pyval) (kwargs : list (string * pyval)) (all_args_str : string)
    (l l' : log) (e : exn) :
  render_args repr args kwargs = Ok all_args_str ->
  fcall func args kwargs
    (l ++ [event_entry handle INFO
             ("Calling " +++ fname func +++ "(" +++ all_args_str +++ ")")])
    = (Raise e, l') ->
  cls_is_Exception (exc_type e) = false ->
  fcall (logger_wrap repr str_exc func handle) args kwargs l = (Raise e, l').
Proof.
  intros Htext Hcall Hexc. cbn [logger_wrap fcall].
  rewrite logger_inner_emit, Htext. unfold calling_msg, emit.
  rewrite Hcall. unfold reported. now rewrite Hexc.
Qed.



(** [logger(handle=h)] is the decorator; applied twice to a function that
    returns [v] and writes nothing, when the text of the arguments and the
    [repr] of [v] can be had, the events nest: two call-start events, then
    two returned events, all under the name of the function
    ([functools.wraps] hands the name on), and [v] comes back. *)
Theorem logger_stacked (handle : handle_obj) (d : pyfunc -> pyfunc) (name : string)
    (f : list pyval -> list (string * pyval) -> res pyval)
    (args : list pyval) (kwargs : list (string * pyval)) (l : log) (v : pyval)
    (all_args_str r : string) :
  logger repr str_exc None handle = Decorator d ->
  render_args repr args kwargs = Ok all_args_str ->
  f args kwargs = Ok v ->
  repr v = Ok r ->
  fname (d (d (pure_func name f))) = name
  /\ fcall (d (d (pure_func name f))) args kwargs l
     = (Ok v,
        l ++ [event_entry handle INFO ("Calling " +++ name +++ "(" +++ all_args_str +++ ")");
              event_entry handle INFO ("Calling " +++ name +++ "(" +++ all_args_str +++ ")");
              event_entry handle INFO (name +++ " returned " +++ r);
              event_entry handle INFO (name +++ " returned " +++ r)]).
Proof.
  intros Hd Htext Hf Hr. cbn [logger] in Hd. injection Hd as <-.
  split; [reflexivity |].
  cbn [logger_wrap fcall]. rewrite logger_inner_emit, Htext.
  cbn [logger_wrap fcall fname]. rewrite logger_inner_emit, Htext.
  cbn [pure_func fcall fname]. unfold lift. rewrite Hf, Hr, Hr.
  unfold emit, calling_msg, returned_msg.
  now rewrite <- !app_assoc.
Qed.

Lemma join_cons_nonempty (sep p : string) (rest : list string) :
  p <> "" -> join sep (p :: rest) <> "".
Proof.
  intros Hp. destruct rest as [| q rest]; cbn [join]; [exact Hp |].
  destruct p; [contradiction | discriminate].
Qed.

Lemma nonempty_true (s : string) : s <> "" -> nonempty s = true.
Proof. destruct s; [contradiction | reflexivity]. Qed.

(** [map_res] succeeds when [f] does on every element, with its results in
    their order. *)
Lemma map_res_Ok {A B : Type} (f : A -> res B) (xs : list A) (ys : list B) :
  map_res f xs = Ok ys <-> Forall2 (fun x y => f x = Ok y) xs ys.
Proof.
  revert ys. induction xs as [| x xs IH]; intros ys; cbn [map_res].
  - split.
    + intros [= <-]. constructor.
    + intros H. inversion H. reflexivity.
  - unfold res_bind. split.
    + destruct (f x) as [y | e] eqn:Hy; [| discriminate].
      destruct (map_res f xs) as [ys' | e]; [| discriminate].
      intros [= <-]. constructor; [exact Hy | now apply IH].
    + intros H. inversion H as [| x0 y xs0 ys' Hy Hrest]; subst.
      rewrite Hy. apply IH in Hrest. now rewrite Hrest.
Qed.

Lemma render_kwarg_Ok (kv : string * pyval) (t : string) :
  render_kwarg repr kv = Ok t <-> exists r, repr (snd kv) = Ok r /\ t = fst kv +++ "=" +++ r.
Proof.
  unfold render_kwarg, res_bind. destruct (repr (snd kv)) as [r | e].
  - split.
    + intros [= <-]. now exists r.
    + intros (r' & [= <-] & ->). reflexivity.
  - split; [discriminate | intros (r' & H & _); discriminate H].
Qed.

Lemma render_kwarg_nonempty (kv : string * pyval) (t : string) :
  render_kwarg repr kv = Ok t -> t <> "".
Proof.
  intros H. apply render_kwarg_Ok in H as (r & _ & ->).
  destruct (fst kv); cbn; discriminate.
Qed.

(** The argument text of the call-start event: the [repr]s of the
    positional arguments, then [key=repr] for the keyword arguments, joined
    by a comma and a space, and no separator is left over when there are no
    positional or no keyword arguments. The [repr]s are taken in that
    order, and the first that raises is what the text raises. *)
Theorem render_args_shape (args : list pyval) (kwargs : list (string * pyval)) :
  (forall rs, map_res repr args = Ok rs -> render_args repr args [] = Ok (join ", " rs))
  /\ (forall ks, map_res (render_kwarg repr) kwargs = Ok ks ->
        render_args repr [] kwargs = Ok (join ", " ks))
  /\ (forall rs ks,
        map_res repr args = Ok rs -> map_res (render_kwarg repr) kwargs = Ok ks ->
        join ", " rs <> "" -> kwargs <> [] ->
        render_args repr args kwargs = Ok (join ", " rs +++ ", " +++ join ", " ks))
  /\ (forall e, map_res repr args = Raise e -> render_args repr args kwargs = Raise e)
  /\ (forall rs e,
        map_res repr args = Ok rs -> map_res (render_kwarg repr) kwargs = Raise e ->
        render_args repr args kwargs = Raise e)
  /\ (forall rs, map_res repr args = Ok rs <-> Forall2 (fun v r => repr v = Ok r) args rs)
  /\ (forall ks,
        map_res (render_kwarg repr) kwargs = Ok ks
        <-> Forall2 (fun kv t => exists r, repr (snd kv) = Ok r /\ t = fst kv +++ "=" +++ r)
              kwargs ks).
Proof.
  unfold render_args, res_bind.
  split; [| split; [| split; [| split; [| split; [| split]]]]].
  - intros rs ->. cbn [map_res join filter nonempty].
    destruct (join ", " rs) eqn:E; reflexivity.
  - intros ks ->. cbn [map_res join filter nonempty].
    destruct (join ", " ks) eqn:E; reflexivity.
  - intros rs ks Hrs Hks Ha Hk. rewrite Hrs, Hks.
    destruct kwargs as [| kv kwargs]; [contradiction |].
    cbn [filter]. rewrite (nonempty_true _ Ha).
    rewrite (nonempty_true (join ", " ks)); [reflexivity |].
    cbn [map_res] in Hks. unfold res_bind in Hks.
    destruct (render_kwarg repr kv) as [t | e] eqn:Ht; [| discriminate].
    destruct (map_res (render_kwarg repr) kwargs) as [ts | e]; [| discriminate].
    injection Hks as <-. apply join_cons_nonempty. exact (render_kwarg_nonempty kv t Ht).
  - now intros e ->.
  - now intros rs e -> ->.
  - intros rs. apply map_res_Ok.
  - intros ks. rewrite map_res_Ok. split; intros H.
    + induction H as [| kv t kvs ts Ht _ IH]; constructor; [| exact IH].
      now apply render_kwarg_Ok.
    + induction H as [| kv t kvs ts Ht _ IH]; constructor; [| exact IH].
      now apply render_kwarg_Ok.
Qed.

End LoggerFurther.

(** ** The rate fetch: every failure, repeated codes, the order of codes *)


Lemma dict_set_same_value (d : list (string * pyval)) (k : string) (v : pyval) :
  dict_lookup d k = Some v -> dict_set d k v = d.
Proof.
  induction d as [| [k' v'] d IH]; cbn [dict_lookup dict_set]; [discriminate |].
  destruct (String.eqb k' k) eqn:E.
  - now intros [= ->].
  - intros H. now rewrite IH.
Qed.





Lemma get_currencies_loop_app (valute_data : pyval) (xs ys : list string) :
  forall result,
    get_currencies_loop valute_data (xs ++ ys) result
    = (r <- get_currencies_loop valute_data xs result ;;
       get_currencies_loop valute_data ys r)%res.
Proof.
  induction xs as [| x xs IH]; intros result; [reflexivity |].
  cbn [app]. rewrite !get_currencies_loop_step.
  destruct (check_code valute_data x) as [v | e]; cbn [res_bind]; [apply IH | reflexivity].
Qed.

Lemma get_currencies_loop_first_occurrences (valute_data : pyval) (codes : list string) :
  get_currencies_loop valute_data codes []
  = get_currencies_loop valute_data (first_occurrences codes) [].
Proof.
  induction codes as [| c cs IH] using rev_ind; [reflexivity |].
  unfold first_occurrences. rewrite fold_left_app. cbn [fold_left].
  fold (first_occurrences cs). unfold add_key.
  rewrite get_currencies_loop_app.
  destruct (existsb (String.eqb c) (first_occurrences cs)) eqn:Hin.
  - rewrite <- IH.
    destruct (get_currencies_loop valute_data cs []) as [d | e] eqn:Hloop;
      cbn [res_bind]; [| reflexivity].
    assert (Hc : In c cs).
    { apply existsb_exists in Hin. destruct Hin as (x & Hx & Ex).
      apply String.eqb_eq in Ex. subst x.
      unfold first_occurrences in Hx. apply In_fold_add_key in Hx.
      destruct Hx as [[] | Hx]. exact Hx. }
    pose proof (get_currencies_loop_Ok_inv _ _ _ _ Hloop) as Hall.
    destruct (Hall c Hc) as [v Hv].
    destruct (get_currencies_loop_Ok valute_data cs Hall []) as (d' & Hd' & _ & Hvals & _).
    rewrite Hloop in Hd'. injection Hd' as <-.
    rewrite get_currencies_loop_step, Hv. cbn [res_bind get_currencies_loop].
    now rewrite (dict_set_same_value d c v (Hvals c v Hc Hv)).
  - rewrite get_currencies_loop_app, IH. reflexivity.
Qed.

(** Asking for a code more than once changes nothing: the fetch returns, or
    raises, what it does for the codes at their first occurrences. *)
Theorem get_currencies_repeated_codes (http : string -> http_outcome)
    (codes : list string) (url : string) :
  get_currencies http codes url = get_currencies http (first_occurrences codes) url.
Proof.
  unfold get_currencies. destruct (http url) as [cause | | data]; try reflexivity.
  destruct (py_contains data "Valute") as [[|] | e]; cbn [res_bind negb]; try reflexivity.
  destruct (py_getitem_str data "Valute") as [valute_data | e]; cbn [res_bind];
    [| reflexivity].
  now rewrite get_currencies_loop_first_occurrences.
Qed.

(** The rates do not depend on the order of the codes: two lists with the
    same codes both succeed or both fail, and when they succeed every code
    is bound to the same rate in both results. *)
Theorem get_currencies_order_irrelevant (http : string -> http_outcome)
    (codes codes' : list string) (url : string) (r : pyval) :
  (forall x, In x codes <-> In x codes') ->
  get_currencies http codes url = Ok r ->
  exists d d',
    r = VDict d
    /\ get_currencies http codes' url = Ok (VDict d')
    /\ (forall k, dict_lookup d' k = dict_lookup d k).
Proof.
  intros Hsame. unfold get_currencies.
  destruct (http url) as [cause | | data]; try discriminate.
  destruct (py_contains data "Valute") as [[|] | e]; cbn [res_bind negb]; try discriminate.
  destruct (py_getitem_str data "Valute") as [valute_data | e]; cbn [res_bind];
    [| discriminate].
  destruct (get_currencies_loop valute_data codes []) as [d | e] eqn:Hloop;
    [| discriminate].
  intros [= <-].
  pose proof (get_currencies_loop_Ok_inv _ _ _ _ Hloop) as Hall.
  assert (Hall' : forall code, In code codes' ->
                    exists v, check_code valute_data code = Ok v)
    by (intros code Hin; apply Hall, Hsame, Hin).
  destruct (get_currencies_loop_Ok valute_data codes Hall [])
    as (d0 & Hd0 & _ & Hvals & Hframe).
  rewrite Hloop in Hd0. injection Hd0 as <-.
  destruct (get_currencies_loop_Ok valute_data codes' Hall' [])
    as (d' & Hd' & _ & Hvals' & Hframe').
  exists d, d'. rewrite Hd'. split; [reflexivity | split; [reflexivity |]].
  intros k. destruct (in_dec string_dec k codes) as [Hin | Hnin].
  - destruct (Hall k Hin) as [v Hv].
    rewrite (Hvals k v Hin Hv). apply Hvals'; [now apply Hsame | exact Hv].
  - rewrite (Hframe k Hnin). apply Hframe'. intros H. apply Hnin. now apply Hsame.
Qed.

Lemma get_currencies_order_irrelevant_witness :
  (forall x, In x ["EUR"; "USD"] <-> In x ["USD"; "EUR"])
  /\ get_currencies (fun _ => Payload (VDict usd_and_eur)) ["EUR"; "USD"] default_url
     = Ok (VDict [("EUR", VFloat 98.25); ("USD", VFloat 90.5)])
  /\ exists d d',
       VDict [("EUR", VFloat 98.25); ("USD", VFloat 90.5)] = VDict d
       /\ get_currencies (fun _ => Payload (VDict usd_and_eur)) ["USD"; "EUR"] default_url
          = Ok (VDict d')
       /\ d' = [("USD", VFloat 90.5); ("EUR", VFloat 98.25)]
       /\ (forall k, dict_lookup d' k = dict_lookup d k).
Proof.
  assert (Hsame : forall x, In x ["EUR"; "USD"] <-> In x ["USD"; "EUR"])
    by (intros x; cbn; tauto).
  split; [exact Hsame |]. split; [reflexivity |].
  destruct (get_currencies_order_irrelevant (fun _ => Payload (VDict usd_and_eur))
              ["EUR"; "USD"] ["USD"; "EUR"] default_url
              (VDict [("EUR", VFloat 98.25); ("USD", VFloat 90.5)]) Hsame eq_refl)
    as (d & d' & Hd & Hd' & Hlookup).
  exists d, d'. split; [exact Hd |]. split; [exact Hd' |]. split; [| exact Hlookup].
  assert (E : Ok (VDict d') = Ok (VDict [("USD", VFloat 90.5); ("EUR", VFloat 98.25)]))
    by (rewrite <- Hd'; reflexivity).
  congruence.
Defined.

(** ** The quadratic decorator: failures and results of other shapes *)

Section QuadraticLoggerFurther.

Variable str : pyval -> res string.
Variable str_exc : exn -> res string.
Variable float_pow : float -> float -> res float.

(** When [str(a)], [str(b)] and [str(c)] can be had and the function
    raises, the quadratic decorator re-raises the same exception: an
    [Exception] is first reported by an error event, under the fixed name
    solve_quadratic whatever function is decorated, when its [str()] can be
    had; when its [str()] raises, that exception is raised instead and
    nothing is reported; and an exception that is no [Exception] is not
    reported. *)
Theorem quadratic_logger_reraises (func : func3) (handle : handle_obj)
    (a b c : pyval) (calling : string) (l l' : log) (e : exn) :
  quadratic_calling_text str a b c = Ok calling ->
  func a b c (l ++ [event_entry handle INFO calling]) = (Raise e, l') ->
  (cls_is_Exception (exc_type e) = false ->
   solve_quadratic_logger_inner str str_exc func handle a b c l = (Raise e, l'))
  /\ (cls_is_Exception (exc_type e) = true ->
      (forall e_str, str_exc e = Ok e_str ->
         solve_quadratic_logger_inner str str_exc func handle a b c l
         = (Raise e,
            l' ++ [event_entry handle ERROR
                     ("solve_quadratic raised " +++ cls_name (exc_type e) +++ ": "
                      +++ e_str)]))
      /\ (forall e', str_exc e = Raise e' ->
            solve_quadratic_logger_inner str str_exc func handle a b c l = (Raise e', l'))).
Proof.
  intros Hcalling Hcall. rewrite solve_quadratic_logger_inner_emit, Hcalling.
  unfold emit. rewrite Hcall.
  unfold reported, emit. split; [now intros -> |]. intros ->. split.
  - now intros s ->.
  - now intros e' ->.
Qed.

(** The classification reads the result as a sequence and looks at no more
    than its first two elements. A result with no length (a number, [None])
    makes the decorated call fail with the [TypeError] of [len], handled as
    an exception of the function is, although the function returned; an
    empty list is no [()] and fails with [IndexError]; and any longer tuple
    or list of floats is reported as two solutions, its first two
    elements. *)
Theorem quadratic_logger_other_results (func : func3) (handle : handle_obj)
    (a b c : pyval) (sa sb sc : string) (l l' : log) (result : pyval) :
  str a = Ok sa -> str b = Ok sb -> str c = Ok sc ->
  func a b c
    (l ++ [event_entry handle INFO
             ("Calling solve_quadratic(a=" +++ sa +++ ", b=" +++ sb +++ ", c=" +++ sc
              +++ ")")])
    = (Ok result, l') ->
  (forall e, py_len result = Raise e ->
     e = Exn TypeError [VStr ("object of type '" +++ type_name result +++ "' has no len()")]
     /\ solve_quadratic_logger_inner str str_exc func handle a b c l
        = reported str_exc "solve_quadratic" handle e l')
  /\ (result = VList [] ->
      solve_quadratic_logger_inner str str_exc func handle a b c l
      = reported str_exc "solve_quadratic" handle
          (Exn IndexError [VStr "list index out of range"]) l')
  /\ (forall x1 x2 rest sr,
        result = VTuple (VFloat x1 :: VFloat x2 :: rest)
        \/ result = VList (VFloat x1 :: VFloat x2 :: rest) ->
        str result = Ok sr ->
        solve_quadratic_logger_inner str str_exc func handle a b c l
        = (Ok result,
           l' ++ [event_entry handle INFO
                    ("solve_quadratic(" +++ sa +++ ", " +++ sb +++ ", " +++ sc
                     +++ ") has two solutions: x1 = " +++ format_float_2f x1
                     +++ ", x2 = " +++ format_float_2f x2);
                  event_entry handle INFO ("solve_quadratic returned " +++ sr)])).
Proof.
  intros Ha Hb Hc Hcall.
  assert (Hcalling : quadratic_calling_text str a b c
                     = Ok ("Calling solve_quadratic(a=" +++ sa +++ ", b=" +++ sb
                           +++ ", c=" +++ sc +++ ")"))
    by (unfold quadratic_calling_text; now rewrite Ha, Hb, Hc).
  split; [| split].
  - intros e He.
    assert (E : e = Exn TypeError
                      [VStr ("object of type '" +++ type_name result +++ "' has no len()")]).
    { destruct result; cbn [py_len] in He; try discriminate He;
        unfold raise_msg in He; congruence. }
    split; [exact E |].
    rewrite solve_quadratic_logger_inner_emit, Hcalling. unfold emit at 1.
    rewrite Hcall. unfold classification.
    assert (Hne : eq_empty_tuple result = false)
      by (destruct result as [ | | | | | [|] | |]; try reflexivity; discriminate He).
    rewrite Hne, He. reflexivity.
  - intros ->. rewrite solve_quadratic_logger_inner_emit, Hcalling. unfold emit at 1.
    rewrite Hcall. unfold classification, two_solutions_text.
    cbn [eq_empty_tuple py_len List.length Nat.eqb res_bind].
    rewrite Ha, Hb, Hc. reflexivity.
  - intros x1 x2 rest sr Hres Hsr.
    assert (Hreturned : quadratic_returned_text str result
                        = Ok ("solve_quadratic returned " +++ sr))
      by (unfold quadratic_returned_text; now rewrite Hsr).
    rewrite solve_quadratic_logger_inner_emit, Hcalling. unfold emit at 1.
    rewrite Hcall, Hreturned.
    destruct Hres as [-> | ->];
      unfold classification, two_solutions_text;
      cbn [eq_empty_tuple py_len List.length Nat.eqb res_bind];
      rewrite Ha, Hb, Hc; destruct rest;
      cbn [res_bind py_getitem_nat nth_error format_2f py_len List.length Nat.eqb];
      unfold emit; rewrite <- app_assoc; reflexivity.
Qed.

(** What [solve_quadratic_func] raises is an [Exception], when what the
    power of a [float] raises is one. *)
Lemma solve_quadratic_func_raises_Exception (a b c : pyval) (e : exn) :
  (forall x e', float_pow x 2%float = Raise e' -> cls_is_Exception (exc_type e') = true) ->
  solve_quadratic_func float_pow a b c = Raise e -> cls_is_Exception (exc_type e) = true.
Proof.
  intros Hpow. unfold solve_quadratic_func.
  destruct (as_num a) as [a' |]; [| now intros [= <-]].
  destruct (as_num b) as [b' |]; [| now intros [= <-]].
  destruct (as_num c) as [c' |]; [| now intros [= <-]].
  intros H.
  destruct (solve_num_Raise float_pow a' b' c' e H)
    as [(_ & _ & _ & ->) | [Hover | (fb & _ & Hfb)]].
  - reflexivity.
  - now rewrite Hover.
  - exact (Hpow fb e Hfb).
Qed.

(** The decorated [solve_quadratic] of the module returns, or raises,
    exactly what the solver under it does, provided the texts of its
    messages can be had ([str(a)], [str(b)], [str(c)], the [str()] of the
    result or of the exception) and the power of a [float] raises nothing
    but an [Exception]: the classification cannot fail on what the solver
    returns. On the way it writes to the stream three lines for a call that
    returns and two for one that raises, after what the stream held. *)
Theorem solve_quadratic_decorated_is_transparent (a b c : pyval) (l : log) :
  (forall x e, float_pow x 2%float = Raise e -> cls_is_Exception (exc_type e) = true) ->
  (exists sa, str a = Ok sa) -> (exists sb, str b = Ok sb) -> (exists sc, str c = Ok sc) ->
  (forall r, solve_quadratic_func float_pow a b c = Ok r -> exists sr, str r = Ok sr) ->
  (forall e, solve_quadratic_func float_pow a b c = Raise e -> exists s, str_exc e = Ok s) ->
  exists written,
    solve_quadratic str str_exc float_pow a b c l
    = (solve_quadratic_func float_pow a b c, l ++ written)
    /\ List.length written
       = match solve_quadratic_func float_pow a b c with Ok _ => 3%nat | Raise _ => 2%nat end
    /\ Forall (fun en => exists text, en = Written text) written.
Proof.
  intros Hpow [sa Ha] [sb Hb] [sc Hc] Hstr Hstr_exc.
  unfold solve_quadratic. rewrite solve_quadratic_logger_inner_emit.
  unfold quadratic_calling_text. rewrite Ha, Hb, Hc. cbn [res_bind]. unfold lift.
  destruct (solve_quadratic_func float_pow a b c) as [r | e] eqn:Hsolve.
  - destruct (Hstr r eq_refl) as [sr Hsr].
    assert (Hshape : r = VTuple []
                     \/ (exists x, r = VTuple [VFloat x])
                     \/ (exists x1 x2, r = VTuple [VFloat x1; VFloat x2])).
    { revert Hsolve. unfold solve_quadratic_func.
      destruct (as_num a) as [a' |]; [| discriminate].
      destruct (as_num b) as [b' |]; [| discriminate].
      destruct (as_num c) as [c' |]; [| discriminate].
      apply solve_num_shape. }
    unfold quadratic_returned_text. rewrite Hsr. cbn [res_bind].
    destruct Hshape as [-> | [(x & ->) | (x1 & x2 & ->)]];
      unfold classification, no_solutions_text, one_solution_text, two_solutions_text;
      cbn [eq_empty_tuple py_len List.length Nat.eqb];
      rewrite Ha, Hb, Hc;
      cbn [res_bind py_getitem_nat nth_error format_2f py_len List.length Nat.eqb];
      unfold emit; rewrite <- !app_assoc; cbn [app event_entry];
      eexists; (split; [reflexivity | split; [reflexivity |]]);
      repeat constructor; eexists; reflexivity.
  - destruct (Hstr_exc e eq_refl) as [s Hs]. unfold reported.
    rewrite (solve_quadratic_func_raises_Exception a b c e Hpow Hsolve), Hs.
    unfold emit. rewrite <- !app_assoc. cbn [app event_entry].
    eexists. split; [reflexivity | split; [reflexivity |]].
    repeat constructor; eexists; reflexivity.
Qed.

End QuadraticLoggerFurther.

Lemma quadratic_logger_reraises_witness :
  quadratic_calling_text (py_str room) (VInt 0) (VInt 0) (VInt 0)
  = Ok "Calling solve_quadratic(a=0, b=0, c=0)"
  /\ lift (solve_quadratic_func no_float_pow (VInt 0) (VInt 0) (VInt 0))
       [Written ("INFO: Calling solve_quadratic(a=0, b=0, c=0)" +++ newline)]
     = (Raise (Exn ValueError [VStr "Уравнение имеет бесконечно много решений"]),
        [Written ("INFO: Calling solve_quadratic(a=0, b=0, c=0)" +++ newline)])
  /\ py_str_exc room (Exn ValueError [VStr "Уравнение имеет бесконечно много решений"])
     = Ok "Уравнение имеет бесконечно много решений"
  /\ solve_quadratic (py_str room) (py_str_exc room) no_float_pow
       (VInt 0) (VInt 0) (VInt 0) []
     = (Raise (Exn ValueError [VStr "Уравнение имеет бесконечно много решений"]),
        [Written ("INFO: Calling solve_quadratic(a=0, b=0, c=0)" +++ newline);
         Written ("ERROR: solve_quadratic raised ValueError: "
                  +++ "Уравнение имеет бесконечно много решений" +++ newline)]).
Proof.
  do 3 (split; [reflexivity |]).
  exact (proj1 (proj2 (quadratic_logger_reraises (py_str room) (py_str_exc room)
                         (fun a b c => lift (solve_quadratic_func no_float_pow a b c))
                         TextStream (VInt 0) (VInt 0) (VInt 0) _ [] _
                         (Exn ValueError [VStr "Уравнение имеет бесконечно много решений"])
                         eq_refl eq_refl) eq_refl)
           "Уравнение имеет бесконечно много решений" eq_refl).
Defined.

Lemma quadratic_logger_other_results_witness :
  py_str room (VInt 0) = Ok "0"
  /\ (fun _ _ _ : pyval => ret (VFloat infinity)) (VInt 0) (VInt 0) (VInt 0)
       [Written ("INFO: Calling solve_quadratic(a=0, b=0, c=0)" +++ newline)]
     = (Ok (VFloat infinity),
        [Written ("INFO: Calling solve_quadratic(a=0, b=0, c=0)" +++ newline)])
  /\ py_len (VFloat infinity)
     = Raise (Exn TypeError [VStr "object of type 'float' has no len()"])
  /\ solve_quadratic_logger_inner (py_str room) (py_str_exc room)
       (fun _ _ _ => ret (VFloat infinity)) TextStream (VInt 0) (VInt 0) (VInt 0) []
     = (Raise (Exn TypeError [VStr "object of type 'float' has no len()"]),
        [Written ("INFO: Calling solve_quadratic(a=0, b=0, c=0)" +++ newline);
         Written ("ERROR: solve_quadratic raised TypeError: "
                  +++ "object of type 'float' has no len()" +++ newline)]).
Proof.
  do 3 (split; [reflexivity |]).
  exact (proj2 (proj1 (quadratic_logger_other_results (py_str room) (py_str_exc room)
                         (fun _ _ _ => ret (VFloat infinity)) TextStream
                         (VInt 0) (VInt 0) (VInt 0) "0" "0" "0" [] _ (VFloat infinity)
                         eq_refl eq_refl eq_refl eq_refl)
                  (Exn TypeError [VStr "object of type 'float' has no len()"]) eq_refl)).
Defined.

Lemma solve_quadratic_decorated_is_transparent_witness :
  (exists sa, py_str room (VInt 1) = Ok sa)
  /\ solve_quadratic_func no_float_pow (VInt 1) (VInt (-3)) (VInt 2)
     = Ok (VTuple [VFloat 2; VFloat 1])
  /\ exists written,
       solve_quadratic (py_str room) (py_str_exc room) no_float_pow
         (VInt 1) (VInt (-3)) (VInt 2) [Written "kept"]
       = (solve_quadratic_func no_float_pow (VInt 1) (VInt (-3)) (VInt 2),
          [Written "kept"] ++ written)
       /\ List.length written = 3%nat.
Proof.
  split; [now exists "1" |]. split; [reflexivity |].
  destruct (solve_quadratic_decorated_is_transparent (py_str room) (py_str_exc room)
              no_float_pow (VInt 1) (VInt (-3)) (VInt 2) [Written "kept"])
    as (written & Hcall & Hlen & _).
  - intros x e H. injection H as <-. reflexivity.
  - now exists "1".
  - now exists "-3".
  - now exists "2".
  - intros r H. exists "(2.0, 1.0)".
    assert (E : Ok r = Ok (VTuple [VFloat 2; VFloat 1])) by (rewrite <- H; reflexivity).
    injection E as ->. reflexivity.
  - intros e H.
    assert (E : Raise e = Ok (VTuple [VFloat 2; VFloat 1])) by (rewrite <- H; reflexivity).
    discriminate E.
  - exists written. split; [exact Hcall | exact Hlen].
Defined.

(** ** The solver on integers, and on a NaN *)

Section SolverFurther.

Variable float_pow : float -> float -> res float.

(** On integer coefficients the discriminant is computed exactly, so the
    number of roots the solver returns is the number of real roots of the
    equation: none, one (a double root), or two, as [b**2 - 4*a*c] is
    negative, zero or positive; and with a negative discriminant it always
    returns. *)
Theorem solve_quadratic_integer_root_count (za zb zc : Z) :
  za <> 0%Z ->
  ((zb ^ 2 - 4 * za * zc < 0)%Z ->
   solve_quadratic_func float_pow (VInt za) (VInt zb) (VInt zc) = Ok (VTuple []))
  /\ (forall r, solve_quadratic_func float_pow (VInt za) (VInt zb) (VInt zc) = Ok r ->
      (r = VTuple [] <-> (zb ^ 2 - 4 * za * zc < 0)%Z)
      /\ ((exists x, r = VTuple [VFloat x]) <-> (zb ^ 2 - 4 * za * zc = 0)%Z)
      /\ ((exists x1 x2, r = VTuple [VFloat x1; VFloat x2])
          <-> (0 < zb ^ 2 - 4 * za * zc)%Z)).
Proof.
  intros Hza.
  assert (Hsolve : solve_quadratic_func float_pow (VInt za) (VInt zb) (VInt zc)
                   = solve_num float_pow (NInt za) (NInt zb) (NInt zc)) by reflexivity.
  rewrite Hsolve. unfold solve_num. cbn [num_eq0].
  rewrite (proj2 (Z.eqb_neq za 0) Hza), (discriminant_of_int float_pow). unfold res_bind.
  cbn [num_lt0 num_eq0].
  set (d := (zb ^ 2 - 4 * za * zc)%Z).
  split.
  - intros Hd. now rewrite (proj2 (Z.ltb_lt d 0) Hd).
  - intros r. destruct (d <? 0)%Z eqn:Hlt.
    + apply Z.ltb_lt in Hlt. intros [= <-].
      split; [tauto | split; split].
      * intros (x & [=]).
      * lia.
      * intros (x1 & x2 & [=]).
      * lia.
    + apply Z.ltb_ge in Hlt. destruct (d =? 0)%Z eqn:Hz.
      * apply Z.eqb_eq in Hz.
        destruct (num_mul (NInt 2) (NInt za)) as [a2 | e]; [| discriminate].
        destruct (num_truediv (num_neg (NInt zb)) a2) as [x | e]; [| discriminate].
        intros [= <-]. split; [split; [discriminate | lia] | split; split].
        -- intros _. exact Hz.
        -- intros _. now exists x.
        -- intros (x1 & x2 & [=]).
        -- lia.
      * apply Z.eqb_neq in Hz.
        destruct (math_sqrt (NInt d)) as [s | e]; [| discriminate].
        destruct (num_add (num_neg (NInt zb)) (NFloat s)) as [n1 | e]; [| discriminate].
        destruct (num_mul (NInt 2) (NInt za)) as [a2 | e]; [| discriminate].
        destruct (num_truediv n1 a2) as [x1 | e]; [| discriminate].
        destruct (num_sub (num_neg (NInt zb)) (NFloat s)) as [n2 | e]; [| discriminate].
        destruct (num_truediv n2 a2) as [x2 | e]; [| discriminate].
        intros [= <-]. split; [split; [discriminate | lia] | split; split].
        -- intros (x & [=]).
        -- lia.
        -- intros _. lia.
        -- intros _. now exists x1, x2.
Qed.

Lemma is_nan_iff (f : float) : is_nan f = true <-> Prim2SF f = S754_nan.
Proof.
  split.
  - intros H. unfold Prim2SF. now rewrite H.
  - intros H. destruct (is_nan f) eqn:E; [reflexivity |].
    now destruct (is_nan_Prim2SF f E).
Qed.

Lemma nan_mul_r (x y : float) : is_nan y = true -> is_nan (x * y) = true.
Proof.
  rewrite !is_nan_iff, mul_spec. intros ->. unfold SF64mul. now destruct (Prim2SF x).
Qed.

Lemma nan_mul_l (x y : float) : is_nan x = true -> is_nan (x * y) = true.
Proof.
  rewrite !is_nan_iff, mul_spec. intros ->. reflexivity.
Qed.

Lemma nan_sub_r (x y : float) : is_nan y = true -> is_nan (x - y) = true.
Proof.
  rewrite !is_nan_iff, sub_spec. intros ->. unfold SF64sub. now destruct (Prim2SF x).
Qed.

Lemma nan_add_r (x y : float) : is_nan y = true -> is_nan (x + y) = true.
Proof.
  rewrite !is_nan_iff, add_spec. intros ->. unfold SF64add. now destruct (Prim2SF x).
Qed.

Lemma nan_div_l (x y : float) : is_nan x = true -> is_nan (x / y) = true.
Proof.
  rewrite !is_nan_iff, div_spec. intros ->. reflexivity.
Qed.

Lemma nan_sqrt (x : float) : is_nan x = true -> is_nan (sqrt x) = true.
Proof.
  rewrite !is_nan_iff, sqrt_spec. intros ->. reflexivity.
Qed.

Lemma nan_not_lt0 (x : float) : is_nan x = true -> (x <? 0)%float = false.
Proof. rewrite is_nan_iff, ltb_spec. intros ->. reflexivity. Qed.

Lemma nan_not_eq0 (x : float) : is_nan x = true -> (x =? 0)%float = false.
Proof. rewrite is_nan_iff, eqb_spec. intros ->. reflexivity. Qed.

(** A product or a difference whose second operand is a NaN is a NaN,
    whatever number the first is, when it can be computed. *)
Lemma num_mul_nan_l (f : float) (y r : num) :
  is_nan f = true -> num_mul (NFloat f) y = Ok r ->
  exists g, r = NFloat g /\ is_nan g = true.
Proof.
  intros Hf. unfold num_mul, num_arith, res_bind. cbn [to_float].
  destruct (to_float y) as [fy | e]; [| discriminate].
  intros [= <-]. eexists. split; [reflexivity | now apply nan_mul_l].
Qed.

Lemma num_mul_nan_r (x : num) (f : float) (r : num) :
  is_nan f = true -> num_mul x (NFloat f) = Ok r ->
  exists g, r = NFloat g /\ is_nan g = true.
Proof.
  intros Hf. unfold num_mul, num_arith, res_bind.
  destruct x as [z | fx]; cbn [to_float].
  - destruct (int_to_float z) as [fz | e]; [| discriminate].
    intros [= <-]. eexists. split; [reflexivity | now apply nan_mul_r].
  - intros [= <-]. eexists. split; [reflexivity | now apply nan_mul_r].
Qed.

Lemma num_sub_nan_r (x : num) (f : float) (r : num) :
  is_nan f = true -> num_sub x (NFloat f) = Ok r ->
  exists g, r = NFloat g /\ is_nan g = true.
Proof.
  intros Hf H. apply num_sub_float_r in H as (fx & _ & ->).
  eexists. split; [reflexivity | now apply nan_sub_r].
Qed.

(** A NaN as the leading coefficient is not rejected: the solver takes the
    branch of two roots, and when it returns, both roots are NaN. *)
Theorem solve_quadratic_nan_leading_coefficient (fa : float) (b c r : pyval) :
  is_nan fa = true ->
  solve_quadratic_func float_pow (VFloat fa) b c = Ok r ->
  exists x1 x2,
    r = VTuple [VFloat x1; VFloat x2] /\ is_nan x1 = true /\ is_nan x2 = true.
Proof.
  intros Hnan. unfold solve_quadratic_func. cbn [as_num].
  destruct (as_num b) as [b' |]; [| discriminate].
  destruct (as_num c) as [c' |]; [| discriminate].
  unfold solve_num, res_bind. cbn [num_eq0]. rewrite (nan_not_eq0 fa Hnan).
  unfold discriminant_of, res_bind.
  destruct (num_pow2 float_pow b') as [b2 | e]; [| discriminate].
  destruct (num_mul (NInt 4) (NFloat fa)) as [a4 | e] eqn:E4; [| discriminate].
  apply (num_mul_nan_r _ _ _ Hnan) in E4 as (g4 & -> & H4).
  destruct (num_mul (NFloat g4) c') as [ac4 | e] eqn:Eac; [| discriminate].
  apply (num_mul_nan_l _ _ _ H4) in Eac as (gac & -> & Hac).
  destruct (num_sub b2 (NFloat gac)) as [d | e] eqn:Ed; [| discriminate].
  apply (num_sub_nan_r _ _ _ Hac) in Ed as (gd & -> & Hd).
  cbn [num_lt0 num_eq0]. rewrite (nan_not_lt0 gd Hd), (nan_not_eq0 gd Hd).
  unfold math_sqrt, res_bind. cbn [to_float]. rewrite (nan_not_lt0 gd Hd).
  destruct (num_add (num_neg b') (NFloat (sqrt gd))) as [n1 | e] eqn:E1; [| discriminate].
  apply num_add_float_r in E1 as (fb & Hfb & ->).
  destruct (num_mul (NInt 2) (NFloat fa)) as [a2 | e] eqn:E2; [| discriminate].
  apply (num_mul_nan_r _ _ _ Hnan) in E2 as (g2 & -> & H2).
  destruct (num_truediv (NFloat (fb + sqrt gd)) (NFloat g2)) as [x1 | e] eqn:Ex1;
    [| discriminate].
  apply num_truediv_float_l in Ex1 as (D & HD & _ & ->).
  destruct (num_sub (num_neg b') (NFloat (sqrt gd))) as [n2 | e] eqn:En2; [| discriminate].
  apply num_sub_float_r in En2 as (fb' & Hfb' & ->).
  destruct (num_truediv (NFloat (fb' - sqrt gd)) (NFloat g2)) as [x2 | e] eqn:Ex2;
    [| discriminate].
  apply num_truediv_float_l in Ex2 as (D' & HD' & _ & ->).
  intros [= <-]. eexists _, _. split; [reflexivity |].
  pose proof (nan_sqrt gd Hd) as Hs.
  split; apply nan_div_l; [now apply nan_add_r | now apply nan_sub_r].
Qed.

End SolverFurther.

Lemma solve_quadratic_integer_root_count_witness :
  1%Z <> 0%Z
  /\ solve_quadratic_func no_float_pow (VInt 1) (VInt 0) (VInt 1) = Ok (VTuple []).
Proof.
  split; [discriminate |].
  apply (proj1 (solve_quadratic_integer_root_count no_float_pow 1 0 1 ltac:(discriminate))).
  reflexivity.
Defined.

Lemma solve_quadratic_nan_leading_coefficient_witness :
  is_nan nan = true
  /\ solve_quadratic_func no_float_pow (VFloat nan) (VInt 1) (VInt 1)
     = Ok (VTuple [VFloat nan; VFloat nan])
  /\ exists x1 x2,
       VTuple [VFloat nan; VFloat nan] = VTuple [VFloat x1; VFloat x2]
       /\ is_nan x1 = true /\ is_nan x2 = true.
Proof.
  split; [reflexivity |]. split; [reflexivity |].
  apply (solve_quadratic_nan_leading_coefficient no_float_pow nan (VInt 1) (VInt 1));
    reflexivity.
Defined.

(** ** The further properties at work *)

Lemma logger_passes_non_exceptions_unlogged_witness :
  render_args (py_repr room) [] [] = Ok ""
  /\ cls_is_Exception (exc_type (Exn KeyboardInterrupt [])) = false
  /\ fcall (logger_wrap (py_repr room) (py_str_exc room)
              (pure_func "f" (fun _ _ => Raise (Exn KeyboardInterrupt []))) LoggingLogger)
       [] [] []
     = (Raise (Exn KeyboardInterrupt []), [Record_ INFO "Calling f()"]).
Proof.
  split; [reflexivity |]. split; [reflexivity |].
  apply (logger_passes_non_exceptions_unlogged (py_repr room) (py_str_exc room)
           (pure_func "f" (fun _ _ => Raise (Exn KeyboardInterrupt []))) LoggingLogger
           [] [] "" []); reflexivity.
Defined.


Lemma logger_stacked_witness :
  logger (py_repr room) (py_str_exc room) None TextStream
  = Decorator (fun f => logger_wrap (py_repr room) (py_str_exc room) f TextStream)
  /\ fcall (logger_wrap (py_repr room) (py_str_exc room)
              (logger_wrap (py_repr room) (py_str_exc room)
                 (pure_func "one" (fun _ _ => Ok (VInt 1))) TextStream) TextStream)
       [] [] []
     = (Ok (VInt 1),
        [Written ("INFO: Calling one()" +++ newline);
         Written ("INFO: Calling one()" +++ newline);
         Written ("INFO: one returned 1" +++ newline);
         Written ("INFO: one returned 1" +++ newline)]).
Proof.
  split; [reflexivity |].
  exact (proj2 (logger_stacked (py_repr room) (py_str_exc room) TextStream
                  (fun f => logger_wrap (py_repr room) (py_str_exc room) f TextStream)
                  "one" (fun _ _ => Ok (VInt 1)) [] [] [] (VInt 1) "" "1"
                  eq_refl eq_refl eq_refl eq_refl)).
Defined.
